(** * Formula grid: reference parser, dependency graph and evaluation engine

    A shallow embedding of the Python backend of the grid application
    (formula_parser.py, dependency_graph.py, enhanced_formula_engine.py,
    and the validation route of app.py) and the properties of its
    specification and of its code that were checked against it.

    Conventions.
    - Python [str] is [string]; the embedding covers ASCII text (case
      mapping, word characters, digits and white space are the ASCII ones).
    - Python [int] is [Z].
    - A Python [set] is a [gset]; iteration over it goes through [elements],
      about whose order nothing is known besides [NoDup], as for a hash set.
    - A [dict] used as a map is a [gmap]; the node table of the graph, whose
      iteration order feeds the evaluation order, is an insertion-ordered
      association list, as a Python dict is.
    - Recursion limits, memory limits and the digit limit of [int()] are not
      modelled. *)

From Stdlib Require Import ZArith QArith String Ascii List Lia.
From stdpp Require Import base option list gmap strings pretty.

Open Scope Z_scope.

(** ** Python string primitives *)

Module Py.

Definition ord (c : ascii) : Z := Z.of_N (N_of_ascii c).

Definition chr (n : Z) : ascii := ascii_of_N (Z.to_N n).

Definition between (lo hi : Z) (c : ascii) : bool :=
  (lo <=? ord c) && (ord c <=? hi).

Definition is_upper (c : ascii) : bool := between 65 90 c.
Definition is_lower (c : ascii) : bool := between 97 122 c.
Definition is_digit (c : ascii) : bool := between 48 57 c.

(** [\w] *)
Definition is_word (c : ascii) : bool :=
  is_upper c || is_lower c || is_digit c || (ord c =? 95).

(** [str.isspace] on ASCII: TAB..CR, FS..US and the blank. *)
Definition is_space (c : ascii) : bool :=
  between 9 13 c || between 28 31 c || (ord c =? 32).

Definition upper_char (c : ascii) : ascii :=
  if is_lower c then chr (ord c - 32) else c.

Definition chars (s : string) : list ascii := list_ascii_of_string s.
Definition str (l : list ascii) : string := string_of_list_ascii l.

(** [s.upper()] *)
Definition upper (s : string) : string := str (map upper_char (chars s)).

Fixpoint lstrip (l : list ascii) : list ascii :=
  match l with
  | c :: l' => if is_space c then lstrip l' else l
  | [] => []
  end.

(** [s.strip()] *)
Definition strip (s : string) : string :=
  str (rev (lstrip (rev (lstrip (chars s))))).

(** [s.startswith(c)] for a one-character prefix *)
Definition startswith (s : string) (c : ascii) : bool :=
  match s with
  | String c' _ => bool_decide (c' = c)
  | EmptyString => false
  end.

(** [s[1:]] *)
Definition tail (s : string) : string :=
  match s with
  | String _ s' => s'
  | EmptyString => EmptyString
  end.

(** [int(s)] for a string of decimal digits (what [\d+] captured) *)
Definition int_digits (s : string) : Z :=
  fold_left (fun acc c => acc * 10 + (ord c - 48)) (chars s) 0.

(** [str(n)] for an int *)
Definition str_of_int (n : Z) : string := pretty n.

(** [range(a, b)] *)
Definition range (a b : Z) : list Z := seqZ a (b - a).

End Py.

(** ** Regular expressions

    The fragment of Python's [re] the sources use: character classes,
    greedy and lazy repetition of a class, groups, [\b], [^] and [$], with
    backtracking in Python's order of preference.  A position in the
    subject is the reversed text before it and the text after it. *)

Module Re.

Inductive regex : Type :=
  | Cls (p : ascii -> bool)                   (* one character of a class *)
  | Rep (greedy : bool) (least : nat) (p : ascii -> bool)
                                              (* p* p+ p+? : least 0 or 1 *)
  | WordB                                     (* \b *)
  | Bol                                       (* ^  *)
  | Eol                                       (* $  *)
  | Grp (r : regex)                           (* ( r ) *)
  | Cat (r1 r2 : regex).

Definition pos : Type := list ascii * list ascii.

Definition word_before (p : pos) : bool :=
  match p.1 with c :: _ => Py.is_word c | [] => false end.
Definition word_after (p : pos) : bool :=
  match p.2 with c :: _ => Py.is_word c | [] => false end.

Definition newline : ascii := Py.chr 10.

(** [$] matches at the end and before a final newline. *)
Definition at_eol (p : pos) : bool :=
  match p.2 with
  | [] => true
  | [c] => bool_decide (c = newline)
  | _ => false
  end.

Section Match.
Context {R : Type}.

(** Greedy: one more character first, the continuation after. *)
Fixpoint rep_greedy (p : ascii -> bool) (least : nat)
    (pre suf : list ascii) (k : pos -> option R) : option R :=
  let stop := match least with O => k (pre, suf) | S _ => None end in
  match suf with
  | c :: suf' =>
      if p c then
        match rep_greedy p (Nat.pred least) (c :: pre) suf' k with
        | Some r => Some r
        | None => stop
        end
      else stop
  | [] => stop
  end.

(** Lazy: the continuation first, one more character after. *)
Fixpoint rep_lazy (p : ascii -> bool) (least : nat)
    (pre suf : list ascii) (k : pos -> option R) : option R :=
  let more :=
    match suf with
    | c :: suf' =>
        if p c then rep_lazy p (Nat.pred least) (c :: pre) suf' k else None
    | [] => None
    end in
  match least with
  | O => match k (pre, suf) with Some r => Some r | None => more end
  | S _ => more
  end.

(** The text between two positions of one subject. *)
Definition captured (from to : pos) : string :=
  Py.str (take (length from.2 - length to.2)%nat from.2).

Fixpoint run (r : regex) (p : pos) (caps : list string)
    (k : pos -> list string -> option R) : option R :=
  match r with
  | Cls c =>
      match p.2 with
      | a :: suf' => if c a then k (a :: p.1, suf') caps else None
      | [] => None
      end
  | Rep true least c => rep_greedy c least p.1 p.2 (fun p' => k p' caps)
  | Rep false least c => rep_lazy c least p.1 p.2 (fun p' => k p' caps)
  | WordB => if xorb (word_before p) (word_after p) then k p caps else None
  | Bol => match p.1 with [] => k p caps | _ => None end
  | Eol => if at_eol p then k p caps else None
  | Grp r' => run r' p caps (fun p' caps' => k p' (caps' ++ [captured p p']))
  | Cat r1 r2 => run r1 p caps (fun p' caps' => run r2 p' caps' k)
  end.
End Match.

(** A match at a position: where it ends and what the groups captured. *)
Definition match_at (r : regex) (p : pos) : option (pos * list string) :=
  run r p [] (fun p' caps => Some (p', caps)).

(** [re.match(r, s)]: the groups of a match at the start of [s]. *)
Definition match_ (r : regex) (s : string) : option (list string) :=
  snd <$> match_at r ([], Py.chars s).

(** The scan shared by [findall] and [sub]: leftmost matches that do not
    overlap.  [skip] counts the characters still covered by the last
    match; [emit] is called on each match, [keep] on each character
    outside the matches. *)
Section Scan.
Context {A : Type} (r : regex) (emit : list string -> list A) (keep : ascii -> list A).

Fixpoint scan (skip : nat) (pre suf : list ascii) : list A :=
  match suf with
  | c :: suf' =>
      match skip with
      | S n => scan n (c :: pre) suf'
      | O =>
          match match_at r (pre, suf) with
          | Some (p', caps) =>
              match (length suf - length p'.2)%nat with
              | O => emit caps ++ keep c ++ scan 0 (c :: pre) suf'
              | S n => emit caps ++ scan n (c :: pre) suf'
              end
          | None => keep c ++ scan 0 (c :: pre) suf'
          end
      end
  | [] =>
      match skip with
      | S _ => []
      | O =>
          match match_at r (pre, []) with
          | Some (_, caps) => emit caps
          | None => []
          end
      end
  end.
End Scan.

(** [r.findall(s)]: the groups of every match. *)
Definition findall (r : regex) (s : string) : list (list string) :=
  scan r (fun caps => [caps]) (fun _ => []) 0 [] (Py.chars s).

(** [r.sub('', s)]: the subject without the matches. *)
Definition sub_empty (r : regex) (s : string) : string :=
  Py.str (scan r (fun _ => []) (fun c => [c]) 0 [] (Py.chars s)).

Definition plus (p : ascii -> bool) : regex := Rep true 1 p.
Definition star (p : ascii -> bool) : regex := Rep true 0 p.
Definition plus_lazy (p : ascii -> bool) : regex := Rep false 1 p.
Definition lit (c : ascii) : regex := Cls (fun a => bool_decide (a = c)).

Fixpoint seq (rs : list regex) (last : regex) : regex :=
  match rs with
  | [] => last
  | r :: rs' => Cat r (seq rs' last)
  end.

End Re.

(** ** Cell references (dependency_graph.py, [CellRef]) *)

Record CellRef : Type := mkCellRef { column : string; row : Z }.

Global Instance CellRef_eq_dec : EqDecision CellRef.
Proof. solve_decision. Defined.

Global Instance CellRef_countable : Countable CellRef.
Proof.
  refine (inj_countable' (fun c => (column c, row c))
                         (fun p => mkCellRef p.1 p.2) _).
  by intros [].
Defined.

(** [CellRef.__str__] *)
Definition CellRef_str (c : CellRef) : string :=
  column c +:+ Py.str_of_int (row c).

(** ** The reference parser (formula_parser.py) *)

Module FormulaParser.

(** [\b([A-Z]+)(\d+)\b] *)
Definition cell_pattern : Re.regex :=
  Re.seq [Re.WordB; Re.Grp (Re.plus Py.is_upper); Re.Grp (Re.plus Py.is_digit)]
         Re.WordB.

(** [\b([A-Z]+)(\d+):([A-Z]+)(\d+)\b] *)
Definition range_pattern : Re.regex :=
  Re.seq [Re.WordB; Re.Grp (Re.plus Py.is_upper); Re.Grp (Re.plus Py.is_digit);
          Re.lit ":"; Re.Grp (Re.plus Py.is_upper); Re.Grp (Re.plus Py.is_digit)]
         Re.WordB.

Definition _column_to_number (col : string) : Z :=
  fold_left (fun result char => result * 26 + (Py.ord char - Py.ord "A" + 1))
            (Py.chars (Py.upper col)) 0.

(** The [while num > 0] loop; [fuel] bounds the iterations, and [num]
    itself is enough of it since every iteration makes [num] smaller. *)
Fixpoint number_to_column_loop (fuel : nat) (num : Z) (result : list ascii)
    : list ascii :=
  match fuel with
  | O => result
  | S fuel' =>
      if 0 <? num then
        let num1 := num - 1 in
        number_to_column_loop fuel' (num1 / 26)
          (Py.chr (Py.ord "A" + num1 mod 26) :: result)
      else result
  end.

Definition _number_to_column (num : Z) : string :=
  Py.str (number_to_column_loop (Z.to_nat num) num []).

Definition _expand_range (start_col : string) (start_row : Z)
    (end_col : string) (end_row : Z) : gset CellRef :=
  let start_col_num := _column_to_number start_col in
  let end_col_num := _column_to_number end_col in
  let '(start_col_num, end_col_num) :=
    if end_col_num <? start_col_num then (end_col_num, start_col_num)
    else (start_col_num, end_col_num) in
  let '(start_row, end_row) :=
    if end_row <? start_row then (end_row, start_row)
    else (start_row, end_row) in
  fold_left (fun cells col_num =>
      let col := _number_to_column col_num in
      fold_left (fun cells row => {[ mkCellRef col row ]} ∪ cells)
                (Py.range start_row (end_row + 1)) cells)
    (Py.range start_col_num (end_col_num + 1)) ∅.

Definition extract_dependencies (formula : string) : gset CellRef :=
  let formula := if Py.startswith formula "=" then Py.tail formula else formula in
  let range_matches := Re.findall range_pattern (Py.upper formula) in
  let dependencies :=
    fold_left (fun deps m =>
        match m with
        | [start_col; start_row; end_col; end_row] =>
            _expand_range start_col (Py.int_digits start_row)
                          end_col (Py.int_digits end_row) ∪ deps
        | _ => deps
        end) range_matches ∅ in
  let formula_without_ranges := Re.sub_empty range_pattern (Py.upper formula) in
  let cell_matches := Re.findall cell_pattern formula_without_ranges in
  fold_left (fun deps m =>
      match m with
      | [col; row] => {[ mkCellRef col (Py.int_digits row) ]} ∪ deps
      | _ => deps
      end) cell_matches dependencies.

End FormulaParser.

Import FormulaParser.

(** ** Insertion-ordered dictionaries

    A Python [dict] keeps its keys in insertion order; assigning to a key
    that is present keeps its place, deleting a key and adding it again
    moves it to the end. *)

Section Dict.
Context {K V : Type} `{EqDecision K}.

Fixpoint dict_get (k : K) (m : list (K * V)) : option V :=
  match m with
  | [] => None
  | (k', v) :: m' => if decide (k = k') then Some v else dict_get k m'
  end.

(** [m[k] = v] *)
Fixpoint dict_set (k : K) (v : V) (m : list (K * V)) : list (K * V) :=
  match m with
  | [] => [(k, v)]
  | (k', v') :: m' =>
      if decide (k = k') then (k, v) :: m' else (k', v') :: dict_set k v m'
  end.

(** [del m[k]] *)
Fixpoint dict_del (k : K) (m : list (K * V)) : list (K * V) :=
  match m with
  | [] => []
  | (k', v') :: m' =>
      if decide (k = k') then dict_del k m' else (k', v') :: dict_del k m'
  end.

(** In-place mutation of the object stored under [k], when there is one. *)
Fixpoint dict_alter (f : V -> V) (k : K) (m : list (K * V)) : list (K * V) :=
  match m with
  | [] => []
  | (k', v') :: m' =>
      if decide (k = k') then (k', f v') :: m' else (k', v') :: dict_alter f k m'
  end.

Definition dict_keys (m : list (K * V)) : list K := m.*1.

(** [k in m] *)
Definition dict_mem (k : K) (m : list (K * V)) : bool :=
  bool_decide (is_Some (dict_get k m)).
End Dict.

(** ** Numbers and results

    Python floats are modelled by exact rationals kept in lowest terms:
    rounding, infinities and NaN are outside the model, and so is the
    difference between an [int] and a [float] of the same value. *)

Inductive result : Type :=
  | RNum (x : Q)          (* a number *)
  | RErr (token : string) (* an error token such as #ERROR! *).

(** ** The dependency graph (dependency_graph.py) *)

Module DependencyGraph.

Record FormulaNode : Type := mkNode {
  cell_ref : CellRef;
  formula : string;
  dependencies : gset CellRef;
  dependents : gset CellRef;
  value : option result;
  is_evaluated : bool;
  has_error : bool;
  error_message : option string
}.

Definition with_dependencies (f : gset CellRef -> gset CellRef) (n : FormulaNode) :=
  mkNode (cell_ref n) (formula n) (f (dependencies n)) (dependents n)
         (value n) (is_evaluated n) (has_error n) (error_message n).

Definition with_dependents (f : gset CellRef -> gset CellRef) (n : FormulaNode) :=
  mkNode (cell_ref n) (formula n) (dependencies n) (f (dependents n))
         (value n) (is_evaluated n) (has_error n) (error_message n).

Record Graph : Type := mkGraph {
  nodes : list (CellRef * FormulaNode);
  adjacency_list : gmap CellRef (gset CellRef);
  reverse_adjacency_list : gmap CellRef (gset CellRef);
  _evaluation_order : list CellRef;
  _dirty_cells : gset CellRef
}.

(** [DependencyGraph()] *)
Definition init : Graph := mkGraph [] ∅ ∅ [] ∅.

(** Reading [d[k]] in a [defaultdict(set)].  Python also stores the empty
    set under a missing key on such a read; no code path tells a missing
    key from an empty set, and reads here leave the map alone. *)
Definition dd_get (d : gmap CellRef (gset CellRef)) (k : CellRef) : gset CellRef :=
  default ∅ (d !! k).

(** [d[k].add(x)], [d[k].discard(x)]: the entry is created when missing. *)
Definition dd_update (f : gset CellRef -> gset CellRef) (k : CellRef)
    (d : gmap CellRef (gset CellRef)) : gmap CellRef (gset CellRef) :=
  <[k := f (dd_get d k)]> d.

Definition set_nodes (g : Graph) ns :=
  mkGraph ns (adjacency_list g) (reverse_adjacency_list g)
          (_evaluation_order g) (_dirty_cells g).
Definition set_adjacency (g : Graph) a :=
  mkGraph (nodes g) a (reverse_adjacency_list g)
          (_evaluation_order g) (_dirty_cells g).
Definition set_reverse (g : Graph) r :=
  mkGraph (nodes g) (adjacency_list g) r
          (_evaluation_order g) (_dirty_cells g).
Definition set_order (g : Graph) o :=
  mkGraph (nodes g) (adjacency_list g) (reverse_adjacency_list g)
          o (_dirty_cells g).
Definition set_dirty (g : Graph) d :=
  mkGraph (nodes g) (adjacency_list g) (reverse_adjacency_list g)
          (_evaluation_order g) d.

(** *** [_remove_node] *)

Definition remove_dependency_edge (cell_ref : CellRef) (g : Graph) (dep : CellRef) : Graph :=
  let g := set_adjacency g (dd_update (fun s => s ∖ {[cell_ref]}) dep (adjacency_list g)) in
  set_nodes g (dict_alter (with_dependents (fun s => s ∖ {[cell_ref]})) dep (nodes g)).

Definition remove_dependent_edge (cell_ref : CellRef) (g : Graph) (dependent : CellRef) : Graph :=
  let g := set_reverse g (dd_update (fun s => s ∖ {[cell_ref]}) dependent
                                    (reverse_adjacency_list g)) in
  set_nodes g (dict_alter (with_dependencies (fun s => s ∖ {[cell_ref]})) dependent (nodes g)).

Definition _remove_node (cell_ref : CellRef) (g : Graph) : Graph :=
  match dict_get cell_ref (nodes g) with
  | None => g
  | Some node =>
      let g := fold_left (remove_dependency_edge cell_ref)
                         (elements (dependencies node)) g in
      (* [node.dependents] is read when the second loop starts *)
      let dependents_now :=
        match dict_get cell_ref (nodes g) with
        | Some node' => dependents node'
        | None => ∅
        end in
      let g := fold_left (remove_dependent_edge cell_ref)
                         (elements dependents_now) g in
      let g := set_adjacency g (delete cell_ref (adjacency_list g)) in
      let g := set_reverse g (delete cell_ref (reverse_adjacency_list g)) in
      set_nodes g (dict_del cell_ref (nodes g))
  end.

(** *** Depth-first search for a cycle

    [visited] and [rec_stack] are the two sets the nested functions share.
    The recursion of the source is bounded here by [fuel]; [None] means
    that the fuel ran out. *)

Definition dfs_state : Type := gset CellRef * gset CellRef.

Section Neighbours.
Context {A : Type}.
(** The [for neighbor in ...] loop of both searches: [found] says
    whether the value a recursive call returned is truthy, [hit] is
    what is returned when the neighbour is on the recursion stack. *)
Context (found : A -> bool) (none : A).
Context (rec : CellRef -> dfs_state -> option (A * dfs_state)).
Context (hit : CellRef -> A).

Fixpoint for_neighbours (nbrs : list CellRef) (st : dfs_state)
    : option (A * dfs_state) :=
  match nbrs with
  | [] => Some (none, st)
  | neighbor :: nbrs' =>
      if decide (neighbor ∉ st.1) then
        match rec neighbor st with
        | None => None
        | Some (r, st') =>
            if found r then Some (r, st') else for_neighbours nbrs' st'
        end
      else if decide (neighbor ∈ st.2) then Some (hit neighbor, st)
      else for_neighbours nbrs' st
  end.
End Neighbours.

(** [has_cycle_dfs] of [_would_create_cycle] *)
Fixpoint has_cycle_dfs (fuel : nat) (temp_adjacency : gmap CellRef (gset CellRef))
    (node : CellRef) (st : dfs_state) : option (bool * dfs_state) :=
  match fuel with
  | O => None
  | S fuel' =>
      let st := ({[node]} ∪ st.1, {[node]} ∪ st.2) in
      match for_neighbours (fun b : bool => b) false
              (has_cycle_dfs fuel' temp_adjacency) (fun _ => true)
              (elements (dd_get temp_adjacency node)) st with
      | Some (false, st') => Some (false, (st'.1, st'.2 ∖ {[node]}))
      | other => other
      end
  end.

(** The loop over the start nodes of a search. *)
Section Roots.
Context {A : Type} (found : A -> bool) (none : A).
Context (rec : CellRef -> dfs_state -> option (A * dfs_state)).

Fixpoint for_roots (roots : list CellRef) (st : dfs_state) : option A :=
  match roots with
  | [] => Some none
  | node :: roots' =>
      if decide (node ∉ st.1) then
        match rec node st with
        | None => None
        | Some (r, st') => if found r then Some r else for_roots roots' st'
        end
      else for_roots roots' st
  end.
End Roots.

(** Every cell a search can come across: its start nodes and the targets
    of the edges. *)
Definition cells_of (roots : gset CellRef) (adj : gmap CellRef (gset CellRef))
    : gset CellRef :=
  roots ∪ ⋃ (map_to_list adj).*2.

Definition node_keys (g : Graph) : gset CellRef := list_to_set (dict_keys (nodes g)).

Definition _would_create_cycle (new_cell : CellRef) (deps : gset CellRef)
    (g : Graph) : option bool :=
  let temp_adjacency :=
    fold_left (fun temp dep => dd_update (fun s => {[new_cell]} ∪ s) dep temp)
              (elements deps) (adjacency_list g) in
  let all_nodes := node_keys g ∪ {[new_cell]} in
  for_roots (fun b : bool => b) false
    (has_cycle_dfs (S (size (cells_of all_nodes temp_adjacency))) temp_adjacency)
    (elements all_nodes) (∅, ∅).

(** *** [has_circular_dependency] *)

(** [current_path[current_path.index(neighbor):]] *)
Fixpoint from_first (x : CellRef) (path : list CellRef) : list CellRef :=
  match path with
  | [] => []
  | y :: path' => if decide (x = y) then path else from_first x path'
  end.

(** Truth value of an [Optional[List]]: [None] and the empty list are false. *)
Definition truthy (c : option (list CellRef)) : bool :=
  match c with Some (_ :: _) => true | _ => false end.

Fixpoint dfs (fuel : nat) (adj : gmap CellRef (gset CellRef))
    (node : CellRef) (path : list CellRef) (st : dfs_state)
    : option (option (list CellRef) * dfs_state) :=
  match fuel with
  | O => None
  | S fuel' =>
      let st := ({[node]} ∪ st.1, {[node]} ∪ st.2) in
      let current_path := path ++ [node] in
      match for_neighbours truthy None
              (fun neighbor => dfs fuel' adj neighbor current_path)
              (fun neighbor => Some (from_first neighbor current_path ++ [neighbor]))
              (elements (dd_get adj node)) st with
      | Some (None, st') => Some (None, (st'.1, st'.2 ∖ {[node]}))
      | other => other
      end
  end.

Definition has_circular_dependency (g : Graph)
    : option (bool * option (list CellRef)) :=
  let adj := adjacency_list g in
  match for_roots truthy None
          (fun node => dfs (S (size (cells_of (node_keys g) adj))) adj node [])
          (dict_keys (nodes g)) (∅, ∅) with
  | None => None
  | Some cycle => if truthy cycle then Some (true, cycle) else Some (false, None)
  end.

(** *** [_mark_dirty] *)

(** Every iteration of the [while dirty_queue] loop takes an entry from
    the queue; entries are added only when a cell is marked for the first
    time, as many as it has dependents: [dirty_fuel] counts both. *)
Fixpoint mark_dirty_loop (fuel : nat) (ns : list (CellRef * FormulaNode))
    (dirty_queue : list CellRef) (dirty : gset CellRef) : option (gset CellRef) :=
  match dirty_queue with
  | [] => Some dirty
  | current :: dirty_queue' =>
      match fuel with
      | O => None
      | S fuel' =>
          if decide (current ∈ dirty) then
            mark_dirty_loop fuel' ns dirty_queue' dirty
          else
            let dirty := {[current]} ∪ dirty in
            match dict_get current ns with
            | Some node =>
                mark_dirty_loop fuel' ns
                  (dirty_queue' ++ elements (dependents node)) dirty
            | None => mark_dirty_loop fuel' ns dirty_queue' dirty
            end
      end
  end.

Definition dirty_fuel (ns : list (CellRef * FormulaNode)) : nat :=
  S (sum_list (map (fun kv => S (size (dependents kv.2))) ns)).

Definition _mark_dirty (cell_ref : CellRef) (g : Graph) : option Graph :=
  set_dirty g <$> mark_dirty_loop (dirty_fuel (nodes g)) (nodes g) [cell_ref] (_dirty_cells g).

(** *** [_update_evaluation_order] (Kahn's algorithm) *)

(** [in_degree] is a [defaultdict(int)]. *)
Definition deg_get (in_degree : gmap CellRef Z) (k : CellRef) : Z :=
  default 0 (in_degree !! k).

Definition count_formula_dependencies (ns : list (CellRef * FormulaNode))
    (in_degree : gmap CellRef Z) (node : CellRef) : gmap CellRef Z :=
  let in_degree := <[node := 0]> in_degree in
  match dict_get node ns with
  | Some n =>
      fold_left (fun in_degree dep =>
          if dict_mem dep ns then <[node := deg_get in_degree node + 1]> in_degree
          else in_degree)
        (elements (dependencies n)) in_degree
  | None => in_degree
  end.

(** The [for dependent in self.adjacency_list[current]] loop. *)
Definition release_dependent (ns : list (CellRef * FormulaNode))
    (st : gmap CellRef Z * list CellRef) (dependent : CellRef)
    : gmap CellRef Z * list CellRef :=
  if dict_mem dependent ns then
    let d := deg_get st.1 dependent - 1 in
    (<[dependent := d]> st.1, if d =? 0 then st.2 ++ [dependent] else st.2)
  else st.

(** The [while queue] loop.  An iteration takes one entry from the queue,
    and an entry is added only when a positive degree goes down to zero:
    the length of the queue plus the sum of the degrees bounds the
    iterations. *)
Fixpoint kahn_loop (fuel : nat) (g : Graph) (in_degree : gmap CellRef Z)
    (queue result : list CellRef) : option (list CellRef) :=
  match queue with
  | [] => Some result
  | current :: queue' =>
      match fuel with
      | O => None
      | S fuel' =>
          let result := result ++ [current] in
          let '(in_degree, queue') :=
            fold_left (release_dependent (nodes g))
                      (elements (dd_get (adjacency_list g) current))
                      (in_degree, queue') in
          kahn_loop fuel' g in_degree queue' result
      end
  end.

Definition _update_evaluation_order (g : Graph) : option Graph :=
  let formula_nodes := dict_keys (nodes g) in
  match formula_nodes with
  | [] => Some (set_order g [])
  | _ =>
      let in_degree :=
        fold_left (count_formula_dependencies (nodes g)) formula_nodes ∅ in
      let queue :=
        filter (fun node => deg_get in_degree node = 0) formula_nodes in
      let fuel :=
        (length queue
         + sum_list (map (fun node => Z.to_nat (deg_get in_degree node))
                         formula_nodes))%nat in
      set_order g <$> kahn_loop fuel g in_degree queue []
  end.

(** *** [add_formula] *)

Definition add_dependency_edge (cell_ref : CellRef) (g : Graph) (dep : CellRef) : Graph :=
  let g := set_adjacency g (dd_update (fun s => {[cell_ref]} ∪ s) dep (adjacency_list g)) in
  let g := set_reverse g (dd_update (fun s => {[dep]} ∪ s) cell_ref
                                    (reverse_adjacency_list g)) in
  set_nodes g (dict_alter (with_dependents (fun s => {[cell_ref]} ∪ s)) dep (nodes g)).

(** The result is the returned flag and the graph afterwards; [None]
    stands for a search or a loop that ran out of fuel. *)
Definition add_formula (cell_ref : CellRef) (formula : string)
    (deps : gset CellRef) (g : Graph) : option (bool * Graph) :=
  let g := if dict_mem cell_ref (nodes g) then _remove_node cell_ref g else g in
  let node := mkNode cell_ref formula deps ∅ None false false None in
  cyc ← _would_create_cycle cell_ref deps g;
  if cyc : bool then Some (false, g)
  else
    let g := set_nodes g (dict_set cell_ref node (nodes g)) in
    let g := fold_left (add_dependency_edge cell_ref) (elements deps) g in
    g ← _mark_dirty cell_ref g;
    g ← _update_evaluation_order g;
    Some (true, g).

(** [get_evaluation_order], [get_dirty_cells]: the values of the copies. *)
Definition get_evaluation_order (g : Graph) : list CellRef := _evaluation_order g.
Definition get_dirty_cells (g : Graph) : gset CellRef := _dirty_cells g.

Definition mark_cell_evaluated (cell_ref : CellRef) (v : result)
    (has_err : bool) (msg : option string) (g : Graph) : Graph :=
  if dict_mem cell_ref (nodes g) then
    let g := set_nodes g
      (dict_alter (fun n => mkNode (DependencyGraph.cell_ref n) (formula n)
                              (dependencies n) (dependents n)
                              (Some v) true has_err msg)
                  cell_ref (nodes g)) in
    set_dirty g (_dirty_cells g ∖ {[cell_ref]})
  else g.

Record graph_stats : Type := mkStats {
  total_formulas : Z;
  dirty_cells : Z;
  evaluation_order_length : Z;
  has_cycles : bool;
  max_dependencies : Z;
  max_dependents : Z
}.

Definition max_of (l : list Z) : Z :=
  match l with
  | [] => 0
  | x :: l' => fold_left Z.max l' x
  end.

Definition get_graph_stats (g : Graph) : option graph_stats :=
  c ← has_circular_dependency g;
  Some (mkStats (Z.of_nat (length (nodes g)))
                (Z.of_nat (size (_dirty_cells g)))
                (Z.of_nat (length (_evaluation_order g)))
                c.1
                (max_of (map (fun kv => Z.of_nat (size (dependencies kv.2))) (nodes g)))
                (max_of (map (fun kv => Z.of_nat (size (dependents kv.2))) (nodes g)))).

(** A sequence of [add_formula] calls on one graph; the flags are kept. *)
Fixpoint add_all (fs : list (CellRef * string * gset CellRef)) (g : Graph)
    : option (list bool * Graph) :=
  match fs with
  | [] => Some ([], g)
  | (c, formula, deps) :: fs' =>
      '(ok, g) ← add_formula c formula deps g;
      '(oks, g) ← add_all fs' g;
      Some (ok :: oks, g)
  end.

(** The states of a graph object: a new graph, and what [add_formula] and
    [mark_cell_evaluated] make of a state. *)
Inductive reachable : Graph -> Prop :=
  | reachable_init : reachable init
  | reachable_add g cell_ref formula deps ok g' :
      reachable g ->
      add_formula cell_ref formula deps g = Some (ok, g') ->
      reachable g'
  | reachable_mark g cell_ref v has_err msg :
      reachable g ->
      reachable (mark_cell_evaluated cell_ref v has_err msg g).

(** *** Vocabulary of the statements *)

(** The forward edges: [a] is read by [b]. *)
Definition edge (adj : gmap CellRef (gset CellRef)) (a b : CellRef) : Prop :=
  b ∈ dd_get adj a.


(** The edges after the insertion of [new_cell] with its dependencies. *)
Definition edge_with (new_cell : CellRef) (deps : gset CellRef)
    (adj : gmap CellRef (gset CellRef)) (a b : CellRef) : Prop :=
  edge adj a b \/ (a ∈ deps /\ b = new_cell).

(** Consecutive cells of a list are joined by edges. *)
Fixpoint chain (E : CellRef -> CellRef -> Prop) (l : list CellRef) : Prop :=
  match l with
  | x :: (y :: _) as l' => E x y /\ chain E l'
  | _ => True
  end.

(** A cycle written as its path: first cell again at the end. *)
Definition cycle_path (E : CellRef -> CellRef -> Prop) (p : list CellRef) : Prop :=
  (exists x l, p = x :: l ++ [x]) /\ chain E p.

(** The graph on which [add_formula] checks for a cycle: the old node of
    the cell, if there is one, has been removed. *)
Definition replaced (c : CellRef) (g : Graph) : Graph :=
  if dict_mem c (nodes g) then _remove_node c g else g.

(** The graph after the insertion of the node and of its edges. *)
Definition inserted (c : CellRef) (formula : string) (deps : gset CellRef)
    (g : Graph) : Graph :=
  fold_left (add_dependency_edge c) (elements deps)
    (set_nodes g (dict_set c (mkNode c formula deps ∅ None false false None) (nodes g))).

(** Every forward edge leads to a node. *)
Definition edges_into_nodes (g : Graph) : Prop :=
  forall a b, edge (adjacency_list g) a b -> b ∈ node_keys g.

(** The position of a cell in an evaluation order. *)
Definition index_of (c : CellRef) (order : list CellRef) : option nat :=
  fst <$> list_find (fun x => x = c) order.

End DependencyGraph.

(** ** The evaluation engine (enhanced_formula_engine.py) *)

(** A cell of the grid as the JSON body delivers it. *)
Inductive cell_value : Type :=
  | VNone
  | VBool (b : bool)
  | VInt (n : Z)
  | VFloat (x : Q)
  | VStr (s : string).

Record Column : Type := mkColumn { key : string; title : string }.

Module Num.

Definition zero : Q := 0%Q.
Definition of_int (n : Z) : Q := inject_Z n.
Definition add (x y : Q) : Q := Qred (x + y).
Definition sub (x y : Q) : Q := Qred (x - y).
Definition mul (x y : Q) : Q := Qred (x * y).
Definition div (x y : Q) : Q := Qred (x / y).
Definition is_zero (x : Q) : bool := Qeq_bool x 0.
Definition is_integer (x : Q) : bool := bool_decide (Qden (Qred x) = 1%positive).
Definition to_int (x : Q) : Z := Qnum (Qred x).

Fixpoint span (p : ascii -> bool) (l : list ascii) : list ascii * list ascii :=
  match l with
  | c :: l' =>
      if p c then let '(a, b) := span p l' in (c :: a, b) else ([], l)
  | [] => ([], [])
  end.

Definition digits_value (l : list ascii) : Z :=
  fold_left (fun acc c => acc * 10 + (Py.ord c - 48)) l 0.

Definition pow10 (e : Z) : Q :=
  if 0 <=? e then inject_Z (10 ^ e) else Qinv (inject_Z (10 ^ (- e))).

(** [float(s)] on the decimal forms: white space around, a sign, digits
    with an optional point, an optional exponent.  [None] is ValueError.
    The words inf and nan and digit-group underscores are not modelled. *)
Definition float (s : string) : option Q :=
  let l := Py.chars (Py.strip s) in
  let '(sign, l) :=
    match l with
    | "-"%char :: l' => (-1, l')
    | "+"%char :: l' => (1, l')
    | _ => (1, l)
    end in
  let '(ip, l) := span Py.is_digit l in
  let '(fp, l) :=
    match l with
    | "."%char :: l' => span Py.is_digit l'
    | _ => ([], l)
    end in
  match ip, fp with
  | [], [] => None
  | _, _ =>
      let mantissa :=
        Qmult (inject_Z (sign * digits_value (ip ++ fp)))
              (pow10 (- Z.of_nat (length fp))) in
      match l with
      | [] => Some (Qred mantissa)
      | e :: l' =>
          if bool_decide (e = "e"%char) || bool_decide (e = "E"%char) then
            let '(esign, l') :=
              match l' with
              | "-"%char :: l'' => (-1, l'')
              | "+"%char :: l'' => (1, l'')
              | _ => (1, l')
              end in
            match span Py.is_digit l' with
            | ((_ :: _) as ed, []) =>
                Some (Qred (Qmult mantissa (pow10 (esign * digits_value ed))))
            | _ => None
            end
          else None
      end
  end.

End Num.

Import FormulaParser DependencyGraph.

Section Engine.

(** [str(x)] of a float that is not an integer: Python prints the
    shortest decimal that reads back as the same double, which a model
    on rationals cannot reproduce; the rendering is left open. *)
Variable float_str : Q -> string.

Definition error_token : string := "#ERROR!".

Definition _format_number (x : Q) : string :=
  if Num.is_integer x then Py.str_of_int (Num.to_int x) else float_str x.

Definition _find_column_by_letter (letter : string) (columns_context : list Column)
    : option Column :=
  List.find (fun column => bool_decide (key column = letter)) columns_context.

Definition _letter_to_column_key (letter : string) (columns_context : list Column)
    : option string :=
  key <$> _find_column_by_letter letter columns_context.

(** Truth value of an [Optional[str]] *)
Definition truthy_key (k : option string) : bool :=
  match k with
  | Some (String _ _) => true
  | _ => false
  end.

(** [re.sub(r'[^\d\.\-]', '', value)] *)
Definition clean_numeric (s : string) : string :=
  Py.str (List.filter (fun c => Py.is_digit c || bool_decide (c = "."%char)
                                 || bool_decide (c = "-"%char)) (Py.chars s)).

Definition _get_numeric_value (v : cell_value) : Q :=
  match v with
  | VInt n => Num.of_int n
  | VBool b => Num.of_int (if b then 1 else 0)
  | VFloat x => x
  | VStr s =>
      match clean_numeric s with
      | EmptyString => Num.zero
      | cleaned => default Num.zero (Num.float cleaned)
      end
  | VNone => Num.zero
  end.

(** [data_context[i]] for an index inside the list *)
Definition row_at (data_context : list (gmap string cell_value)) (i : Z)
    : gmap string cell_value :=
  default ∅ (data_context !! Z.to_nat i).

Definition len {A} (l : list A) : Z := Z.of_nat (length l).

Definition _get_cell_value (col_ref : string) (row_index : Z)
    (data_context : list (gmap string cell_value)) (columns_context : list Column) : Q :=
  if (row_index <? 0) || (len data_context <=? row_index) then Num.zero
  else
    match _find_column_by_letter col_ref columns_context with
    | None => Num.zero
    | Some column =>
        _get_numeric_value
          (default (VInt 0) (row_at data_context row_index !! key column))
    end.

(** [^([A-Z]+)(\d+)$] *)
Definition cell_ref_re : Re.regex :=
  Re.seq [Re.Bol; Re.Grp (Re.plus Py.is_upper); Re.Grp (Re.plus Py.is_digit)] Re.Eol.

(** [^([A-Z]+)(\d+):([A-Z]+)(\d+)$] *)
Definition range_re : Re.regex :=
  Re.seq [Re.Bol; Re.Grp (Re.plus Py.is_upper); Re.Grp (Re.plus Py.is_digit);
          Re.lit ":"; Re.Grp (Re.plus Py.is_upper); Re.Grp (Re.plus Py.is_digit)]
         Re.Eol.

(** [([A-Z]+)\(([^)]+)\)] *)
Definition func_re : Re.regex :=
  Re.seq [Re.Grp (Re.plus Py.is_upper); Re.lit "(";
          Re.Grp (Re.plus (fun c => negb (bool_decide (c = ")"%char))))]
         (Re.lit ")").

Definition is_operator (c : ascii) : bool :=
  bool_decide (c = "+"%char) || bool_decide (c = "-"%char)
  || bool_decide (c = "*"%char) || bool_decide (c = "/"%char).

(** [.] *)
Definition dot (c : ascii) : bool := negb (bool_decide (c = Re.newline)).

(** [^(.+?)([\+\-\*\/])(.+?)$] *)
Definition arithmetic_re : Re.regex :=
  Re.seq [Re.Bol; Re.Grp (Re.plus_lazy dot); Re.Grp (Re.Cls is_operator);
          Re.Grp (Re.plus_lazy dot)] Re.Eol.

Definition _parse_value (v : string) (current_row : Z)
    (data_context : list (gmap string cell_value)) (columns_context : list Column) : Q :=
  match Re.match_ cell_ref_re v with
  | Some [col_ref; row_ref] =>
      _get_cell_value col_ref (Py.int_digits row_ref - 1) data_context columns_context
  | _ => _get_numeric_value (VStr v)
  end.

Definition _perform_arithmetic (left : Q) (operator : string) (right : Q) : result :=
  if bool_decide (operator = "+") then RNum (Num.add left right)
  else if bool_decide (operator = "-") then RNum (Num.sub left right)
  else if bool_decide (operator = "*") then RNum (Num.mul left right)
  else if bool_decide (operator = "/") then
    if negb (Num.is_zero right) then RNum (Num.div left right) else RErr "#DIV/0!"
  else RErr error_token.

(** [ord(s)]: TypeError, here [None], unless [s] has one character. *)
Definition ord_str (s : string) : option Z :=
  match s with
  | String c EmptyString => Some (Py.ord c)
  | _ => None
  end.

(** [s.split(',')] *)
Fixpoint split_comma (l : list ascii) (cur : list ascii) : list string :=
  match l with
  | [] => [Py.str (rev cur)]
  | c :: l' =>
      if bool_decide (c = ","%char) then Py.str (rev cur) :: split_comma l' []
      else split_comma l' (c :: cur)
  end.

Definition has_comma (s : string) : bool :=
  bool_decide (","%char ∈ Py.chars s).

(** The rows [range(start, min(end + 1, len(data)))] with [i >= 0]. *)
Definition rows_in_range (start_row_idx end_row_idx : Z)
    (data_context : list (gmap string cell_value)) : list Z :=
  List.filter (fun i => 0 <=? i)
    (Py.range start_row_idx (Z.min (end_row_idx + 1) (len data_context))).

Definition _calculate_sum (args_str : string) (current_row : Z)
    (data_context : list (gmap string cell_value)) (columns_context : list Column)
    : result :=
  let args_str := Py.strip args_str in
  match Re.match_ range_re args_str with
  | Some [start_col; start_row; end_col; end_row] =>
      let start_row_idx := Py.int_digits start_row - 1 in
      let end_row_idx := Py.int_digits end_row - 1 in
      match ord_str start_col, ord_str end_col with
      | Some os, Some oe =>
          let start_col_idx := os - Py.ord "A" in
          let end_col_idx := oe - Py.ord "A" in
          RNum (fold_left (fun total row_idx =>
                  fold_left (fun total col_idx =>
                      let col_letter := String (Py.chr (Py.ord "A" + col_idx)) EmptyString in
                      Num.add total
                        (_get_cell_value col_letter row_idx data_context columns_context))
                    (Py.range start_col_idx (end_col_idx + 1)) total)
                (rows_in_range start_row_idx end_row_idx data_context) Num.zero)
      | _, _ => RErr error_token
      end
  | _ =>
      if has_comma args_str then
        let cell_refs := map Py.strip (split_comma (Py.chars args_str) []) in
        fold_left (fun acc cell_ref =>
            match acc with
            | RErr _ => acc
            | RNum total =>
                match Re.match_ cell_ref_re cell_ref with
                | Some [col_ref; row_ref] =>
                    RNum (Num.add total
                      (_get_cell_value col_ref (Py.int_digits row_ref - 1)
                                       data_context columns_context))
                | _ =>
                    match Num.float cell_ref with
                    | Some x => RNum (Num.add total x)
                    | None => RErr error_token
                    end
                end
            end) cell_refs (RNum Num.zero)
      else
        match Re.match_ cell_ref_re args_str with
        | Some [col_ref; row_ref] =>
            RNum (_get_cell_value col_ref (Py.int_digits row_ref - 1)
                                  data_context columns_context)
        | _ =>
            match Num.float args_str with
            | Some x => RNum x
            | None => RErr error_token
            end
        end
  end.

Definition _calculate_average (args_str : string) (current_row : Z)
    (data_context : list (gmap string cell_value)) (columns_context : list Column)
    : result :=
  let args_str := Py.strip args_str in
  match Re.match_ range_re args_str with
  | Some [start_col; start_row; end_col; end_row] =>
      match _calculate_sum args_str current_row data_context columns_context with
      | RErr e => RErr e
      | RNum sum_result =>
          match ord_str start_col, ord_str end_col with
          | Some os, Some oe =>
              let num_cols := (oe - Py.ord "A") - (os - Py.ord "A") + 1 in
              let num_rows := Py.int_digits end_row - Py.int_digits start_row + 1 in
              let count := num_cols * num_rows in
              if 0 <? count then RNum (Num.div sum_result (Num.of_int count))
              else RErr "#DIV/0!"
          | _, _ => RErr error_token
          end
      end
  | _ =>
      if has_comma args_str then
        match _calculate_sum args_str current_row data_context columns_context with
        | RErr e => RErr e
        | RNum sum_result =>
            let count := len (split_comma (Py.chars args_str) []) in
            if 0 <? count then RNum (Num.div sum_result (Num.of_int count))
            else RErr "#DIV/0!"
        end
      else
        match Re.match_ cell_ref_re args_str with
        | Some [_; _] =>
            _calculate_sum args_str current_row data_context columns_context
        | _ =>
            match Num.float args_str with
            | Some x => RNum x
            | None => RErr error_token
            end
        end
  end.

(** The values [_calculate_min] and [_calculate_max] collect. *)
Definition column_values (range_str : string)
    (data_context : list (gmap string cell_value)) (columns_context : list Column)
    : option (list Q) :=
  match Re.match_ range_re (Py.strip range_str) with
  | Some [start_col; start_row; end_col; end_row] =>
      match _find_column_by_letter start_col columns_context with
      | None => None
      | Some column =>
          Some (map (fun i => _get_numeric_value
                       (default (VInt 0) (row_at data_context i !! key column)))
                    (rows_in_range (Py.int_digits start_row - 1)
                                   (Py.int_digits end_row - 1) data_context))
      end
  | _ => None
  end.

Definition _calculate_min (range_str : string) (current_row : Z)
    (data_context : list (gmap string cell_value)) (columns_context : list Column)
    : result :=
  match column_values range_str data_context columns_context with
  | None => RErr error_token
  | Some [] => RNum Num.zero
  | Some (x :: values) =>
      RNum (fold_left (fun m y => if Qle_bool m y then m else y) values x)
  end.

Definition _calculate_max (range_str : string) (current_row : Z)
    (data_context : list (gmap string cell_value)) (columns_context : list Column)
    : result :=
  match column_values range_str data_context columns_context with
  | None => RErr error_token
  | Some [] => RNum Num.zero
  | Some (x :: values) =>
      RNum (fold_left (fun m y => if Qle_bool y m then m else y) values x)
  end.

(** Truth value of a cell *)
Definition value_truthy (v : cell_value) : bool :=
  match v with
  | VNone => false
  | VBool b => b
  | VInt n => negb (n =? 0)
  | VFloat x => negb (Num.is_zero x)
  | VStr s => negb (bool_decide (s = EmptyString))
  end.

(** [str(v)] *)
Definition value_str (v : cell_value) : string :=
  match v with
  | VNone => "None"
  | VBool b => if b then "True" else "False"
  | VInt n => Py.str_of_int n
  | VFloat x =>
      if Num.is_integer x then Py.str_of_int (Num.to_int x) +:+ ".0"
      else float_str x
  | VStr s => s
  end.

Definition _calculate_count (range_str : string) (current_row : Z)
    (data_context : list (gmap string cell_value)) (columns_context : list Column)
    : result :=
  match Re.match_ range_re (Py.strip range_str) with
  | Some [start_col; start_row; end_col; end_row] =>
      let start_row_idx := Py.int_digits start_row - 1 in
      let end_row_idx := Py.int_digits end_row - 1 in
      match _find_column_by_letter start_col columns_context with
      | None => RErr error_token
      | Some column =>
          RNum (Num.of_int
            (fold_left (fun count i =>
                let v := default (VStr "") (row_at data_context i !! key column) in
                if value_truthy v
                   && negb (bool_decide (Py.strip (value_str v) = EmptyString))
                then count + 1 else count)
              (rows_in_range start_row_idx end_row_idx data_context) 0))
      end
  | _ => RErr error_token
  end.

Definition handler : Type :=
  string -> Z -> list (gmap string cell_value) -> list Column -> result.

(** [self.functions] *)
Definition functions (name : string) : option handler :=
  if bool_decide (name = "SUM") then Some _calculate_sum
  else if bool_decide (name = "AVERAGE") then Some _calculate_average
  else if bool_decide (name = "MIN") then Some _calculate_min
  else if bool_decide (name = "MAX") then Some _calculate_max
  else if bool_decide (name = "COUNT") then Some _calculate_count
  else None.

Definition _evaluate_formula (formula : string) (current_row : Z)
    (current_col : string) (data_context : list (gmap string cell_value))
    (columns_context : list Column) : result :=
  let expression := Py.strip (Py.upper (Py.tail formula)) in
  match expression with
  | EmptyString => RErr error_token
  | _ =>
      match Re.match_ func_re expression with
      | Some [func_name; args] =>
          match functions func_name with
          | Some f => f args current_row data_context columns_context
          | None => RErr "#NAME?"
          end
      | _ =>
          match Re.match_ cell_ref_re expression with
          | Some [col_ref; row_ref] =>
              RNum (_get_cell_value col_ref (Py.int_digits row_ref - 1)
                                    data_context columns_context)
          | _ =>
              match Re.match_ arithmetic_re expression with
              | Some [left_; operator; right_] =>
                  let left_value :=
                    _parse_value (Py.strip left_) current_row
                                 data_context columns_context in
                  let right_value :=
                    _parse_value (Py.strip right_) current_row
                                 data_context columns_context in
                  _perform_arithmetic left_value operator right_value
              | _ =>
                  match Num.float expression with
                  | Some x => RNum x
                  | None => RErr error_token
                  end
              end
          end
      end
  end.

(** *** The orchestrator *)

Definition cell_key_of (row_index : Z) (column_key : string) : string :=
  Py.str_of_int row_index +:+ "-" +:+ column_key.

Definition _validate_dependencies (deps : gset CellRef)
    (data : list (gmap string cell_value)) (columns : list Column) : gset CellRef :=
  (* the column test of the source reads a bound method, which is never
     false: only the row is checked *)
  filter (fun dep => 1 <= row dep /\ row dep <= len data) deps.

Definition map_dependencies (deps : gset CellRef) (columns : list Column)
    : gset CellRef :=
  fold_left (fun mapped dep =>
      let mapped_key := _letter_to_column_key (column dep) columns in
      if truthy_key mapped_key then
        {[ mkCellRef (default EmptyString mapped_key) (row dep) ]} ∪ mapped
      else mapped)
    (elements deps) ∅.

Definition build_state : Type := Graph * gmap string string.

Definition add_cell (data : list (gmap string cell_value)) (columns : list Column)
    (row_index : Z) (row_ : gmap string cell_value)
    (st : option build_state) (column_ : Column) : option build_state :=
  st ← st;
  match default (VStr "") (row_ !! key column_) with
  | VStr cell_text =>
      if Py.startswith cell_text "=" then
        let cell_ref := mkCellRef (key column_) (row_index + 1) in
        let dependencies := extract_dependencies cell_text in
        let mapped_dependencies := map_dependencies dependencies columns in
        let valid_dependencies :=
          _validate_dependencies mapped_dependencies data columns in
        '(ok, graph) ← add_formula cell_ref cell_text valid_dependencies st.1;
        if ok : bool then Some (graph, st.2)
        else Some (graph, <[cell_key_of row_index (key column_) :=
                             "Circular dependency detected"]> st.2)
      else Some st
  | _ => Some st
  end.

(** The graph and [self.circular_dependency_errors] after the scan. *)
Definition _build_dependency_graph (data : list (gmap string cell_value))
    (columns : list Column) : option build_state :=
  fold_left (fun st '(row_index, row_) =>
      fold_left (add_cell data columns (Z.of_nat row_index) row_) columns st)
    (imap (fun i r => (i, r)) data) (Some (init, ∅)).

Record evaluation_stats : Type := mkEvalStats {
  evaluated : Z;
  errors : Z;
  cached : Z
}.

Record response : Type := mkResponse {
  success : bool;
  error : option string;
  message : string;
  cell_errors : gmap string string;
  data : list (gmap string cell_value);
  stats : option (evaluation_stats * graph_stats * list string)
}.

Record pass_state : Type := mkPass {
  pass_graph : Graph;
  new_data : list (gmap string cell_value);
  pass_stats : evaluation_stats;
  pass_errors : gmap string string
}.

(** [new_data[row_index][column_key] = v] *)
Definition write_cell (row_index : Z) (column_key : string) (v : cell_value)
    (d : list (gmap string cell_value)) : list (gmap string cell_value) :=
  alter (fun r => <[column_key := v]> r) (Z.to_nat row_index) d.

(** [repr] of a cell reference, the text of the KeyError of a failed
    node lookup *)
Definition CellRef_repr (c : CellRef) : string :=
  "CellRef(column='" +:+ column c +:+ "', row=" +:+ Py.str_of_int (row c) +:+ ")".

(** One turn of the loop over the evaluation order. *)
Definition evaluate_cell (columns : list Column) (st : pass_state)
    (cell_ref : CellRef) : pass_state :=
  let st_stats := pass_stats st in
  let row_index := row cell_ref - 1 in
  let column_key := _letter_to_column_key (column cell_ref) columns in
  match dict_get cell_ref (nodes (pass_graph st)) with
  | None =>
      (* the handler of the inner try *)
      let cell_key :=
        if truthy_key column_key
        then cell_key_of row_index (default EmptyString column_key)
        else cell_key_of row_index (column cell_ref) in
      let st :=
        if (row_index <? len (new_data st)) && truthy_key column_key then
          mkPass (mark_cell_evaluated cell_ref (RErr error_token) true
                    (Some (CellRef_repr cell_ref)) (pass_graph st))
                 (write_cell row_index (default EmptyString column_key)
                             (VStr error_token) (new_data st))
                 (pass_stats st) (pass_errors st)
        else st in
      mkPass (pass_graph st) (new_data st)
             (mkEvalStats (evaluated st_stats) (errors st_stats + 1) (cached st_stats))
             (<[cell_key := CellRef_repr cell_ref]> (pass_errors st))
  | Some node =>
      if is_evaluated node then
        mkPass (pass_graph st) (new_data st)
               (mkEvalStats (evaluated st_stats) (errors st_stats) (cached st_stats + 1))
               (pass_errors st)
      else if (row_index <? 0) || (len (new_data st) <=? row_index)
              || negb (truthy_key column_key) then
        mkPass (pass_graph st) (new_data st) st_stats
               (<[cell_key_of row_index (column cell_ref) := "Invalid cell reference"]>
                  (pass_errors st))
      else
        let column_key := default EmptyString column_key in
        let res := _evaluate_formula (formula node) row_index column_key
                                     (new_data st) columns in
        let cell_key := cell_key_of row_index column_key in
        match res with
        | RErr token =>
            mkPass (mark_cell_evaluated cell_ref res true (Some token) (pass_graph st))
                   (write_cell row_index column_key (VStr token) (new_data st))
                   (mkEvalStats (evaluated st_stats) (errors st_stats + 1)
                                (cached st_stats))
                   (<[cell_key := token]> (pass_errors st))
        | RNum x =>
            mkPass (mark_cell_evaluated cell_ref res false None (pass_graph st))
                   (write_cell row_index column_key (VStr (_format_number x))
                               (new_data st))
                   (mkEvalStats (evaluated st_stats + 1) (errors st_stats)
                                (cached st_stats))
                   (pass_errors st)
        end
  end.

(** [' -> '.join(str(cell) for cell in cycle_path)] *)
Fixpoint join_arrow (l : list string) : string :=
  match l with
  | [] => EmptyString
  | [x] => x
  | x :: l' => x +:+ " -> " +:+ join_arrow l'
  end.

Definition cycle_errors_of (cycle_path : list CellRef) (cycle_str : string)
    (data : list (gmap string cell_value)) : gmap string string :=
  fold_left (fun errs cell_ref =>
      let row_index := row cell_ref - 1 in
      if (0 <=? row_index) && (row_index <? len data) then
        <[cell_key_of row_index (column cell_ref) :=
            "Circular dependency: " +:+ cycle_str]> errs
      else errs)
    cycle_path ∅.

(** [evaluate_formulas]: the returned dictionary; [None] only if one of
    the searches of the graph ran out of fuel. *)
Definition evaluate_formulas (data : list (gmap string cell_value))
    (columns : list Column) : option response :=
  built ← _build_dependency_graph data columns;
  let '(graph, circular_dependency_errors) := built in
  check ← has_circular_dependency graph;
  let '(has_cycles, cycle_path) := check in
  if has_cycles : bool then
    let cycle_str :=
      match cycle_path with
      | Some (_ :: _ as path) => join_arrow (map CellRef_str path)
      | _ => "Unknown"
      end in
    Some (mkResponse false
            (Some ("Circular dependency detected: " +:+ cycle_str))
            "Circular dependencies must be resolved before evaluation"
            (cycle_errors_of (default [] cycle_path) cycle_str data)
            data None)
  else
    let evaluation_order := get_evaluation_order graph in
    let final :=
      fold_left (evaluate_cell columns) evaluation_order
                (mkPass graph data (mkEvalStats 0 0 0) ∅) in
    graph_stats ← get_graph_stats (pass_graph final);
    (* {**circular_dependency_errors, **cell_errors}: the right one wins *)
    let all_cell_errors := pass_errors final ∪ circular_dependency_errors in
    Some (mkResponse true None
            ("Evaluated " +:+ Py.str_of_int (evaluated (pass_stats final))
               +:+ " formulas successfully")
            all_cell_errors (new_data final)
            (Some (pass_stats final, graph_stats, map CellRef_str evaluation_order))).

End Engine.

(** A rendering of the numbers that are not integers, for the worked
    examples below (whose numbers are all integers). *)
Definition fraction_str (x : Q) : string :=
  pretty (Qnum x) +:+ "/" +:+ pretty (Zpos (Qden x)).

(** ** The copies the getters return

    [get_evaluation_order] and [get_dirty_cells] return
    [self._evaluation_order.copy()] and [self._dirty_cells.copy()].  What a
    caller can do to the returned object only shows in a model with
    object identity: a store of list and set objects, in which the graph
    holds the references of its two containers. *)

Module Store.

Definition ref : Type := positive.

Inductive object : Type :=
  | OList (l : list CellRef)
  | OSet (s : gset CellRef).

Abbreviation store := (gmap ref object).

(** The two container attributes of a [DependencyGraph] instance. *)
Record GraphObj : Type := mkGraphObj {
  evaluation_order_ref : ref;
  dirty_cells_ref : ref
}.

(** [obj.copy()]: a new object with the same contents. *)
Definition copy (r : ref) (h : store) : option (ref * store) :=
  o ← h !! r;
  let r' := fresh (dom h) in
  Some (r', <[r' := o]> h).

Definition get_evaluation_order (self : GraphObj) (h : store) : option (ref * store) :=
  copy (evaluation_order_ref self) h.

Definition get_dirty_cells (self : GraphObj) (h : store) : option (ref * store) :=
  copy (dirty_cells_ref self) h.

(** Any in-place mutation of the object behind a reference:
    [append], [clear], [add], [discard], ... *)
Definition mutate (f : object -> object) (r : ref) (h : store) : store :=
  alter f r h.

(** The graph of the pure embedding that a stored instance stands for. *)
Definition holds (self : GraphObj) (h : store) (g : Graph) : Prop :=
  h !! evaluation_order_ref self = Some (OList (_evaluation_order g)) /\
  h !! dirty_cells_ref self = Some (OSet (_dirty_cells g)).

End Store.

(** ** Syntax check of a formula (formula_parser.py, [validate_formula_syntax]) *)

Module Validation.

(** The loop over the characters, from the count it has reached; [None]
    is the return from inside the loop, on a closing parenthesis that
    nothing opened. *)
Fixpoint paren_scan (l : list ascii) (paren_count : Z) : option Z :=
  match l with
  | [] => Some paren_count
  | char :: l' =>
      if bool_decide (char = "("%char) then paren_scan l' (paren_count + 1)
      else if bool_decide (char = ")"%char) then
        let paren_count := paren_count - 1 in
        if paren_count <? 0 then None else paren_scan l' paren_count
      else paren_scan l' paren_count
  end.

Definition validate_formula_syntax (formula : string) : bool * option string :=
  let formula := if Py.startswith formula "=" then Py.tail formula else formula in
  if bool_decide (Py.strip formula = EmptyString) then (false, Some "Empty formula"%string)
  else
    match paren_scan (Py.chars formula) 0 with
    | None => (false, Some "Unmatched closing parenthesis"%string)
    | Some paren_count =>
        if 0 <? paren_count then (false, Some "Unmatched opening parenthesis"%string)
        else (true, None)
    end.

(** The body of the answer of the route [/api/formulas/validate]
    (app.py, [validate_formula]) with the enhanced engine in use, for a
    request whose JSON body has no [formula] or has a string there. *)
Record validation : Type := mkValidation {
  status : Z;
  isValid : bool;
  error : option string;
  dependencies : option (list string)
}.

Definition validate_formula (formula : option string) : validation :=
  match formula with
  | None => mkValidation 400 false (Some "No formula provided"%string) None
  | Some formula =>
      if bool_decide (Py.strip formula = EmptyString) then
        mkValidation 200 false (Some "Empty formula"%string) None
      else if negb (Py.startswith formula "=") then
        mkValidation 200 false (Some "Formula must start with ="%string) None
      else
        let '(is_valid, error_message) := validate_formula_syntax formula in
        if negb is_valid then mkValidation 200 false error_message None
        else
          mkValidation 200 true None
            (Some (map CellRef_str (elements (extract_dependencies formula))))
  end.

End Validation.

(** ** Vocabulary of the proofs *)

(** The fold of [_column_to_number]. *)
Definition column_step (result : Z) (char : ascii) : Z :=
  result * 26 + (Py.ord char - Py.ord "A" + 1).

(** A column name: capital letters only. *)
Definition is_column_name (col : string) : Prop :=
  Forall (fun c => Py.is_upper c = true) (Py.chars col).

(** A row number as it is written: decimal digits only. *)
Definition is_digits (s : string) : Prop :=
  Forall (fun c => Py.is_digit c = true) (Py.chars s).

(** The text of a formula that sums the range between two corners, and
    the text of the range in it. *)
Definition sum_formula (c1 r1 c2 r2 : string) : string :=
  "=SUM(" +:+ c1 +:+ r1 +:+ ":" +:+ c2 +:+ r2 +:+ ")".

Definition range_text (c1 r1 c2 r2 : string) : list ascii :=
  Py.chars c1 ++ Py.chars r1 ++ ":"%char :: Py.chars c2 ++ Py.chars r2.

(** The cells a search has finished with: their edges stay among them
    and none of them is on a cycle. *)
Definition settled (adj : gmap CellRef (gset CellRef)) (B : gset CellRef) : Prop :=
  (forall x y, x ∈ B -> edge adj x y -> y ∈ B) /\
  (forall x, x ∈ B -> ~ tc (edge adj) x x).

(** What a call of the search on [node] guarantees: a cycle, or the
    recursion stack as it was and everything visited settled. *)
Definition dfs_post (adj : gmap CellRef (gset CellRef)) (node : CellRef)
    (st : dfs_state) (r : option (list CellRef)) (st' : dfs_state) : Prop :=
  match r with
  | None =>
      st'.2 = st.2 /\ st.1 ⊆ st'.1 /\ node ∈ st'.1 /\ settled adj (st'.1 ∖ st'.2)
  | Some c => cycle_path (edge adj) c
  end.

(** The answer of [has_cycle_dfs] for a result of [dfs]. *)
Definition answer (r : option (list CellRef) * dfs_state) : bool * dfs_state :=
  (truthy r.1, r.2).

(** The dependencies of the node of a cell, if it has one. *)
Definition deps_of (g : Graph) (b : CellRef) : option (gset CellRef) :=
  dependencies <$> dict_get b (nodes g).

(** What is left to mark dirty: the entries of the node table not yet
    dirty, each with its dependents. *)
Definition dirty_weight (ns : list (CellRef * FormulaNode)) (dirty : gset CellRef) : nat :=
  sum_list (map (fun kv => if decide (kv.1 ∈ dirty) then 0%nat
                           else S (size (dependents kv.2))) ns).

(** The degrees Kahn's loop has still to bring down. *)
Definition degree_sum (keys : list CellRef) (deg : gmap CellRef Z) : nat :=
  sum_list (map (fun c => Z.to_nat (deg_get deg c)) keys).

(** Every forward edge is backed by the dependency set of its target. *)
Definition edges_from_dependencies (g : Graph) : Prop :=
  forall a b, edge (adjacency_list g) a b -> exists s, deps_of g b = Some s /\ a ∈ s.

Definition acyclic (g : Graph) : Prop :=
  forall c, ~ tc (edge (adjacency_list g)) c c.

Definition well_formed (g : Graph) : Prop := edges_from_dependencies g /\ acyclic g.

(** The formula dependencies of a cell that are not yet in the order. *)
Definition pending (g : Graph) (done : list CellRef) (c : CellRef) : list CellRef :=
  filter (fun d => d ∈ dict_keys (nodes g) /\ d ∉ done)
         (elements (default ∅ (deps_of g c))).

Definition waiting (g : Graph) (done : list CellRef) (c : CellRef) : Z :=
  Z.of_nat (length (pending g done c)).

(** The forward edges are the dependencies of the nodes, read backwards. *)
Definition edges_match_dependencies (g : Graph) : Prop :=
  forall a b, edge (adjacency_list g) a b <-> exists s, deps_of g b = Some s /\ a ∈ s.

(** No cell of the order comes before a cell it reads. *)
Definition topological (g : Graph) (order : list CellRef) : Prop :=
  forall i j a b,
    order !! i = Some a -> order !! j = Some b ->
    edge (adjacency_list g) a b -> (i < j)%nat.

(** The invariant of the [while queue] loop. *)
Record kahn_inv (g : Graph) (deg : gmap CellRef Z) (queue result : list CellRef)
    : Prop := {
  ki_nodup : NoDup (result ++ queue);
  ki_keys : forall c, c ∈ result ++ queue -> c ∈ dict_keys (nodes g);
  ki_deg : forall c, c ∈ dict_keys (nodes g) -> deg_get deg c = waiting g result c;
  ki_zero : forall c, c ∈ dict_keys (nodes g) ->
                      (c ∈ result ++ queue <-> waiting g result c = 0);
  ki_topo : topological g result
}.

(** The cells of a list of formulas, and the formula-to-formula
    dependencies it stands for: [a] is one of its cells and the formula
    of [b] reads it. *)
Definition cells (fs : list (CellRef * string * gset CellRef)) : list CellRef :=
  map (fun x => x.1.1) fs.

Definition reads (fs : list (CellRef * string * gset CellRef)) (a b : CellRef) : Prop :=
  a ∈ cells fs /\ exists f d, (b, f, d) ∈ fs /\ a ∈ d.

(** The graph after the formulas [done] were added, each to a cell of
    its own. *)
Record built (g : Graph) (done : list (CellRef * string * gset CellRef)) : Prop := {
  b_keys : dict_keys (nodes g) = cells done;
  b_deps : forall c f d, (c, f, d) ∈ done -> deps_of g c = Some d;
  b_match : edges_match_dependencies g;
  b_acyclic : acyclic g;
  b_order : _evaluation_order g ≡ₚ dict_keys (nodes g);
  b_topological : topological g (_evaluation_order g)
}.

(** The scan of a grid has produced a graph, and a reachable one. *)
Definition built_reachable (st : option build_state) : Prop :=
  exists g errs, st = Some (g, errs) /\ reachable g.

(** ** Worked examples *)

(** A1 reads A2 and is added before it. *)
Definition grid_A1_reads_A2 : list (CellRef * string * gset CellRef) :=
  [(mkCellRef "A" 1, "=A2", {[mkCellRef "A" 2]}); (mkCellRef "A" 2, "=5", ∅)].

Definition columns_ABCD : list Column :=
  [mkColumn "A" "A"; mkColumn "B" "B"; mkColumn "C" "C"; mkColumn "D" "D"].

Definition row_1_2_3 : gmap string cell_value :=
  <["A" := VStr "1"]> (<["B" := VStr "2"]> (<["C" := VStr "3"]>
    (<["D" := VStr "=A1+B1+C1"]> ∅))).

Definition row_zero : gmap string cell_value := <["A" := VInt 0]> ∅.


(** A state with a cycle, as no sequence of [add_formula] builds it. *)
Definition graph_mutual_cycle : Graph :=
  mkGraph
    [(mkCellRef "A" 1, mkNode (mkCellRef "A" 1) "=A2" {[mkCellRef "A" 2]} {[mkCellRef "A" 2]}
                         None false false None);
     (mkCellRef "A" 2, mkNode (mkCellRef "A" 2) "=A1" {[mkCellRef "A" 1]} {[mkCellRef "A" 1]}
                         None false false None)]
    (<[mkCellRef "A" 1 := {[mkCellRef "A" 2]}]> (<[mkCellRef "A" 2 := {[mkCellRef "A" 1]}]> ∅))
    (<[mkCellRef "A" 1 := {[mkCellRef "A" 2]}]> (<[mkCellRef "A" 2 := {[mkCellRef "A" 1]}]> ∅))
    [] ∅.

(** A stored instance of the empty graph. *)
Definition store_of_init : Store.store :=
  <[1%positive := Store.OList []]> (<[2%positive := Store.OSet ∅]> ∅).

Definition graph_object : Store.GraphObj := Store.mkGraphObj 1%positive 2%positive.

(** ** Vocabulary of the further properties *)

(** Parentheses that match: every opening one is closed later, every
    closing one was opened before. *)
Inductive balanced : list ascii -> Prop :=
  | balanced_nil : balanced []
  | balanced_other c l :
      c <> "("%char -> c <> ")"%char -> balanced l -> balanced (c :: l)
  | balanced_nest l1 l2 :
      balanced l1 -> balanced l2 -> balanced ("("%char :: l1 ++ ")"%char :: l2).

(** A text that lacks [n] opening parentheses in front. *)
Fixpoint closes (n : nat) (l : list ascii) : Prop :=
  match n with
  | O => balanced l
  | S n' => exists l1 l2, l = l1 ++ ")"%char :: l2 /\ balanced l1 /\ closes n' l2
  end.

(** White space only. *)
Definition blank (s : string) : Prop :=
  Forall (fun c => Py.is_space c = true) (Py.chars s).

(** [b] is among the dependents of the node of [a]: the edges
    [_mark_dirty] follows. *)
Definition dependent_of (ns : list (CellRef * FormulaNode)) (a b : CellRef) : Prop :=
  exists node, dict_get a ns = Some node /\ b ∈ dependents node.

(** A cell of the grid holds a formula: a string that starts with [=]. *)
Definition is_formula_value (v : option cell_value) : Prop :=
  exists text, v = Some (VStr text) /\ Py.startswith text "=" = true.

(** The cell reference names a cell of the grid that holds a formula. *)
Definition formula_cell (grid : list (gmap string cell_value)) (c : CellRef) : Prop :=
  1 <= row c /\
  exists row_, grid !! Z.to_nat (row c - 1) = Some row_ /\
               is_formula_value (row_ !! column c).

(** The nodes and the evaluation order of a graph name formula cells of
    the grid only. *)
Definition names_formula_cells (grid : list (gmap string cell_value)) (g : Graph) : Prop :=
  (forall c, c ∈ dict_keys (nodes g) -> formula_cell grid c) /\
  (forall c, c ∈ _evaluation_order g -> formula_cell grid c).

(** The grid of a pass differs from the grid of the request in formula
    cells only. *)
Definition same_outside_formulas (grid d : list (gmap string cell_value)) : Prop :=
  length d = length grid /\
  forall i row_, grid !! i = Some row_ ->
    exists row', d !! i = Some row' /\
      forall k, ~ is_formula_value (row_ !! k) -> row' !! k = row_ !! k.


(** A character between the words of a formula: no word character, and
    not the colon of a range. *)
Definition sep_char (c : ascii) : Prop :=
  Py.is_word c = false /\ c <> ":"%char.

(** The words of a formula without ranges: a cell reference, a name in
    capital letters, a number. *)
Inductive token : Type :=
  | TRef (col row_ : string)
  | TName (name : string)
  | TNumber (digits : string).

Definition token_chars (t : token) : list ascii :=
  match t with
  | TRef col row_ => Py.chars col ++ Py.chars row_
  | TName name => Py.chars name
  | TNumber digits => Py.chars digits
  end.

Definition token_ok (t : token) : Prop :=
  match t with
  | TRef col row_ =>
      is_column_name col /\ col <> EmptyString /\ is_digits row_ /\ row_ <> EmptyString
  | TName name => is_column_name name /\ name <> EmptyString
  | TNumber digits => is_digits digits /\ digits <> EmptyString
  end.

Definition token_cells (t : token) : list CellRef :=
  match t with
  | TRef col row_ => [mkCellRef col (Py.int_digits row_)]
  | _ => []
  end.

(** Words, each with the separators that follow it. *)
Fixpoint text_of (ts : list (token * list ascii)) : list ascii :=
  match ts with
  | [] => []
  | (t, sep) :: ts' => token_chars t ++ sep ++ text_of ts'
  end.

(** Every word is well formed and is kept apart from the next one by at
    least one separator. *)
Fixpoint words_ok (ts : list (token * list ascii)) : Prop :=
  match ts with
  | [] => True
  | (t, sep) :: ts' =>
      token_ok t /\ Forall sep_char sep /\ (sep = [] -> ts' = []) /\ words_ok ts'
  end.

(** The groups the pattern of a cell reference captures at a word. *)
Definition token_groups (t : token) : list (list string) :=
  match t with
  | TRef col row_ => [[col; row_]]
  | _ => []
  end.
(** * Properties *)

(** ** Column letters *)

Section Columns.

Lemma str_chars (s : string) : Py.str (Py.chars s) = s.
Proof. apply string_of_list_ascii_of_string. Qed.

Lemma chars_str (l : list ascii) : Py.chars (Py.str l) = l.
Proof. apply list_ascii_of_string_of_list_ascii. Qed.

Lemma is_upper_range (c : ascii) :
  Py.is_upper c = true -> 65 <= Py.ord c <= 90.
Proof. unfold Py.is_upper, Py.between. lia. Qed.

Lemma chr_ord (c : ascii) : Py.chr (Py.ord c) = c.
Proof.
  unfold Py.chr, Py.ord. rewrite N2Z.id. apply ascii_N_embedding.
Qed.

Lemma upper_char_upper (c : ascii) :
  Py.is_upper c = true -> Py.upper_char c = c.
Proof.
  intros H%is_upper_range. unfold Py.upper_char, Py.is_lower, Py.between.
  destruct (97 <=? Py.ord c) eqn:E; [lia | done].
Qed.

Lemma upper_column_name (col : string) :
  is_column_name col -> Py.upper col = col.
Proof.
  unfold is_column_name, Py.upper. intros H.
  rewrite <- (str_chars col) at 2. f_equal.
  induction H as [|c l Hc _ IH]; [done|].
  cbn. by rewrite upper_char_upper, IH.
Qed.

Lemma column_step_nonneg (l : list ascii) (acc : Z) :
  Forall (fun c => Py.is_upper c = true) l -> 0 <= acc ->
  0 <= fold_left column_step l acc.
Proof.
  intros H. revert acc. induction H as [|c l Hc%is_upper_range _ IH]; intros acc Hacc.
  - done.
  - cbn. apply IH. unfold column_step. change (Py.ord "A") with 65. lia.
Qed.

(** The loop reads back, last letter first, what the fold has read. *)
Lemma number_to_column_loop_fold (l : list ascii) :
  Forall (fun c => Py.is_upper c = true) l ->
  forall (fuel : nat) (result : list ascii),
    (Z.to_nat (fold_left column_step l 0%Z) <= fuel)%nat ->
    number_to_column_loop fuel (fold_left column_step l 0) result = l ++ result.
Proof.
  induction l as [|c l IH] using rev_ind; intros Hl fuel result Hfuel.
  - cbn. by destruct fuel.
  - apply Forall_app in Hl as [Hl Hc]. rewrite Forall_singleton in Hc.
    apply is_upper_range in Hc.
    pose proof (column_step_nonneg l 0 Hl ltac:(lia)) as Hn.
    rewrite fold_left_app in *. cbn [fold_left] in *.
    set (n := fold_left column_step l 0) in *.
    unfold column_step at 1. unfold column_step in Hfuel at 1.
    change (Py.ord "A") with 65 in *.
    destruct fuel as [|fuel]; [lia|]. cbn [number_to_column_loop].
    destruct (0 <? n * 26 + (Py.ord c - 65 + 1)) eqn:E; [|lia].
    replace (n * 26 + (Py.ord c - 65 + 1) - 1) with ((Py.ord c - 65) + n * 26) by lia.
    rewrite Z.div_add, Z.mod_add by lia.
    rewrite Z.div_small, Z.mod_small by lia.
    change (Py.ord "A") with 65.
    replace (65 + (Py.ord c - 65)) with (Py.ord c) by lia.
    rewrite chr_ord, Z.add_0_l, IH by (done || lia).
    by rewrite <- app_assoc.
Qed.

(** C9. Converting a column name to its number and back gives the name
    again, for every string of capital letters (A, Z, AA, AZ, BA, ...). *)
Theorem column_round_trip (col : string) :
  is_column_name col ->
  _number_to_column (_column_to_number col) = col.
Proof.
  intros H. unfold _number_to_column, _column_to_number.
  rewrite upper_column_name by done.
  change (fold_left _ (Py.chars col) 0) with (fold_left column_step (Py.chars col) 0).
  rewrite number_to_column_loop_fold by done.
  by rewrite app_nil_r, str_chars.
Qed.

Lemma column_round_trip_witness :
  is_column_name "AZ" /\ _number_to_column (_column_to_number "AZ") = "AZ".
Proof.
  assert (H : is_column_name "AZ") by (repeat constructor).
  split; [exact H | exact (column_round_trip "AZ" H)].
Defined.

(** The five names of the specification, with their numbers. *)
Lemma column_numbers :
  map _column_to_number ["A"; "Z"; "AA"; "AZ"; "BA"] = [1; 26; 27; 52; 53] /\
  map _number_to_column [1; 26; 27; 52; 53] = ["A"; "Z"; "AA"; "AZ"; "BA"].
Proof. split; reflexivity. Qed.

End Columns.

(** ** Range expansion *)

Section Ranges.

Lemma expand_range_symmetric (start_col : string) (start_row : Z)
    (end_col : string) (end_row : Z) :
  _expand_range start_col start_row end_col end_row
  = _expand_range end_col end_row start_col start_row.
Proof.
  unfold _expand_range.
  destruct (Z.ltb_spec (_column_to_number end_col) (_column_to_number start_col));
    destruct (Z.ltb_spec (_column_to_number start_col) (_column_to_number end_col));
    try lia;
    destruct (Z.ltb_spec end_row start_row);
    destruct (Z.ltb_spec start_row end_row);
    try lia; try reflexivity.
  all: try replace end_row with start_row by lia.
  all: try replace (_column_to_number end_col) with (_column_to_number start_col) by lia.
  all: reflexivity.
Qed.

End Ranges.

(** ** The getters return copies *)

Section Copies.

Import Store.

(** A copy is a new object with the contents of the old one, and
    whatever is done to it, every object of the store before the copy is
    what it was. *)
Lemma copy_spec (r : ref) (h : store) (o : object) (f : object -> object) :
  h !! r = Some o ->
  exists r' h',
    copy r h = Some (r', h') /\ h' !! r' = Some o /\
    forall q, is_Some (h !! q) -> r' <> q /\ mutate f r' h' !! q = h !! q.
Proof.
  intros Hr. exists (fresh (dom h)), (<[fresh (dom h) := o]> h).
  unfold copy. rewrite Hr. split; [done|].
  split; [by rewrite lookup_insert_eq|].
  intros q Hq.
  assert (fresh (dom h) <> q) as Hne.
  { intros E. pose proof (is_fresh (dom h)) as Hf. rewrite E in Hf.
    by apply Hf, elem_of_dom. }
  split; [done|]. unfold mutate.
  by rewrite lookup_alter_ne, lookup_insert_ne.
Qed.

(** C10. [get_evaluation_order] and [get_dirty_cells] return copies: the
    returned object holds the graph's value, it is another object than
    the graph's own, and after any mutation of it the graph holds the
    same evaluation order and dirty set, so that both getters return the
    same values again. *)
Theorem getters_return_copies (self : GraphObj) (h : store) (g : Graph)
    (f : object -> object) :
  holds self h g ->
  (exists r h',
      Store.get_evaluation_order self h = Some (r, h') /\
      h' !! r = Some (OList (DependencyGraph.get_evaluation_order g)) /\
      r <> evaluation_order_ref self /\
      holds self (mutate f r h') g /\
      exists r2 h2,
        Store.get_evaluation_order self (mutate f r h') = Some (r2, h2) /\
        h2 !! r2 = Some (OList (DependencyGraph.get_evaluation_order g))) /\
  (exists r h',
      Store.get_dirty_cells self h = Some (r, h') /\
      h' !! r = Some (OSet (DependencyGraph.get_dirty_cells g)) /\
      r <> dirty_cells_ref self /\
      holds self (mutate f r h') g /\
      exists r2 h2,
        Store.get_dirty_cells self (mutate f r h') = Some (r2, h2) /\
        h2 !! r2 = Some (OSet (DependencyGraph.get_dirty_cells g))).
Proof.
  intros [Ho Hd]. split.
  - destruct (copy_spec _ _ _ f Ho) as (r & h' & Hc & Hr & Hframe).
    exists r, h'. split; [exact Hc|]. split; [exact Hr|].
    destruct (Hframe _ (mk_is_Some _ _ Ho)) as [Hne Ho'].
    destruct (Hframe _ (mk_is_Some _ _ Hd)) as [_ Hd'].
    rewrite Ho in Ho'. rewrite Hd in Hd'.
    split; [exact Hne|]. split; [by split|].
    destruct (copy_spec _ _ _ f Ho') as (r2 & h2 & Hc2 & Hr2 & _).
    by exists r2, h2.
  - destruct (copy_spec _ _ _ f Hd) as (r & h' & Hc & Hr & Hframe).
    exists r, h'. split; [exact Hc|]. split; [exact Hr|].
    destruct (Hframe _ (mk_is_Some _ _ Ho)) as [_ Ho'].
    destruct (Hframe _ (mk_is_Some _ _ Hd)) as [Hne Hd'].
    rewrite Ho in Ho'. rewrite Hd in Hd'.
    split; [exact Hne|]. split; [by split|].
    destruct (copy_spec _ _ _ f Hd') as (r2 & h2 & Hc2 & Hr2 & _).
    by exists r2, h2.
Qed.

Lemma getters_return_copies_witness :
  Store.holds graph_object store_of_init init /\
  (exists r h',
      Store.get_evaluation_order graph_object store_of_init = Some (r, h') /\
      r <> 1%positive /\
      Store.holds graph_object
        (Store.mutate (fun _ => Store.OList [mkCellRef "A" 1]) r h') init) /\
  (exists r h',
      Store.get_dirty_cells graph_object store_of_init = Some (r, h') /\
      r <> 2%positive /\
      Store.holds graph_object
        (Store.mutate (fun _ => Store.OList [mkCellRef "A" 1]) r h') init).
Proof.
  assert (Store.holds graph_object store_of_init init) as Hh.
  { split; reflexivity. }
  split; [exact Hh|].
  destruct (getters_return_copies graph_object store_of_init init
              (fun _ => Store.OList [mkCellRef "A" 1]) Hh)
    as [(r & h' & Hc & _ & Hne & Hk & _) (r' & h'' & Hc' & _ & Hne' & Hk' & _)].
  split; [by exists r, h'|by exists r', h''].
Defined.

End Copies.

(** ** Ranges in formulas *)

Section Matching.
Import Re.

(** A greedy repetition takes the whole run of its class when what
    follows the pattern matches there. *)
Lemma rep_greedy_all {R : Type} (p : ascii -> bool) (run rest : list ascii)
    (k : pos -> option R) (r : R) :
  Forall (fun c => p c = true) run ->
  (match rest with c :: _ => p c = false | [] => True end) ->
  forall (least : nat) (pre : list ascii),
    (least <= length run)%nat ->
    k (rev run ++ pre, rest) = Some r ->
    rep_greedy p least pre (run ++ rest) k = Some r.
Proof.
  intros Hrun Hrest. induction Hrun as [|a run Ha _ IH]; intros least pre Hleast Hk.
  - cbn in *. assert (least = 0%nat) as -> by lia.
    destruct rest as [|c rest]; cbn; [done|]. by rewrite Hrest.
  - cbn [app rep_greedy]. rewrite Ha. rewrite (IH (Nat.pred least) (a :: pre)); [done| |].
    + cbn in Hleast. lia.
    + cbn [rev] in Hk. by rewrite <- app_assoc in Hk.
Qed.

Lemma captured_run (pre run rest pre' : list ascii) :
  captured (pre, run ++ rest) (pre', rest) = Py.str run.
Proof.
  unfold captured. cbn [fst snd]. f_equal. rewrite length_app.
  replace (length run + length rest - length rest)%nat with (length run) by lia.
  by rewrite take_app_length.
Qed.

(** A group of letters or digits in the middle of a pattern. *)
Lemma run_group_plus {R : Type} (p : ascii -> bool) (run_ rest pre : list ascii)
    (caps : list string) (k : pos -> list string -> option R) (r : R) :
  Forall (fun c => p c = true) run_ -> run_ <> [] ->
  (match rest with c :: _ => p c = false | [] => True end) ->
  k (rev run_ ++ pre, rest) (caps ++ [Py.str run_]) = Some r ->
  run (Grp (plus p)) (pre, run_ ++ rest) caps k = Some r.
Proof.
  intros Hrun Hne Hrest Hk. cbn [run plus fst snd].
  apply rep_greedy_all; try done.
  - destruct run_; [done|cbn; lia].
  - by rewrite captured_run.
Qed.

Lemma run_Cat {R : Type} (ra rb : regex) (p : pos) (caps : list string)
    (k : pos -> list string -> option R) :
  run (Cat ra rb) p caps k = run ra p caps (fun p' caps' => run rb p' caps' k).
Proof. reflexivity. Qed.

Lemma run_WordB {R : Type} (p : pos) (caps : list string)
    (k : pos -> list string -> option R) :
  run WordB p caps k = if xorb (word_before p) (word_after p) then k p caps else None.
Proof. reflexivity. Qed.

Lemma run_lit {R : Type} (c : ascii) (pre suf : list ascii) (caps : list string)
    (k : pos -> list string -> option R) :
  run (lit c) (pre, c :: suf) caps k = k (c :: pre, suf) caps.
Proof. cbn. by rewrite bool_decide_eq_true_2. Qed.

Lemma scan_skip {A : Type} (r : regex) (emit : list string -> list A)
    (keep : ascii -> list A) (l : list ascii) :
  forall pre rest,
    scan r emit keep (length l) pre (l ++ rest) = scan r emit keep 0 (rev l ++ pre) rest.
Proof.
  induction l as [|c l IH]; intros pre rest; [done|].
  cbn [length app scan]. rewrite IH. cbn [rev]. by rewrite <- app_assoc.
Qed.
End Matching.

Section RangeFormulas.
Import Re.
Context (c1 r1 c2 r2 : string).
Hypothesis Hc1 : is_column_name c1.
Hypothesis Hr1 : is_digits r1.
Hypothesis Hc2 : is_column_name c2.
Hypothesis Hr2 : is_digits r2.
Hypothesis Hc1' : c1 <> EmptyString.
Hypothesis Hr1' : r1 <> EmptyString.
Hypothesis Hc2' : c2 <> EmptyString.
Hypothesis Hr2' : r2 <> EmptyString.

Lemma chars_nonempty (s : string) : s <> EmptyString -> Py.chars s <> [].
Proof. by destruct s. Qed.

Lemma digit_not_upper c : Py.is_digit c = true -> Py.is_upper c = false.
Proof. unfold Py.is_digit, Py.is_upper, Py.between. lia. Qed.

Lemma digit_is_word c : Py.is_digit c = true -> Py.is_word c = true.
Proof. unfold Py.is_word. intros ->. by rewrite !orb_true_r. Qed.

Lemma upper_is_word c : Py.is_upper c = true -> Py.is_word c = true.
Proof. unfold Py.is_word. by intros ->. Qed.

Lemma not_word_not_digit c : Py.is_word c = false -> Py.is_digit c = false.
Proof.
  intros Hw. destruct (Py.is_digit c) eqn:E; [|done]. by rewrite digit_is_word in Hw.
Qed.

(** The pattern of a range matches the text of the range, whatever
    follows it, if it is no word character; the groups are the two
    corners. *)
Lemma match_range_text (pre rest : list ascii) :
  word_before (pre, range_text c1 r1 c2 r2 ++ rest) = false ->
  (match rest with c :: _ => Py.is_word c = false | [] => True end) ->
  match_at range_pattern (pre, range_text c1 r1 c2 r2 ++ rest)
  = Some ((rev (range_text c1 r1 c2 r2) ++ pre, rest), [c1; r1; c2; r2]).
Proof.
  intros Hpre Hrest. unfold match_at, range_pattern. cbn [seq].
  pose proof (chars_nonempty c1 Hc1') as Hn1. pose proof (chars_nonempty r1 Hr1') as Hn2.
  pose proof (chars_nonempty c2 Hc2') as Hn3. pose proof (chars_nonempty r2 Hr2') as Hn4.
  unfold is_column_name in Hc1, Hc2. unfold is_digits in Hr1, Hr2.
  rewrite run_Cat, run_WordB.
  assert (word_after (pre, range_text c1 r1 c2 r2 ++ rest) = true) as ->.
  { unfold word_after, range_text. cbn [snd]. destruct (Py.chars c1) as [|a l]; [done|].
    cbn. apply upper_is_word. by inversion Hc1. }
  rewrite Hpre. cbn [xorb].
  unfold range_text. rewrite <- !app_assoc.
  rewrite run_Cat. apply run_group_plus; try done.
  { destruct (Py.chars r1) as [|a l]; [done|]. cbn. apply digit_not_upper. by inversion Hr1. }
  rewrite run_Cat. rewrite <- app_comm_cons. apply run_group_plus; try done.
  rewrite run_Cat, run_lit. rewrite <- app_assoc.
  rewrite run_Cat. apply run_group_plus; try done.
  { destruct (Py.chars r2) as [|a l]; [done|]. cbn. apply digit_not_upper. by inversion Hr2. }
  rewrite run_Cat. apply run_group_plus; try done.
  { destruct rest as [|c rest]; [done|]. by apply not_word_not_digit. }
  rewrite run_WordB.
  assert (word_before (rev (Py.chars r2) ++ rev (Py.chars c2) ++ ":"%char
                         :: rev (Py.chars r1) ++ rev (Py.chars c1) ++ pre, rest) = true)
    as ->.
  { unfold word_before. cbn [fst].
    destruct (Py.chars r2) as [|a l _] using rev_ind; [done|].
    rewrite rev_app_distr. cbn. apply digit_is_word.
    apply Forall_app in Hr2 as [_ Hr2]. by inversion Hr2. }
  assert (word_after (rev (Py.chars r2) ++ rev (Py.chars c2) ++ ":"%char
                        :: rev (Py.chars r1) ++ rev (Py.chars c1) ++ pre, rest) = false)
    as ->.
  { unfold word_after. cbn [snd]. by destruct rest. }
  cbn [xorb app]. rewrite !str_chars. do 3 f_equal.
  rewrite !rev_app_distr. cbn [rev]. rewrite !rev_app_distr.
  by rewrite <- !app_assoc.
Qed.
End RangeFormulas.

Section Scanning.
Import Re.

Lemma scan_no_match {A : Type} (r : regex) (emit : list string -> list A)
    (keep : ascii -> list A) (pre : list ascii) (c : ascii) (suf : list ascii) :
  match_at r (pre, c :: suf) = None ->
  scan r emit keep 0 pre (c :: suf) = keep c ++ scan r emit keep 0 (c :: pre) suf.
Proof. intros H. cbn [scan]. by rewrite H. Qed.

Lemma scan_match {A : Type} (r : regex) (emit : list string -> list A)
    (keep : ascii -> list A) (pre : list ascii) (c : ascii) (suf : list ascii)
    (p' : pos) (caps : list string) (n : nat) :
  match_at r (pre, c :: suf) = Some (p', caps) ->
  (length (c :: suf) - length p'.2)%nat = S n ->
  scan r emit keep 0 pre (c :: suf) = emit caps ++ scan r emit keep n (c :: pre) suf.
Proof. intros H Hn. cbn [scan]. rewrite H. by rewrite Hn. Qed.

Lemma chars_app (a b : string) : Py.chars (a +:+ b) = Py.chars a ++ Py.chars b.
Proof.
  unfold Py.chars. induction a as [|c a IH]; [done|]. simpl. f_equal. exact IH.
Qed.

Lemma upper_char_digit (c : ascii) : Py.is_digit c = true -> Py.upper_char c = c.
Proof.
  unfold Py.upper_char, Py.is_digit, Py.is_lower, Py.between. intros H.
  destruct (97 <=? Py.ord c) eqn:E; [lia|done].
Qed.

Lemma map_upper_char_id (p : ascii -> bool) (l : list ascii) :
  (forall c, p c = true -> Py.upper_char c = c) ->
  Forall (fun c => p c = true) l -> map Py.upper_char l = l.
Proof.
  intros Hp Hl. induction Hl as [|c l Hc _ IH]; [done|].
  cbn. by rewrite Hp, IH.
Qed.
End Scanning.

Section SumFormula.
Import Re.
Context (c1 r1 c2 r2 : string).
Hypothesis Hc1 : is_column_name c1.
Hypothesis Hr1 : is_digits r1.
Hypothesis Hc2 : is_column_name c2.
Hypothesis Hr2 : is_digits r2.
Hypothesis Hc1' : c1 <> EmptyString.
Hypothesis Hr1' : r1 <> EmptyString.
Hypothesis Hc2' : c2 <> EmptyString.
Hypothesis Hr2' : r2 <> EmptyString.

Notation X := (range_text c1 r1 c2 r2).

Lemma sum_formula_chars :
  Py.chars (Py.upper (Py.tail (sum_formula c1 r1 c2 r2)))
  = "S"%char :: "U"%char :: "M"%char :: "("%char :: X ++ [")"%char].
Proof.
  assert (Py.tail (sum_formula c1 r1 c2 r2)
          = "SUM(" +:+ c1 +:+ r1 +:+ ":" +:+ c2 +:+ r2 +:+ ")") as -> by reflexivity.
  unfold Py.upper. rewrite chars_str, !chars_app, !map_app.
  rewrite (map_upper_char_id Py.is_upper (Py.chars c1) upper_char_upper Hc1).
  rewrite (map_upper_char_id Py.is_upper (Py.chars c2) upper_char_upper Hc2).
  rewrite (map_upper_char_id Py.is_digit (Py.chars r1) upper_char_digit Hr1).
  rewrite (map_upper_char_id Py.is_digit (Py.chars r2) upper_char_digit Hr2).
  change (map Py.upper_char (Py.chars "SUM("))
    with ["S"%char; "U"%char; "M"%char; "("%char].
  change (map Py.upper_char (Py.chars ":")) with [":"%char].
  change (map Py.upper_char (Py.chars ")")) with [")"%char].
  unfold range_text. cbn [app].
  repeat (rewrite <- app_assoc || rewrite <- app_comm_cons). done.
Qed.

(** The scan of the text of the formula finds the range, once, and
    nothing else. *)
Lemma scan_sum_formula {A : Type} (emit : list string -> list A) (keep : ascii -> list A) :
  scan range_pattern emit keep 0 []
       ("S"%char :: "U"%char :: "M"%char :: "("%char :: X ++ [")"%char])
  = keep "S"%char ++ keep "U"%char ++ keep "M"%char ++ keep "("%char
    ++ emit [c1; r1; c2; r2] ++ keep ")"%char.
Proof.
  rewrite scan_no_match by reflexivity.
  rewrite scan_no_match by reflexivity.
  rewrite scan_no_match by reflexivity.
  rewrite scan_no_match by reflexivity.
  do 4 f_equal.
  assert (X <> []) as HX.
  { unfold range_text. pose proof (chars_nonempty c1 Hc1'). by destruct (Py.chars c1). }
  pose proof (match_range_text c1 r1 c2 r2 Hc1 Hr1 Hc2 Hr2 Hc1' Hr1' Hc2' Hr2'
                ["("%char; "M"%char; "U"%char; "S"%char] [")"%char] eq_refl eq_refl)
    as Hmatch.
  destruct X as [|x0 X'] eqn:HeqX; [done|]. cbn [app] in *.
  rewrite (scan_match _ _ _ _ _ _ _ _ (length X') Hmatch).
  2:{ cbn [snd length]. rewrite length_app. cbn. lia. }
  f_equal. rewrite scan_skip.
  rewrite scan_no_match.
  2:{ unfold match_at, range_pattern. cbn [seq]. rewrite run_Cat, run_WordB.
      by destruct (xorb _ _). }
  rewrite <- (app_nil_r (keep ")"%char)) at 2. f_equal.
Qed.

Lemma findall_sum_formula :
  findall range_pattern (Py.upper (Py.tail (sum_formula c1 r1 c2 r2)))
  = [[c1; r1; c2; r2]].
Proof. unfold findall. rewrite sum_formula_chars. by rewrite scan_sum_formula. Qed.

Lemma sub_sum_formula :
  sub_empty range_pattern (Py.upper (Py.tail (sum_formula c1 r1 c2 r2))) = "SUM()"%string.
Proof. unfold sub_empty. rewrite sum_formula_chars. by rewrite scan_sum_formula. Qed.

(** The dependencies of the sum of a range are the cells of the
    rectangle between its corners. *)
Lemma extract_dependencies_sum_formula :
  extract_dependencies (sum_formula c1 r1 c2 r2)
  = _expand_range c1 (Py.int_digits r1) c2 (Py.int_digits r2).
Proof.
  unfold extract_dependencies.
  assert (Py.startswith (sum_formula c1 r1 c2 r2) "=" = true) as -> by reflexivity.
  rewrite findall_sum_formula, sub_sum_formula.
  change (findall cell_pattern "SUM()") with (@nil (list string)).
  cbn [fold_left]. by rewrite union_empty_r_L.
Qed.
End SumFormula.

(** C8. Whichever corner of a range is written first, the formula reads
    the same cells: the expansion of a range is the same for both orders
    of its corners, the sum of a range [c1 r1 : c2 r2] and the sum of
    [c2 r2 : c1 r1] have the same dependencies for all column names and
    row numbers, and those of [=SUM(A1:B2)] and [=SUM(B2:A1)] are A1, A2,
    B1 and B2. *)
Theorem range_corners_symmetric (c1 r1 c2 r2 : string) :
  is_column_name c1 -> c1 <> EmptyString -> is_digits r1 -> r1 <> EmptyString ->
  is_column_name c2 -> c2 <> EmptyString -> is_digits r2 -> r2 <> EmptyString ->
  _expand_range c1 (Py.int_digits r1) c2 (Py.int_digits r2)
  = _expand_range c2 (Py.int_digits r2) c1 (Py.int_digits r1) /\
  extract_dependencies (sum_formula c1 r1 c2 r2)
  = extract_dependencies (sum_formula c2 r2 c1 r1) /\
  extract_dependencies "=SUM(A1:B2)"
  = {[ mkCellRef "A" 1; mkCellRef "A" 2; mkCellRef "B" 1; mkCellRef "B" 2 ]} /\
  extract_dependencies "=SUM(B2:A1)"
  = {[ mkCellRef "A" 1; mkCellRef "A" 2; mkCellRef "B" 1; mkCellRef "B" 2 ]}.
Proof.
  intros Hc1 Hc1' Hr1 Hr1' Hc2 Hc2' Hr2 Hr2'.
  split; [apply expand_range_symmetric|]. split.
  - rewrite !extract_dependencies_sum_formula by done. apply expand_range_symmetric.
  - split; vm_compute; reflexivity.
Qed.

Lemma range_corners_symmetric_witness :
  sum_formula "A" "1" "B" "2" = "=SUM(A1:B2)"%string /\
  sum_formula "B" "2" "A" "1" = "=SUM(B2:A1)"%string /\
  extract_dependencies (sum_formula "A" "1" "B" "2")
  = extract_dependencies (sum_formula "B" "2" "A" "1").
Proof.
  split; [reflexivity|]. split; [reflexivity|].
  refine (proj1 (proj2 (range_corners_symmetric "A" "1" "B" "2" _ _ _ _ _ _ _ _)));
    first [by repeat constructor | discriminate].
Defined.

(** ** Depth-first search *)

Section Chains.
Context (E : CellRef -> CellRef -> Prop).

Lemma chain_cons_inv x l : chain E (x :: l) -> chain E l.
Proof. destruct l; cbn; tauto. Qed.

Lemma chain_snoc l x y :
  chain E (l ++ [x]) -> E x y -> chain E ((l ++ [x]) ++ [y]).
Proof.
  intros Hc Hxy. induction l as [|a l IH].
  - cbn. tauto.
  - destruct l as [|b l].
    + cbn in *. tauto.
    + cbn in *. destruct Hc as [Hab Hc]. split; [done|]. by apply IH.
Qed.

Lemma chain_from_first x l : chain E l -> chain E (from_first x l).
Proof.
  induction l as [|a l IH]; [done|]. intros Hc. cbn [from_first].
  destruct (decide (x = a)); [done|]. apply IH. by eapply chain_cons_inv.
Qed.

Lemma from_first_head x l : x ∈ l -> exists l', from_first x l = x :: l'.
Proof.
  induction l as [|a l IH]; [by intros ?%elem_of_nil|].
  intros Hx. cbn. destruct (decide (x = a)) as [->|Hne]; [by eexists|].
  apply IH. by apply elem_of_cons in Hx as [?|?].
Qed.

Lemma from_first_last x l n :
  x ∈ l ++ [n] -> exists l', from_first x (l ++ [n]) = l' ++ [n].
Proof.
  induction l as [|a l IH]; intros Hx.
  - cbn. apply list_elem_of_singleton in Hx as ->.
    rewrite decide_True by done. by exists [].
  - cbn. destruct (decide (x = a)) as [->|Hne].
    + by exists (a :: l).
    + apply IH. cbn in Hx. by apply elem_of_cons in Hx as [?|?].
Qed.

Lemma chain_tc l x y : chain E (x :: l ++ [y]) -> tc E x y.
Proof.
  revert x. induction l as [|a l IH]; intros x Hc.
  - cbn in Hc. apply tc_once. tauto.
  - cbn in Hc. destruct Hc as [Hxa Hc]. eapply tc_l; [exact Hxa|]. by apply IH.
Qed.

Lemma cycle_path_tc p : cycle_path E p -> exists x, hd_error p = Some x /\ tc E x x.
Proof.
  intros [(x & l & ->) Hc]. exists x. split; [done|]. by eapply chain_tc.
Qed.

Lemma cycle_path_truthy p : cycle_path E p -> truthy (Some p) = true.
Proof. by intros [(x & l & ->) _]. Qed.

(** What the search returns when a neighbour is on the recursion
    stack. *)
Lemma hit_cycle_path path node x :
  chain E (path ++ [node]) -> E node x -> x ∈ path ++ [node] ->
  cycle_path E (from_first x (path ++ [node]) ++ [x]).
Proof.
  intros Hc Hnx Hx.
  destruct (from_first_head _ _ Hx) as [l1 H1].
  destruct (from_first_last _ _ _ Hx) as [l2 H2].
  split.
  - rewrite H1. by exists x, l1.
  - pose proof (chain_from_first x _ Hc) as Hc'. rewrite H2 in *.
    by apply chain_snoc.
Qed.
End Chains.

Section Settled.
Context (adj : gmap CellRef (gset CellRef)).
Notation E := (edge adj).
Notation settled := (settled adj).

Lemma settled_rtc B x y : settled B -> x ∈ B -> rtc E x y -> y ∈ B.
Proof.
  intros [Hcl _] Hx Hxy. induction Hxy as [|x y z Hxy _ IH]; [done|].
  apply IH. by eapply Hcl.
Qed.

Lemma settled_add B n :
  settled B -> (forall y, E n y -> y ∈ B) -> settled ({[n]} ∪ B).
Proof.
  intros HB Hn. split.
  - intros x y [->%elem_of_singleton|Hx]%elem_of_union Hxy.
    + apply elem_of_union_r. by apply Hn.
    + apply elem_of_union_r. by eapply (proj1 HB).
  - intros x [->%elem_of_singleton|Hx]%elem_of_union Hc; [|by eapply (proj2 HB)].
    assert (exists y, E n y /\ rtc E y n) as (y & Hny & Hyn).
    { inversion Hc; subst; [by eexists; split; [|apply rtc_refl]|].
      eexists; split; [done|]. by apply tc_rtc. }
    assert (n ∈ B) as HnB by (eapply settled_rtc; eauto).
    by eapply (proj2 HB).
Qed.

Lemma settled_empty : settled ∅.
Proof. split; intros x; set_solver. Qed.

End Settled.

Section Search.
Context (adj : gmap CellRef (gset CellRef)) (U : gset CellRef).
Hypothesis U_closed : forall a b, edge adj a b -> b ∈ U.
Notation E := (edge adj).
Notation settled := (settled adj).
Notation dfs_post := (dfs_post adj).

Lemma for_neighbours_spec (rec : CellRef -> dfs_state -> option (option (list CellRef) * dfs_state))
    (path : list CellRef) (node : CellRef) (fuel : nat) :
  (forall y st,
      E node y -> y ∉ st.1 -> st.2 ⊆ st.1 -> st.2 = list_to_set (path ++ [node]) ->
      settled (st.1 ∖ st.2) -> (size (U ∖ st.1) <= fuel)%nat ->
      exists r st', rec y st = Some (r, st') /\ dfs_post y st r st') ->
  chain E (path ++ [node]) ->
  forall nbrs cur,
    (forall y, y ∈ nbrs -> E node y) ->
    cur.2 = list_to_set (path ++ [node]) -> cur.2 ⊆ cur.1 ->
    settled (cur.1 ∖ cur.2) -> (size (U ∖ cur.1) <= fuel)%nat ->
    exists r st',
      for_neighbours truthy None rec
        (fun nb => Some (from_first nb (path ++ [node]) ++ [nb])) nbrs cur
      = Some (r, st') /\
      match r with
      | None =>
          st'.2 = cur.2 /\ cur.1 ⊆ st'.1 /\ settled (st'.1 ∖ st'.2) /\
          forall y, y ∈ nbrs -> y ∈ st'.1 ∖ st'.2
      | Some c => cycle_path E c
      end.
Proof.
  intros Hrec Hchain nbrs.
  induction nbrs as [|nb nbrs IH]; intros cur Hnb Hstack Hsub Hset Hsize.
  - exists None, cur. cbn. split; [done|]. split; [done|]. split; [done|].
    split; [done|]. intros y Hy. by apply elem_of_nil in Hy.
  - cbn [for_neighbours].
    assert (E node nb) as Hedge by (apply Hnb; left).
    assert (forall y, y ∈ nbrs -> E node y) as Hnb' by (intros; apply Hnb; by right).
    destruct (decide (nb ∉ cur.1)) as [Hnew|Hold].
    + destruct (Hrec nb cur) as (r & st' & Hr & Hpost); eauto.
      rewrite Hr. destruct r as [c|]; cbn in Hpost.
      * rewrite (cycle_path_truthy E c Hpost). by exists (Some c), st'.
      * cbn [truthy]. destruct Hpost as (Hs' & Hmono & Hin & Hset').
        destruct (IH st') as (r & st'' & Hr' & Hpost'); try done.
        { by rewrite Hs'. }
        { rewrite Hs'. set_solver. }
        { etrans; [|exact Hsize]. apply subseteq_size. set_solver. }
        exists r, st''. split; [done|]. destruct r as [c|]; [done|].
        destruct Hpost' as (Hs'' & Hmono' & Hset'' & Hall).
        split; [congruence|]. split; [set_solver|]. split; [done|].
        intros y [->|Hy]%elem_of_cons; [|by apply Hall].
        rewrite Hs'', Hs'. set_solver.
    + destruct (decide (nb ∈ cur.2)) as [Hon|Hoff].
      * exists (Some (from_first nb (path ++ [node]) ++ [nb])), cur.
        split; [done|]. apply hit_cycle_path; try done.
        rewrite Hstack in Hon. by apply elem_of_list_to_set in Hon.
      * destruct (IH cur) as (r & st' & Hr & Hpost); try done.
        exists r, st'. split; [done|]. destruct r as [c|]; [done|].
        destruct Hpost as (Hs' & Hmono & Hset' & Hall).
        split; [done|]. split; [done|]. split; [done|].
        intros y [->|Hy]%elem_of_cons; [|by apply Hall].
        rewrite Hs'. apply dec_stable in Hold. set_solver.
Qed.

(** Total correctness of one call of the search: with fuel for the
    cells not yet visited it returns, either with a cycle, or with
    everything it visited settled. *)
Lemma dfs_spec (fuel : nat) :
  forall node path st,
    node ∈ U -> node ∉ st.1 -> st.2 ⊆ st.1 -> st.2 = list_to_set path ->
    chain E (path ++ [node]) ->
    settled (st.1 ∖ st.2) -> (size (U ∖ st.1) <= fuel)%nat ->
    exists r st', dfs fuel adj node path st = Some (r, st') /\ dfs_post node st r st'.
Proof.
  induction fuel as [|fuel IH]; intros node path [v s] HU Hnew Hsub Hstack Hchain Hset Hsize;
    cbn [fst snd] in *.
  - exfalso. assert (node ∈ U ∖ v) as Hin by set_solver.
    assert (size (U ∖ v) = 0%nat) as H0 by lia.
    apply size_empty_inv in H0. set_solver.
  - cbn [dfs fst snd].
    destruct (for_neighbours_spec (fun nb => dfs fuel adj nb (path ++ [node]))
                path node fuel) with
        (nbrs := elements (dd_get adj node)) (cur := ({[node]} ∪ v, {[node]} ∪ s))
      as (r & st' & Hr & Hpost); cbn [fst snd].
    + intros y st Hy Hynew Hysub Hystack Hyset Hysize.
      apply IH; try done; [by eapply U_closed|by apply chain_snoc].
    + done.
    + intros y Hy. by apply elem_of_elements in Hy.
    + rewrite list_to_set_app_L, <- Hstack. cbn. set_solver.
    + set_solver.
    + replace (({[node]} ∪ v) ∖ ({[node]} ∪ s)) with (v ∖ s) by set_solver. done.
    + assert (U ∖ ({[node]} ∪ v) ⊂ U ∖ v) as Hlt by set_solver.
      apply subset_size in Hlt. lia.
    + rewrite Hr. destruct r as [c|].
      * by exists (Some c), st'.
      * destruct Hpost as (Hs' & Hmono & Hset' & Hall).
        exists None, (st'.1, st'.2 ∖ {[node]}). split; [done|].
        cbn. split; [|split; [|split]].
        -- rewrite Hs'. set_solver.
        -- set_solver.
        -- set_solver.
        -- replace (st'.1 ∖ (st'.2 ∖ {[node]})) with ({[node]} ∪ (st'.1 ∖ st'.2)).
           ++ apply settled_add; [done|]. intros y Hy. apply Hall.
              by apply elem_of_elements.
           ++ rewrite Hs'. apply set_eq. intros x.
              destruct (decide (x = node)); set_solver.
Qed.
End Search.

Section SearchAll.
Context (adj : gmap CellRef (gset CellRef)).
Notation E := (edge adj).

Lemma cells_of_closed (roots : gset CellRef) (a b : CellRef) :
  E a b -> b ∈ cells_of roots adj.
Proof.
  unfold edge, dd_get, cells_of. intros Hb.
  destruct (adj !! a) as [s|] eqn:Ha; cbn in Hb; [|set_solver].
  apply elem_of_union_r, elem_of_union_list. exists s. split; [|done].
  apply list_elem_of_fmap. exists (a, s). split; [done|].
  by apply elem_of_map_to_list.
Qed.

Lemma for_roots_spec (U : gset CellRef) :
  (forall a b, E a b -> b ∈ U) ->
  forall roots st,
    (forall r, r ∈ roots -> r ∈ U) -> st.2 = ∅ -> settled adj st.1 ->
    exists res,
      for_roots truthy None (fun node => dfs (S (size U)) adj node []) roots st
      = Some res /\
      match res with
      | None => exists B, settled adj B /\ st.1 ⊆ B /\ forall r, r ∈ roots -> r ∈ B
      | Some c => cycle_path E c
      end.
Proof.
  intros HU roots. induction roots as [|root roots IH]; intros st Hroots Hstack Hset.
  - exists None. split; [done|]. exists st.1. split; [done|]. split; [done|].
    intros r Hr. by apply elem_of_nil in Hr.
  - cbn [for_roots]. destruct (decide (root ∉ st.1)) as [Hnew|Hold].
    + destruct (dfs_spec adj U HU (S (size U)) root [] st) as (r & st' & Hr & Hpost).
      * apply Hroots. by left.
      * done.
      * rewrite Hstack. set_solver.
      * by rewrite Hstack.
      * done.
      * by replace (st.1 ∖ st.2) with st.1 by (rewrite Hstack; set_solver).
      * etrans; [apply subseteq_size|]; [|by apply Nat.le_succ_diag_r]. set_solver.
      * rewrite Hr. destruct r as [c|]; cbn in Hpost.
        -- rewrite (cycle_path_truthy E c Hpost). by exists (Some c).
        -- cbn [truthy]. destruct Hpost as (Hs' & Hmono & Hin & Hset').
           rewrite Hs', Hstack in Hset'.
           replace (st'.1 ∖ ∅) with st'.1 in Hset' by set_solver.
           destruct (IH st') as (res & Hres & Hpost').
           { intros r Hr'. apply Hroots. by right. }
           { by rewrite Hs'. }
           { done. }
           exists res. split; [done|]. destruct res as [c|]; [done|].
           destruct Hpost' as (B & HB & Hsub & Hall). exists B.
           split; [done|]. split; [set_solver|].
           intros r [->|Hr']%elem_of_cons; [set_solver|by apply Hall].
    + apply dec_stable in Hold.
      destruct (IH st) as (res & Hres & Hpost); try done.
      { intros r Hr'. apply Hroots. by right. }
      exists res. split; [done|]. destruct res as [c|]; [done|].
      destruct Hpost as (B & HB & Hsub & Hall). exists B.
      split; [done|]. split; [done|].
      intros r [->|Hr']%elem_of_cons; [set_solver|by apply Hall].
Qed.

(** The search from a list of start nodes returns, and it returns a
    cycle exactly when a cycle can be reached from one of them. *)
Lemma search_spec (roots : list CellRef) (U : gset CellRef) :
  (forall a b, E a b -> b ∈ U) -> (forall r, r ∈ roots -> r ∈ U) ->
  exists res,
    for_roots truthy None (fun node => dfs (S (size U)) adj node []) roots (∅, ∅)
    = Some res /\
    match res with
    | None => forall r c, r ∈ roots -> rtc E r c -> ~ tc E c c
    | Some p => cycle_path E p
    end.
Proof.
  intros HU Hroots.
  destruct (for_roots_spec U HU roots (∅, ∅)) as (res & Hres & Hpost);
    [done|done|apply settled_empty|].
  exists res. split; [done|]. destruct res as [p|]; [done|].
  destruct Hpost as (B & HB & _ & Hall). intros r c Hr Hrc.
  apply (proj2 HB). eapply settled_rtc; eauto.
Qed.

(** The search of [_would_create_cycle] goes the way of the search of
    [has_circular_dependency] and answers whether that one finds a
    cycle. *)
Lemma for_neighbours_answer
    (recb : CellRef -> dfs_state -> option (bool * dfs_state))
    (recp : CellRef -> dfs_state -> option (option (list CellRef) * dfs_state))
    (hit : CellRef -> option (list CellRef)) :
  (forall y st, recb y st = answer <$> recp y st) ->
  (forall y, truthy (hit y) = true) ->
  forall nbrs st,
    for_neighbours (fun b : bool => b) false recb (fun _ => true) nbrs st
    = answer <$> for_neighbours truthy None recp hit nbrs st
    /\ forall r st', for_neighbours truthy None recp hit nbrs st = Some (r, st') ->
                     r = None \/ truthy r = true.
Proof.
  intros Hrec Hhit nbrs. induction nbrs as [|nb nbrs IH]; intros st.
  - cbn. split; [done|]. intros r st' [= <- <-]. by left.
  - cbn [for_neighbours]. destruct (decide (nb ∉ st.1)).
    + rewrite Hrec. destruct (recp nb st) as [[r st1]|]; cbn; [|done].
      unfold answer at 1. cbn [fst snd].
      destruct (truthy r) eqn:Hr.
      * split; [by cbn; unfold answer; cbn; rewrite Hr|].
        intros r' st' [= <- <-]. by right.
      * apply IH.
    + destruct (decide (nb ∈ st.2)).
      * cbn. unfold answer. cbn. rewrite Hhit. split; [done|].
        intros r' st' [= <- <-]. by right.
      * apply IH.
Qed.

Lemma has_cycle_dfs_answer (fuel : nat) :
  forall node path st,
    has_cycle_dfs fuel adj node st = answer <$> dfs fuel adj node path st.
Proof.
  induction fuel as [|fuel IH]; intros node path st; [done|].
  cbn [has_cycle_dfs dfs].
  destruct (for_neighbours_answer (has_cycle_dfs fuel adj)
              (fun nb => dfs fuel adj nb (path ++ [node]))
              (fun nb => Some (from_first nb (path ++ [node]) ++ [nb])))
    with (nbrs := elements (dd_get adj node))
         (st := ({[node]} ∪ st.1, {[node]} ∪ st.2)) as [Heq Hres].
  - intros y st0. apply IH.
  - intros y. by destruct (from_first y (path ++ [node])).
  - rewrite Heq.
    destruct (for_neighbours truthy None _ _ _ _) as [[r st']|] eqn:Hfn; [|done].
    destruct (Hres r st' eq_refl) as [->|Hr]; [done|].
    cbn. unfold answer. cbn. rewrite Hr.
    destruct r as [[|x c]|]; done.
Qed.

Lemma for_roots_answer (fuel : nat) (roots : list CellRef) :
  forall st,
    for_roots (fun b : bool => b) false (has_cycle_dfs fuel adj) roots st
    = truthy <$> for_roots truthy None (fun node => dfs fuel adj node []) roots st.
Proof.
  induction roots as [|root roots IH]; intros st; [done|].
  cbn [for_roots]. destruct (decide (root ∉ st.1)); [|apply IH].
  rewrite (has_cycle_dfs_answer fuel root []).
  destruct (dfs fuel adj root [] st) as [[r st']|]; cbn; [|done].
  destruct (truthy r) eqn:Hr; [by cbn; rewrite Hr|apply IH].
Qed.
End SearchAll.

(** ** Dictionaries *)

Section DictFacts.
Context {K V : Type} `{EqDecision K}.
Implicit Types (m : list (K * V)) (k : K) (v : V).

Lemma dict_get_keys k m : is_Some (dict_get k m) <-> k ∈ dict_keys m.
Proof.
  unfold dict_keys. induction m as [|[k' v'] m IH]; cbn.
  - split; [by intros [? ?]|by intros ?%elem_of_nil].
  - destruct (decide (k = k')) as [->|Hne].
    + split; [intros _; by left|by eexists].
    + rewrite IH. split; [by right|].
      by intros [?|?]%elem_of_cons.
Qed.

Lemma dict_mem_keys k m : dict_mem k m = true <-> k ∈ dict_keys m.
Proof.
  unfold dict_mem. rewrite <- dict_get_keys.
  split; [apply bool_decide_eq_true_1|apply bool_decide_eq_true_2].
Qed.

Lemma dict_mem_false k m : dict_mem k m = false <-> k ∉ dict_keys m.
Proof.
  rewrite <- dict_mem_keys. destruct (dict_mem k m); split; congruence.
Qed.

Lemma dict_get_None k m : dict_get k m = None <-> k ∉ dict_keys m.
Proof.
  rewrite <- dict_get_keys. destruct (dict_get k m) eqn:E.
  - split; [done|]. intros H. destruct H. by eexists.
  - split; [|done]. intros _ [? ?]. done.
Qed.

Lemma dict_get_set k k' v m :
  dict_get k' (dict_set k v m) = if decide (k = k') then Some v else dict_get k' m.
Proof.
  induction m as [|[k0 v0] m IH]; cbn.
  - destruct (decide (k' = k)) as [->|]; [by rewrite decide_True|].
    by rewrite decide_False.
  - destruct (decide (k = k0)) as [->|Hne]; cbn.
    + destruct (decide (k' = k0)) as [->|]; [by rewrite decide_True|].
      by rewrite decide_False.
    + destruct (decide (k' = k0)) as [->|]; [by rewrite decide_False|done].
Qed.

Lemma dict_get_del k k' m :
  dict_get k' (dict_del k m) = if decide (k = k') then None else dict_get k' m.
Proof.
  induction m as [|[k0 v0] m IH]; cbn.
  - by destruct (decide (k = k')).
  - destruct (decide (k = k0)) as [->|Hne]; cbn.
    + rewrite IH. destruct (decide (k0 = k')) as [->|]; [done|].
      by rewrite decide_False.
    + destruct (decide (k' = k0)) as [->|]; [by rewrite decide_False|done].
Qed.

Lemma dict_get_alter (f : V -> V) k k' m :
  dict_get k' (dict_alter f k m)
  = if decide (k = k') then f <$> dict_get k' m else dict_get k' m.
Proof.
  induction m as [|[k0 v0] m IH]; cbn.
  - by destruct (decide (k = k')).
  - destruct (decide (k = k0)) as [->|Hne]; cbn.
    + destruct (decide (k' = k0)) as [->|]; [by rewrite decide_True|].
      by rewrite decide_False.
    + destruct (decide (k' = k0)) as [->|]; [by rewrite decide_False|done].
Qed.

Lemma dict_keys_alter (f : V -> V) k m : dict_keys (dict_alter f k m) = dict_keys m.
Proof.
  unfold dict_keys. induction m as [|[k0 v0] m IH]; cbn; [done|].
  destruct (decide (k = k0)); cbn; [done|]. by rewrite IH.
Qed.

Lemma dict_keys_set_new k v m :
  k ∉ dict_keys m -> dict_keys (dict_set k v m) = dict_keys m ++ [k].
Proof.
  unfold dict_keys. induction m as [|[k0 v0] m IH]; cbn; [done|].
  intros Hk. destruct (decide (k = k0)) as [->|]; [set_solver|].
  cbn. rewrite IH; [done|set_solver].
Qed.

Lemma dict_keys_set_old k v m :
  k ∈ dict_keys m -> dict_keys (dict_set k v m) = dict_keys m.
Proof.
  unfold dict_keys. induction m as [|[k0 v0] m IH]; cbn.
  - by intros ?%elem_of_nil.
  - intros Hk. destruct (decide (k = k0)) as [->|]; [done|].
    cbn. rewrite IH; [done|]. by apply elem_of_cons in Hk as [?|?].
Qed.

Lemma elem_of_dict_keys_set k k' v m :
  k' ∈ dict_keys (dict_set k v m) <-> k' = k \/ k' ∈ dict_keys m.
Proof.
  rewrite <- !dict_get_keys, dict_get_set.
  destruct (decide (k = k')) as [->|]; [|naive_solver].
  split; [by left|by eexists].
Qed.

Lemma elem_of_dict_keys_del k k' m :
  k' ∈ dict_keys (dict_del k m) <-> k' <> k /\ k' ∈ dict_keys m.
Proof.
  rewrite <- !dict_get_keys, dict_get_del.
  destruct (decide (k = k')) as [->|]; [|naive_solver].
  split; [by intros [? ?]|by intros [? _]].
Qed.

Lemma NoDup_dict_keys_set k v m :
  NoDup (dict_keys m) -> NoDup (dict_keys (dict_set k v m)).
Proof.
  intros Hm. destruct (decide (k ∈ dict_keys m)).
  - by rewrite dict_keys_set_old.
  - rewrite dict_keys_set_new by done. apply NoDup_app.
    split; [done|]. split; [set_solver|]. apply NoDup_singleton.
Qed.
End DictFacts.

(** ** The edges and the node table through the operations *)

Section GraphFacts.
Implicit Types (g : Graph) (X a b : CellRef).

Lemma dd_get_update (f : gset CellRef -> gset CellRef) k d a :
  dd_get (dd_update f k d) a = if decide (k = a) then f (dd_get d k) else dd_get d a.
Proof.
  unfold dd_update, dd_get at 1. destruct (decide (k = a)) as [->|Hne].
  - by rewrite lookup_insert_eq.
  - by rewrite lookup_insert_ne.
Qed.

Lemma dd_get_delete k (d : gmap CellRef (gset CellRef)) a :
  dd_get (delete k d) a = if decide (k = a) then ∅ else dd_get d a.
Proof.
  unfold dd_get. destruct (decide (k = a)) as [->|Hne].
  - by rewrite lookup_delete_eq.
  - by rewrite lookup_delete_ne.
Qed.

Lemma node_keys_elem g a : a ∈ node_keys g <-> a ∈ dict_keys (nodes g).
Proof. unfold node_keys. apply elem_of_list_to_set. Qed.

Lemma deps_of_alter_dependents (f : gset CellRef -> gset CellRef) k ns b :
  dependencies <$> dict_get b (dict_alter (with_dependents f) k ns)
  = dependencies <$> dict_get b ns.
Proof.
  rewrite dict_get_alter. destruct (decide (k = b)); [|done].
  by destruct (dict_get b ns).
Qed.

Lemma fold_remove_dependency_edge X l g :
  let g' := fold_left (remove_dependency_edge X) l g in
  (forall a, dd_get (adjacency_list g') a
             = if decide (a ∈ l) then dd_get (adjacency_list g) a ∖ {[X]}
               else dd_get (adjacency_list g) a)
  /\ dict_keys (nodes g') = dict_keys (nodes g)
  /\ (forall b, deps_of g' b = deps_of g b).
Proof.
  revert g. induction l as [|d l IH]; intros g; cbn.
  - split; [|done]. intros a. rewrite decide_False; [done|]. by intros ?%elem_of_nil.
  - destruct (IH (remove_dependency_edge X g d)) as (Hadj & Hkeys & Hdeps).
    split; [|split].
    + intros a. rewrite Hadj. cbn. rewrite dd_get_update.
      destruct (decide (d = a)) as [->|Hne].
      * rewrite (decide_True (P := a ∈ a :: l)) by (by left).
        destruct (decide (a ∈ l)); [set_solver|done].
      * destruct (decide (a ∈ l)).
        -- rewrite decide_True; [done|by right].
        -- rewrite decide_False; [done|]. by intros [?|?]%elem_of_cons.
    + rewrite Hkeys. cbn. apply dict_keys_alter.
    + intros b. rewrite Hdeps. unfold deps_of. cbn.
      apply deps_of_alter_dependents.
Qed.

Lemma fold_remove_dependent_edge X l g :
  let g' := fold_left (remove_dependent_edge X) l g in
  adjacency_list g' = adjacency_list g
  /\ dict_keys (nodes g') = dict_keys (nodes g)
  /\ (forall b s, deps_of g b = Some s ->
                  exists s', deps_of g' b = Some s' /\ s ∖ {[X]} ⊆ s').
Proof.
  revert g. induction l as [|d l IH]; intros g; cbn.
  - split; [done|]. split; [done|]. intros b s Hs. exists s. split; [done|set_solver].
  - destruct (IH (remove_dependent_edge X g d)) as (Hadj & Hkeys & Hdeps).
    split; [|split].
    + by rewrite Hadj.
    + rewrite Hkeys. cbn. apply dict_keys_alter.
    + intros b s Hs.
      assert (exists s1, deps_of (remove_dependent_edge X g d) b = Some s1
                         /\ s ∖ {[X]} ⊆ s1) as (s1 & Hs1 & Hsub).
      { unfold deps_of in *. cbn. rewrite dict_get_alter.
        destruct (dict_get b (nodes g)) as [n|]; [|done]. cbn in Hs.
        injection Hs as <-. destruct (decide (d = b)); cbn.
        - eexists. split; [done|]. set_solver.
        - eexists. split; [done|]. set_solver. }
      destruct (Hdeps b s1 Hs1) as (s' & Hs' & Hsub').
      exists s'. split; [done|]. set_solver.
Qed.

Lemma remove_node_spec X g node :
  dict_get X (nodes g) = Some node ->
  let g' := _remove_node X g in
  (forall a, dd_get (adjacency_list g') a
             = if decide (a = X) then ∅
               else if decide (a ∈ dependencies node)
                    then dd_get (adjacency_list g) a ∖ {[X]}
                    else dd_get (adjacency_list g) a)
  /\ (forall b, b ∈ dict_keys (nodes g') <-> b <> X /\ b ∈ dict_keys (nodes g))
  /\ (forall b s, b <> X -> deps_of g b = Some s ->
                  exists s', deps_of g' b = Some s' /\ s ∖ {[X]} ⊆ s').
Proof.
  intros Hnode. unfold _remove_node. rewrite Hnode.
  set (g1 := fold_left (remove_dependency_edge X) (elements (dependencies node)) g).
  destruct (fold_remove_dependency_edge X (elements (dependencies node)) g)
    as (Hadj1 & Hkeys1 & Hdeps1). fold g1 in Hadj1, Hkeys1, Hdeps1.
  set (l2 := elements match dict_get X (nodes g1) with
                      | Some node' => dependents node'
                      | None => ∅
                      end).
  set (g2 := fold_left (remove_dependent_edge X) l2 g1).
  destruct (fold_remove_dependent_edge X l2 g1) as (Hadj2 & Hkeys2 & Hdeps2).
  fold g2 in Hadj2, Hkeys2, Hdeps2.
  unfold set_nodes, set_reverse, set_adjacency.
  cbn [nodes adjacency_list reverse_adjacency_list]. split; [|split].
  - intros a. rewrite dd_get_delete, Hadj2, Hadj1.
    destruct (decide (X = a)) as [->|Hne]; [by rewrite decide_True|].
    rewrite (decide_False (P := a = X)) by done.
    destruct (decide (a ∈ elements (dependencies node))) as [Hin|Hout].
    + rewrite decide_True; [done|]. by apply elem_of_elements.
    + rewrite decide_False; [done|]. by rewrite <- elem_of_elements.
  - intros b. rewrite elem_of_dict_keys_del. by rewrite Hkeys2, Hkeys1.
  - intros b s Hb Hs. rewrite <- Hdeps1 in Hs.
    destruct (Hdeps2 b s Hs) as (s' & Hs' & Hsub).
    exists s'. split; [|done]. unfold deps_of in *. cbn [nodes].
    rewrite dict_get_del. by rewrite decide_False.
Qed.

Lemma fold_add_dependency_edge X l g :
  let g' := fold_left (add_dependency_edge X) l g in
  (forall a, dd_get (adjacency_list g') a
             = if decide (a ∈ l) then {[X]} ∪ dd_get (adjacency_list g) a
               else dd_get (adjacency_list g) a)
  /\ dict_keys (nodes g') = dict_keys (nodes g)
  /\ (forall b, deps_of g' b = deps_of g b)
  /\ _dirty_cells g' = _dirty_cells g.
Proof.
  revert g. induction l as [|d l IH]; intros g; cbn.
  - split; [|done]. intros a. rewrite decide_False; [done|]. by intros ?%elem_of_nil.
  - destruct (IH (add_dependency_edge X g d)) as (Hadj & Hkeys & Hdeps & Hdirty).
    split; [|split; [|split]].
    + intros a. rewrite Hadj. cbn. rewrite dd_get_update.
      destruct (decide (d = a)) as [->|Hne].
      * rewrite (decide_True (P := a ∈ a :: l)) by (by left).
        destruct (decide (a ∈ l)); [set_solver|done].
      * destruct (decide (a ∈ l)).
        -- rewrite decide_True; [done|by right].
        -- rewrite decide_False; [done|]. by intros [?|?]%elem_of_cons.
    + rewrite Hkeys. cbn. apply dict_keys_alter.
    + intros b. rewrite Hdeps. unfold deps_of. cbn.
      apply deps_of_alter_dependents.
    + by rewrite Hdirty.
Qed.

(** The map [_would_create_cycle] searches holds the edges of the graph
    and the new ones. *)
Lemma temp_adjacency_edge X (deps : gset CellRef) (adj : gmap CellRef (gset CellRef)) a b :
  edge (fold_left (fun temp dep => dd_update (fun s => {[X]} ∪ s) dep temp)
                  (elements deps) adj) a b
  <-> edge_with X deps adj a b.
Proof.
  unfold edge_with, edge.
  assert (forall l adj,
    dd_get (fold_left (fun temp dep => dd_update (fun s => {[X]} ∪ s) dep temp) l adj) a
    = if decide (a ∈ l) then {[X]} ∪ dd_get adj a else dd_get adj a) as Hfold.
  { clear. intros l. induction l as [|d l IH]; intros adj; cbn.
    - rewrite decide_False; [done|]. by intros ?%elem_of_nil.
    - rewrite IH, dd_get_update. destruct (decide (d = a)) as [->|Hne].
      + rewrite (decide_True (P := a ∈ a :: l)) by (by left).
        destruct (decide (a ∈ l)); [set_solver|done].
      + destruct (decide (a ∈ l)).
        * rewrite decide_True; [done|by right].
        * rewrite decide_False; [done|]. by intros [?|?]%elem_of_cons. }
  rewrite Hfold. destruct (decide (a ∈ elements deps)) as [Hin|Hout].
  - apply elem_of_elements in Hin. set_solver.
  - rewrite elem_of_elements in Hout. set_solver.
Qed.
End GraphFacts.

(** ** The loops end within their fuel *)

Section Totality.
Implicit Types (g : Graph) (ns : list (CellRef * FormulaNode)).

Lemma dirty_weight_mono ns (d d' : gset CellRef) :
  d ⊆ d' -> (dirty_weight ns d' <= dirty_weight ns d)%nat.
Proof.
  intros Hsub. unfold dirty_weight. induction ns as [|[k n] ns IH]; cbn; [done|].
  destruct (decide (k ∈ d')); destruct (decide (k ∈ d)); try lia. set_solver.
Qed.

Lemma dirty_weight_mark ns (d : gset CellRef) c node :
  dict_get c ns = Some node -> c ∉ d ->
  (dirty_weight ns ({[c]} ∪ d) + S (size (dependents node)) <= dirty_weight ns d)%nat.
Proof.
  intros Hget Hc. unfold dirty_weight.
  induction ns as [|[k n] ns IH]; cbn in *; [done|].
  destruct (decide (c = k)) as [->|Hne].
  - injection Hget as ->. rewrite decide_True by set_solver.
    rewrite decide_False by done.
    pose proof (dirty_weight_mono ns d ({[k]} ∪ d) ltac:(set_solver)) as Hm.
    unfold dirty_weight in Hm. lia.
  - specialize (IH Hget).
    destruct (decide (k ∈ {[c]} ∪ d)); destruct (decide (k ∈ d)); try lia.
    set_solver.
Qed.

Lemma dirty_weight_bound ns (d : gset CellRef) :
  (S (dirty_weight ns d) <= dirty_fuel ns)%nat.
Proof.
  unfold dirty_fuel, dirty_weight. apply le_n_S.
  induction ns as [|[k n] ns IH]; cbn; [done|].
  destruct (decide (k ∈ d)); lia.
Qed.

Lemma mark_dirty_loop_total (fuel : nat) ns :
  forall queue (dirty : gset CellRef),
    (length queue + dirty_weight ns dirty <= fuel)%nat ->
    is_Some (mark_dirty_loop fuel ns queue dirty).
Proof.
  induction fuel as [|fuel IH]; intros [|c queue] dirty Hfuel; cbn in *;
    try done; try lia.
  destruct (decide (c ∈ dirty)); [apply IH; lia|].
  destruct (dict_get c ns) as [node|] eqn:Hget.
  - apply IH. rewrite length_app.
    pose proof (dirty_weight_mark ns dirty c node Hget ltac:(done)).
    change (length (elements (dependents node))) with (size (dependents node)). lia.
  - apply IH.
    pose proof (dirty_weight_mono ns dirty ({[c]} ∪ dirty) ltac:(set_solver)). lia.
Qed.

Lemma mark_dirty_total c g :
  exists d, _mark_dirty c g = Some (set_dirty g d).
Proof.
  unfold _mark_dirty.
  destruct (mark_dirty_loop_total (dirty_fuel (nodes g)) (nodes g) [c] (_dirty_cells g))
    as [d Hd].
  - pose proof (dirty_weight_bound (nodes g) (_dirty_cells g)). cbn. lia.
  - rewrite Hd. by exists d.
Qed.

Lemma deg_get_insert k d (deg : gmap CellRef Z) c :
  deg_get (<[k := d]> deg) c = if decide (k = c) then d else deg_get deg c.
Proof.
  unfold deg_get. destruct (decide (k = c)) as [->|Hne].
  - by rewrite lookup_insert_eq.
  - by rewrite lookup_insert_ne.
Qed.

Lemma degree_sum_insert_le keys k d (deg : gmap CellRef Z) :
  d <= deg_get deg k ->
  (degree_sum keys (<[k := d]> deg) <= degree_sum keys deg)%nat.
Proof.
  intros Hd. unfold degree_sum. induction keys as [|c keys IH]; cbn; [done|].
  rewrite deg_get_insert. destruct (decide (k = c)) as [->|]; lia.
Qed.

Lemma degree_sum_insert_lt keys k (deg : gmap CellRef Z) :
  k ∈ keys -> deg_get deg k = 1 ->
  (S (degree_sum keys (<[k := 0%Z]> deg)) <= degree_sum keys deg)%nat.
Proof.
  intros Hk Hd. unfold degree_sum. induction keys as [|c keys IH]; cbn.
  - by apply elem_of_nil in Hk.
  - rewrite deg_get_insert. destruct (decide (k = c)) as [->|Hne].
    + pose proof (degree_sum_insert_le keys c 0 deg ltac:(lia)) as Hle.
      unfold degree_sum in Hle. rewrite Hd. lia.
    + apply elem_of_cons in Hk as [?|Hk]; [done|]. specialize (IH Hk). lia.
Qed.

Lemma release_dependent_measure ns (st : gmap CellRef Z * list CellRef) c :
  let st' := release_dependent ns st c in
  (length st'.2 + degree_sum (dict_keys ns) st'.1
   <= length st.2 + degree_sum (dict_keys ns) st.1)%nat.
Proof.
  unfold release_dependent. destruct (dict_mem c ns) eqn:Hmem; [|done].
  apply dict_mem_keys in Hmem. cbn [fst snd].
  destruct (Z.eqb_spec (deg_get st.1 c - 1) 0) as [H0|Hn0].
  - rewrite H0, length_app. cbn.
    pose proof (degree_sum_insert_lt (dict_keys ns) c st.1 Hmem ltac:(lia)). lia.
  - pose proof (degree_sum_insert_le (dict_keys ns) c (deg_get st.1 c - 1) st.1
                  ltac:(lia)). lia.
Qed.

Lemma fold_release_measure ns l :
  forall st : gmap CellRef Z * list CellRef,
    let st' := fold_left (release_dependent ns) l st in
    (length st'.2 + degree_sum (dict_keys ns) st'.1
     <= length st.2 + degree_sum (dict_keys ns) st.1)%nat.
Proof.
  induction l as [|c l IH]; intros st; cbn; [done|].
  etrans; [apply IH|]. apply release_dependent_measure.
Qed.

Lemma kahn_loop_total (fuel : nat) g :
  forall deg queue result,
    (length queue + degree_sum (dict_keys (nodes g)) deg <= fuel)%nat ->
    is_Some (kahn_loop fuel g deg queue result).
Proof.
  induction fuel as [|fuel IH]; intros deg [|c queue] result Hfuel; cbn in *;
    try done; try lia.
  pose proof (fold_release_measure (nodes g)
                (elements (dd_get (adjacency_list g) c)) (deg, queue)) as Hm.
  cbn in Hm.
  destruct (fold_left _ _ _) as [deg' queue'] eqn:Hfold. cbn in Hm.
  apply IH. lia.
Qed.

Lemma update_evaluation_order_total g :
  exists order, _update_evaluation_order g = Some (set_order g order).
Proof.
  unfold _update_evaluation_order.
  destruct (dict_keys (nodes g)) as [|k keys] eqn:Hkeys; [by eexists|].
  rewrite <- Hkeys.
  match goal with
  | |- context [kahn_loop ?f g ?deg ?q []] =>
      destruct (kahn_loop_total f g deg q []) as [order Ho]; [done|]
  end.
  rewrite Ho. by exists order.
Qed.

(** The two searches return, and what they return. *)
Lemma would_create_cycle_spec (new_cell : CellRef) (deps : gset CellRef) g :
  exists b,
    _would_create_cycle new_cell deps g = Some b /\
    if b then exists c, tc (edge_with new_cell deps (adjacency_list g)) c c
    else forall r c, r ∈ node_keys g ∪ {[new_cell]} ->
                     rtc (edge_with new_cell deps (adjacency_list g)) r c ->
                     ~ tc (edge_with new_cell deps (adjacency_list g)) c c.
Proof.
  unfold _would_create_cycle.
  set (temp := fold_left _ (elements deps) (adjacency_list g)).
  set (all_nodes := node_keys g ∪ {[new_cell]}).
  assert (forall a b, edge temp a b <-> edge_with new_cell deps (adjacency_list g) a b)
    as Hedge by apply temp_adjacency_edge.
  destruct (search_spec temp (elements all_nodes) (cells_of all_nodes temp))
    as (res & Hres & Hpost).
  { intros a b. apply cells_of_closed. }
  { intros r Hr%elem_of_elements. unfold cells_of. set_solver. }
  rewrite for_roots_answer, Hres. cbn. exists (truthy res). split; [done|].
  destruct res as [p|].
  - rewrite (cycle_path_truthy _ _ Hpost).
    destruct (cycle_path_tc _ _ Hpost) as (x & _ & Hx). exists x.
    eapply tc_congruence with (f := id); [|exact Hx]. intros ??. apply Hedge.
  - cbn. intros r c Hr Hrc Hc. apply (Hpost r c).
    + by apply elem_of_elements.
    + eapply rtc_congruence with (f := id); [|exact Hrc]. intros ??. apply Hedge.
    + eapply tc_congruence with (f := id); [|exact Hc]. intros ??. apply Hedge.
Qed.

Lemma has_circular_dependency_spec g :
  exists r,
    has_circular_dependency g = Some r /\
    match r with
    | (true, Some p) => cycle_path (edge (adjacency_list g)) p
    | (false, None) =>
        forall n c, n ∈ node_keys g -> rtc (edge (adjacency_list g)) n c ->
                    ~ tc (edge (adjacency_list g)) c c
    | _ => False
    end.
Proof.
  unfold has_circular_dependency.
  destruct (search_spec (adjacency_list g) (dict_keys (nodes g))
              (cells_of (node_keys g) (adjacency_list g))) as (res & Hres & Hpost).
  { intros a b. apply cells_of_closed. }
  { intros r Hr%node_keys_elem. unfold cells_of. set_solver. }
  rewrite Hres. destruct res as [p|].
  - rewrite (cycle_path_truthy _ _ Hpost). by eexists.
  - cbn. eexists. split; [done|]. cbn. intros n c Hn. apply Hpost.
    by apply node_keys_elem.
Qed.

Lemma add_formula_eq c formula deps g :
  add_formula c formula deps g
  = match _would_create_cycle c deps (replaced c g) with
    | None => None
    | Some true => Some (false, replaced c g)
    | Some false =>
        match _mark_dirty c (inserted c formula deps (replaced c g)) with
        | None => None
        | Some g1 =>
            match _update_evaluation_order g1 with
            | None => None
            | Some g2 => Some (true, g2)
            end
        end
    end.
Proof.
  unfold add_formula, replaced, inserted.
  by destruct (_would_create_cycle _ _ _) as [[|]|].
Qed.

(** What a successful [add_formula] returns: the graph after the
    insertion, with a dirty set and an evaluation order of its own. *)
Lemma add_formula_total c formula deps g :
  exists ok g',
    add_formula c formula deps g = Some (ok, g') /\
    if ok then
      _would_create_cycle c deps (replaced c g) = Some false /\
      exists d o, g' = set_order (set_dirty (inserted c formula deps (replaced c g)) d) o
                  /\ _update_evaluation_order
                       (set_dirty (inserted c formula deps (replaced c g)) d)
                     = Some g'
    else
      _would_create_cycle c deps (replaced c g) = Some true /\ g' = replaced c g.
Proof.
  rewrite add_formula_eq.
  destruct (would_create_cycle_spec c deps (replaced c g)) as (b & Hb & _).
  rewrite Hb. destruct b; [by eexists false, _|].
  destruct (mark_dirty_total c (inserted c formula deps (replaced c g))) as [d Hd].
  rewrite Hd.
  destruct (update_evaluation_order_total
              (set_dirty (inserted c formula deps (replaced c g)) d)) as [o Ho].
  rewrite Ho. eexists true, _. split; [done|]. split; [done|]. by exists d, o.
Qed.
End Totality.

(** ** Invariants of the reachable states *)

Section Invariants.
Implicit Types (g : Graph) (a b c : CellRef).

Lemma deps_of_keys g b s : deps_of g b = Some s -> b ∈ node_keys g.
Proof.
  unfold deps_of. intros Hs. apply node_keys_elem, dict_get_keys.
  destruct (dict_get b (nodes g)); [by eexists|done].
Qed.

Lemma edges_from_dependencies_into_nodes g :
  edges_from_dependencies g -> edges_into_nodes g.
Proof. intros Hg a b Hab. destruct (Hg a b Hab) as (s & Hs & _). by eapply deps_of_keys. Qed.

Lemma tc_target {A} (R : relation A) x y : tc R x y -> exists z, R z y.
Proof. induction 1; eauto. Qed.

Lemma tc_source {A} (R : relation A) x y : tc R x y -> exists z, R x z.
Proof. induction 1; eauto. Qed.

Lemma tc_sub {A} (R R' : relation A) x y :
  (forall u v, R u v -> R' u v) -> tc R x y -> tc R' x y.
Proof. intros HRS. apply (tc_congruence id). exact HRS. Qed.

Lemma replaced_spec c g :
  edges_from_dependencies g ->
  edges_from_dependencies (replaced c g)
  /\ (forall a b, edge (adjacency_list (replaced c g)) a b -> edge (adjacency_list g) a b)
  /\ (forall a, ~ edge (adjacency_list (replaced c g)) a c)
  /\ dict_get c (nodes (replaced c g)) = None.
Proof.
  intros Hg. unfold replaced. destruct (dict_mem c (nodes g)) eqn:Hmem.
  - apply dict_mem_keys, dict_get_keys in Hmem as [node Hnode].
    destruct (remove_node_spec c g node Hnode) as (Hadj & Hkeys & Hdeps).
    assert (forall a b, edge (adjacency_list (_remove_node c g)) a b ->
              edge (adjacency_list g) a b /\ a <> c /\ b <> c) as Hedge.
    { intros a b. unfold edge. rewrite Hadj.
      destruct (decide (a = c)) as [->|Hne]; [set_solver|].
      destruct (decide (a ∈ dependencies node)) as [Hin|Hout]; [set_solver|].
      intros Hab. split; [done|]. split; [done|]. intros ->.
      destruct (Hg a c Hab) as (s & Hs & Has). unfold deps_of in Hs.
      rewrite Hnode in Hs. by injection Hs as <-. }
    split; [|split; [|split]].
    + intros a b Hab. destruct (Hedge a b Hab) as (Hab' & Ha & Hb).
      destruct (Hg a b Hab') as (s & Hs & Has).
      destruct (Hdeps b s Hb Hs) as (s' & Hs' & Hsub).
      exists s'. split; [done|]. set_solver.
    + intros a b Hab. by apply Hedge.
    + intros a Hac. by destruct (Hedge a c Hac) as (_ & _ & ?).
    + apply dict_get_None. rewrite Hkeys. by intros [? _].
  - apply dict_mem_false in Hmem. split; [done|]. split; [done|]. split.
    + intros a Hac. destruct (Hg a c Hac) as (s & Hs & _).
      apply deps_of_keys, node_keys_elem in Hs. done.
    + by apply dict_get_None.
Qed.

Lemma inserted_spec c formula deps g :
  let g' := inserted c formula deps g in
  (forall a b, edge (adjacency_list g') a b <-> edge_with c deps (adjacency_list g) a b)
  /\ (forall b, deps_of g' b = if decide (b = c) then Some deps else deps_of g b)
  /\ (forall b, b ∈ dict_keys (nodes g') <-> b = c \/ b ∈ dict_keys (nodes g))
  /\ _dirty_cells g' = _dirty_cells g.
Proof.
  unfold inserted.
  set (g1 := set_nodes g _).
  destruct (fold_add_dependency_edge c (elements deps) g1)
    as (Hadj & Hkeys & Hdeps & Hdirty).
  split; [|split; [|split]].
  - intros a b. unfold edge_with, edge. rewrite Hadj. cbn [g1 set_nodes adjacency_list].
    destruct (decide (a ∈ elements deps)) as [Hin|Hout].
    + apply elem_of_elements in Hin. set_solver.
    + rewrite elem_of_elements in Hout. set_solver.
  - intros b. rewrite Hdeps. unfold deps_of. cbn [g1 set_nodes nodes].
    rewrite dict_get_set. destruct (decide (c = b)) as [->|Hne].
    + by rewrite decide_True.
    + by rewrite decide_False.
  - intros b. rewrite Hkeys. cbn [g1 set_nodes nodes]. apply elem_of_dict_keys_set.
  - by rewrite Hdirty.
Qed.

Lemma inserted_edges_from_dependencies c formula deps g :
  edges_from_dependencies g ->
  (forall a, ~ edge (adjacency_list g) a c) ->
  edges_from_dependencies (inserted c formula deps g).
Proof.
  intros Hg Hc a b. destruct (inserted_spec c formula deps g) as (Hadj & Hdeps & _).
  rewrite Hadj, Hdeps. intros [Hab|[Ha ->]].
  - rewrite decide_False; [by apply Hg|]. intros ->. by eapply Hc.
  - rewrite decide_True by done. by exists deps.
Qed.

(** After an accepted insertion there is no cycle. *)
Lemma accepted_acyclic c deps g :
  edges_into_nodes g ->
  _would_create_cycle c deps g = Some false ->
  forall x, ~ tc (edge_with c deps (adjacency_list g)) x x.
Proof.
  intros Hg Hw x Hx.
  destruct (would_create_cycle_spec c deps g) as (b & Hb & Hspec).
  rewrite Hw in Hb. injection Hb as <-.
  apply (Hspec x x); [|done|done].
  destruct (tc_target _ _ _ Hx) as (z & [Hzx|[_ ->]]); [|set_solver].
  apply elem_of_union_l. by eapply Hg.
Qed.

Lemma add_formula_well_formed c formula deps g ok g' :
  well_formed g -> add_formula c formula deps g = Some (ok, g') -> well_formed g'.
Proof.
  intros [Hg Hacyc] Hadd.
  destruct (replaced_spec c g Hg) as (Hg0 & Hsub & Hinto & Hget).
  assert (acyclic (replaced c g)) as Hacyc0.
  { intros x Hx. apply (Hacyc x). by eapply tc_sub. }
  destruct (add_formula_total c formula deps g) as (ok' & g'' & Hadd' & Hres).
  rewrite Hadd in Hadd'. injection Hadd' as <- <-.
  destruct ok.
  - destruct Hres as (Hw & d & o & -> & _). split.
    + apply (inserted_edges_from_dependencies c formula deps) in Hg0; [|done].
      exact Hg0.
    + intros x Hx. cbn [set_order set_dirty adjacency_list] in Hx.
      eapply (accepted_acyclic c deps (replaced c g)); [|done|].
      * by apply edges_from_dependencies_into_nodes.
      * eapply tc_sub; [|exact Hx]. intros a b.
        by apply (inserted_spec c formula deps (replaced c g)).
  - destruct Hres as (_ & ->). by split.
Qed.

Lemma mark_cell_evaluated_well_formed c v e msg g :
  well_formed g -> well_formed (mark_cell_evaluated c v e msg g).
Proof.
  intros [Hg Hacyc]. unfold mark_cell_evaluated.
  destruct (dict_mem c (nodes g)); [|done]. split; [|done].
  intros a b Hab. destruct (Hg a b Hab) as (s & Hs & Has).
  exists s. split; [|done]. unfold deps_of in *. cbn [set_dirty set_nodes nodes].
  rewrite dict_get_alter. destruct (decide (c = b)); [|done].
  by destruct (dict_get b (nodes g)).
Qed.

Lemma reachable_well_formed g : reachable g -> well_formed g.
Proof.
  induction 1 as [|g c formula deps ok g' _ IH Hadd|g c v e msg _ IH].
  - split; [intros a b Hab|intros c Hc%tc_source]; set_solver.
  - by eapply add_formula_well_formed.
  - by apply mark_cell_evaluated_well_formed.
Qed.

Lemma reachable_edges_into_nodes g : reachable g -> edges_into_nodes g.
Proof.
  intros [H _]%reachable_well_formed. by apply edges_from_dependencies_into_nodes.
Qed.

(** On the graphs [add_formula] builds the full search never finds a
    cycle. *)
Lemma reachable_no_cycle g :
  reachable g -> has_circular_dependency g = Some (false, None).
Proof.
  intros [_ Hacyc]%reachable_well_formed.
  destruct (has_circular_dependency_spec g) as ([[|] [p|]] & Hr & Hspec); try done.
  destruct (cycle_path_tc _ _ Hspec) as (x & _ & Hx). by destruct (Hacyc x).
Qed.
End Invariants.

(** ** Rejection of cycles by [add_formula] *)

Section AddFormula.



End AddFormula.

(** ** The full search for a cycle *)

Section FullSearch.





End FullSearch.

(** ** Back references of the node table *)

Section Dependents.

(** C5 fails on the code.  A1 reads A2 and is added first; when the node
    of A2 is added afterwards it starts with no dependents and nothing
    fills them in: A2 is a dependency of A1 and a node, and the
    dependents of A2 do not hold A1. *)
Lemma dependents_miss_earlier_nodes :
  exists g,
    add_all grid_A1_reads_A2 init = Some ([true; true], g) /\
    dependencies <$> dict_get (mkCellRef "A" 1) (nodes g) = Some {[mkCellRef "A" 2]} /\
    dependents <$> dict_get (mkCellRef "A" 2) (nodes g) = Some ∅.
Proof.
  eexists. split; [vm_compute; reflexivity|]. split; vm_compute; reflexivity.
Qed.

(** The same defect later loses a node of the evaluation order: when the
    formula of A2 is set again, its removal drops the edge to A1 with the
    adjacency entry of A2, while A1 still counts A2 among its
    dependencies. *)
Lemma update_loses_evaluation_order :
  exists g,
    add_all (grid_A1_reads_A2 ++ [(mkCellRef "A" 2, "=6", ∅)]) init
    = Some ([true; true; true], g) /\
    dict_keys (nodes g) = [mkCellRef "A" 1; mkCellRef "A" 2] /\
    get_evaluation_order g = [mkCellRef "A" 2].
Proof.
  eexists. split; [vm_compute; reflexivity|]. split; vm_compute; reflexivity.
Qed.

(** When the formula of A2 is set to read A1 instead, the stale
    dependency of A1 on A2 stays in its node while the edge from A2 to A1
    is gone: the two nodes name each other as dependencies, the search
    over the forward edges finds no cycle, and the evaluation order is
    empty. *)
Lemma update_hides_dependency_cycle :
  exists g,
    add_all (grid_A1_reads_A2 ++ [(mkCellRef "A" 2, "=A1", {[mkCellRef "A" 1]})]) init
    = Some ([true; true; true], g) /\
    dependencies <$> dict_get (mkCellRef "A" 1) (nodes g) = Some {[mkCellRef "A" 2]} /\
    dependencies <$> dict_get (mkCellRef "A" 2) (nodes g) = Some {[mkCellRef "A" 1]} /\
    has_circular_dependency g = Some (false, None) /\
    get_evaluation_order g = [].
Proof.
  eexists. split; [vm_compute; reflexivity|]. repeat split; vm_compute; reflexivity.
Qed.

End Dependents.

(** ** The evaluator *)

Section Evaluator.

(** C6 as stated fails: with A1 = 1, B1 = 2 and C1 = 3 the formula
    evaluates to the number 12, not to an error token. *)
Lemma chained_operators_counterexample :
  Re.match_ arithmetic_re "A1+B1+C1" = Some ["A1"; "+"; "B1+C1"] /\
  _evaluate_formula fraction_str "=A1+B1+C1" 0 "D" [row_1_2_3] columns_ABCD
  = RNum 12.
Proof. split; vm_compute; reflexivity. Qed.

Lemma parse_value_A1 (current_row : Z) (data : list (gmap string cell_value))
    (columns : list Column) :
  _parse_value "A1" current_row data columns = _get_cell_value "A" 0 data columns.
Proof. reflexivity. Qed.

Lemma parse_value_B1_C1 (current_row : Z) (data : list (gmap string cell_value))
    (columns : list Column) :
  _parse_value "B1+C1" current_row data columns = 11%Q.
Proof. reflexivity. Qed.

(** C6, amended.  The binary rule does match [=A1+B1+C1]: it splits at
    the first operator into [A1] and [B1+C1].  The right operand is no
    cell reference, its numeric reading keeps the digits only, which
    gives 11, and the formula evaluates to the value of A1 plus 11
    whatever the grid holds. *)
Theorem chained_operators_split_at_first (float_str : Q -> string)
    (current_row : Z) (current_col : string)
    (data : list (gmap string cell_value)) (columns : list Column) :
  Re.match_ arithmetic_re "A1+B1+C1" = Some ["A1"; "+"; "B1+C1"] /\
  _evaluate_formula float_str "=A1+B1+C1" current_row current_col data columns
  = RNum (Num.add (_get_cell_value "A" 0 data columns) 11).
Proof.
  split; [vm_compute; reflexivity|].
  unfold _evaluate_formula.
  change (Py.strip (Py.upper (Py.tail "=A1+B1+C1"))) with "A1+B1+C1"%string.
  change (Re.match_ func_re "A1+B1+C1") with (@None (list string)).
  change (Re.match_ cell_ref_re "A1+B1+C1") with (@None (list string)).
  change (Re.match_ arithmetic_re "A1+B1+C1") with (Some ["A1"; "+"; "B1+C1"]%string).
  cbv iota beta.
  change (Py.strip "A1") with "A1"%string.
  change (Py.strip "B1+C1") with "B1+C1"%string.
  rewrite parse_value_A1, parse_value_B1_C1. reflexivity.
Qed.

(** C7 fails on the code.  A cell that holds the number 0 is not
    counted (its truth value is tested before its text), while the text
    "0" is; and of a range over two columns only the first is read. *)
Lemma count_skips_number_zero :
  value_str fraction_str (VInt 0) = "0" /\
  _calculate_count fraction_str "A1:A1" 0 [row_zero] columns_ABCD = RNum 0 /\
  _calculate_count fraction_str "A1:A1" 0 [<["A" := VStr "0"]> ∅] columns_ABCD = RNum 1 /\
  _evaluate_formula fraction_str "=COUNT(A1:A1)" 0 "B" [row_zero] columns_ABCD = RNum 0 /\
  _calculate_count fraction_str "A1:B1" 0
    [<["A" := VStr "x"]> (<["B" := VStr "y"]> ∅)] columns_ABCD = RNum 1.
Proof. repeat split; vm_compute; reflexivity. Qed.

End Evaluator.

(** ** The orchestrator *)

Section Orchestrator.


Lemma add_cell_reachable (data : list (gmap string cell_value)) (columns : list Column)
    (row_index : Z) (row_ : gmap string cell_value) (st : option build_state)
    (column_ : Column) :
  built_reachable st ->
  built_reachable (add_cell data columns row_index row_ st column_).
Proof.
  intros (g & errs & -> & Hg). unfold add_cell. cbn [mbind option_bind].
  destruct (default (VStr "") (row_ !! key column_)) as [| | | |cell_text];
    try (by exists g, errs).
  destruct (Py.startswith cell_text "="); [|by exists g, errs].
  cbn [fst snd].
  match goal with
  | |- context [add_formula ?c ?f ?d g] =>
      destruct (add_formula_total c f d g) as (ok & g' & Hadd & _);
      rewrite Hadd; cbn [mbind option_bind];
      assert (reachable g') by (by eapply reachable_add)
  end.
  destruct ok; by eexists _, _.
Qed.

Lemma add_row_reachable (data : list (gmap string cell_value)) (columns : list Column)
    (row_index : Z) (row_ : gmap string cell_value) (cols : list Column) :
  forall st,
    built_reachable st ->
    built_reachable (fold_left (add_cell data columns row_index row_) cols st).
Proof.
  induction cols as [|col cols IH]; intros st Hst; [done|].
  cbn [fold_left]. apply IH. by apply add_cell_reachable.
Qed.

Lemma build_reachable (data : list (gmap string cell_value)) (columns : list Column) :
  built_reachable (_build_dependency_graph data columns).
Proof.
  unfold _build_dependency_graph.
  assert (built_reachable (Some (init, ∅))) as Hinit.
  { exists init, ∅. split; [done|]. apply reachable_init. }
  revert Hinit. generalize (Some (init, ∅ : gmap string string)).
  generalize (imap (fun (i : nat) (r : gmap string cell_value) => (i, r)) data).
  intros rows. induction rows as [|[i r] rows IH]; intros st Hst; [done|].
  cbn [fold_left]. apply IH. by apply add_row_reachable.
Qed.


End Orchestrator.

(** ** Kahn's algorithm *)

Section ListFacts.
Context {A : Type} `{EqDecision A}.

Lemma filter_ext_in (P Q : A -> Prop) `{forall x, Decision (P x)}
    `{forall x, Decision (Q x)} (l : list A) :
  (forall x, x ∈ l -> P x <-> Q x) -> filter P l = filter Q l.
Proof.
  induction l as [|a l IH]; intros HPQ; [done|]. rewrite !filter_cons.
  rewrite IH by (intros x Hx; apply HPQ; by right).
  assert (P a <-> Q a) as Ha by (apply HPQ; by left).
  destruct (decide (P a)).
  - rewrite decide_True; [done|tauto].
  - rewrite decide_False; [done|tauto].
Qed.

Lemma filter_length_remove (P : A -> Prop) `{forall x, Decision (P x)} (x : A) (l : list A) :
  NoDup l -> x ∈ l -> P x ->
  length (filter P l) = S (length (filter (fun d => P d /\ d <> x) l)).
Proof.
  induction l as [|a l IH]; intros Hnd Hx HP; [by apply elem_of_nil in Hx|].
  apply NoDup_cons in Hnd as [Ha Hnd]. rewrite !filter_cons.
  destruct (decide (a = x)) as [->|Hne].
  - rewrite decide_True by done. rewrite decide_False by tauto. cbn. f_equal.
    f_equal. apply filter_ext_in. intros d Hd.
    split; [|tauto]. intros HPd. split; [done|]. by intros ->.
  - apply elem_of_cons in Hx as [?|Hx]; [done|]. specialize (IH Hnd Hx HP).
    destruct (decide (P a)).
    + rewrite decide_True by done. cbn. by rewrite IH.
    + rewrite decide_False by tauto. done.
Qed.

Lemma filter_length_keep (P : A -> Prop) `{forall x, Decision (P x)} (x : A) (l : list A) :
  (x ∉ l \/ ~ P x) ->
  filter (fun d => P d /\ d <> x) l = filter P l.
Proof.
  intros Hx. apply filter_ext_in. intros d Hd.
  split; [tauto|]. intros HPd. split; [done|]. intros ->. tauto.
Qed.

(** A list with a repetition. *)
Lemma not_NoDup_split (l : list A) :
  ~ NoDup l -> exists y l1 l2 l3, l = l1 ++ y :: l2 ++ y :: l3.
Proof.
  induction l as [|a l IH]; intros Hnd; [destruct Hnd; constructor|].
  destruct (decide (a ∈ l)) as [Hin|Hout].
  - apply list_elem_of_split in Hin as (l2 & l3 & ->). by exists a, [], l2, l3.
  - destruct IH as (y & l1 & l2 & l3 & ->).
    + intros Hl. apply Hnd. by constructor.
    + by exists y, (a :: l1), l2, l3.
Qed.
End ListFacts.

Section NoSource.
Context (R : CellRef -> CellRef -> Prop).

Lemma chain_app_l l1 l2 : chain R (l1 ++ l2) -> chain R l1.
Proof.
  induction l1 as [|a [|b l1] IH]; [done|done|].
  cbn. intros [Hab Hc]. split; [done|]. by apply IH.
Qed.

Lemma chain_app_r l1 l2 : chain R (l1 ++ l2) -> chain R l2.
Proof.
  induction l1 as [|a l1 IH]; [done|]. intros Hc. apply IH.
  by eapply chain_cons_inv.
Qed.

Lemma chain_cons x l :
  chain R l -> (forall y, hd_error l = Some y -> R x y) -> chain R (x :: l).
Proof. destruct l as [|y l]; [done|]. intros Hc Hx. split; [by apply Hx|done]. Qed.

(** In a finite set where every cell has a predecessor in the set,
    going back from cell to cell comes by some cell twice. *)
Lemma backward_chain (S : gset CellRef) (n : nat) :
  (forall x, x ∈ S -> exists y, y ∈ S /\ R y x) ->
  forall x, x ∈ S ->
    exists l, length l = n /\ chain R (l ++ [x]) /\ forall y, y ∈ l -> y ∈ S.
Proof.
  intros Hpred x Hx. induction n as [|n (l & Hlen & Hc & HS)].
  - exists []. split; [done|]. split; [done|]. by intros y ?%elem_of_nil.
  - assert (exists h, hd_error (l ++ [x]) = Some h /\ h ∈ S) as (h & Hh & HhS).
    { destruct l as [|a l]; [by exists x|]. exists a. split; [done|]. apply HS. by left. }
    destruct (Hpred h HhS) as (p & Hp & Hph).
    exists (p :: l). split; [cbn; by rewrite Hlen|]. split.
    + cbn. apply chain_cons; [done|]. intros y Hy. rewrite Hh in Hy. by injection Hy as <-.
    + intros y [->|Hy]%elem_of_cons; [done|by apply HS].
Qed.

Lemma no_source_cycle (S : gset CellRef) :
  (forall x, x ∈ S -> exists y, y ∈ S /\ R y x) ->
  forall x, x ∈ S -> exists c, tc R c c.
Proof.
  intros Hpred x Hx.
  destruct (backward_chain S (size S) Hpred x Hx) as (l & Hlen & Hc & HS).
  assert (~ NoDup (l ++ [x])) as Hnd.
  { intros Hnd.
    assert (list_to_set (l ++ [x]) ⊆ S) as Hsub.
    { intros y Hy%elem_of_list_to_set. apply elem_of_app in Hy as [Hy|Hy]; [by apply HS|].
      by apply list_elem_of_singleton in Hy as ->. }
    apply subseteq_size in Hsub. rewrite size_list_to_set in Hsub by done.
    rewrite length_app in Hsub. cbn in Hsub. lia. }
  apply not_NoDup_split in Hnd as (y & l1 & l2 & l3 & Heq). rewrite Heq in Hc.
  exists y. apply (chain_tc R l2). apply chain_app_r in Hc.
  replace (y :: l2 ++ y :: l3) with ((y :: l2 ++ [y]) ++ l3) in Hc.
  - by apply chain_app_l in Hc.
  - cbn. by rewrite <- app_assoc.
Qed.
End NoSource.

Section Kahn.
Context (g : Graph).
Notation keys := (dict_keys (nodes g)).
Notation adj := (adjacency_list g).

Lemma count_dependencies_fold (node : CellRef) (l : list CellRef) :
  forall (deg : gmap CellRef Z) c,
    deg_get (fold_left (fun deg dep =>
               if dict_mem dep (nodes g) then <[node := deg_get deg node + 1]> deg
               else deg) l deg) c
    = if decide (c = node)
      then deg_get deg node + Z.of_nat (length (filter (fun d => d ∈ keys) l))
      else deg_get deg c.
Proof.
  induction l as [|d l IH]; intros deg c; cbn [fold_left].
  - cbn. destruct (decide (c = node)) as [->|]; [lia|done].
  - rewrite IH, filter_cons. destruct (dict_mem d (nodes g)) eqn:Hmem.
    + apply dict_mem_keys in Hmem. rewrite (decide_True (P := d ∈ keys)) by done.
      rewrite !deg_get_insert. rewrite (decide_True (P := node = node)) by done.
      destruct (decide (c = node)) as [->|Hne]; [cbn [length]; lia|].
      by rewrite decide_False.
    + apply dict_mem_false in Hmem. by rewrite (decide_False (P := d ∈ keys)).
Qed.

Lemma count_formula_dependencies_spec (deg : gmap CellRef Z) (node c : CellRef) :
  deg_get (count_formula_dependencies (nodes g) deg node) c
  = if decide (c = node) then waiting g [] node else deg_get deg c.
Proof.
  unfold count_formula_dependencies, waiting, pending, deps_of.
  destruct (dict_get node (nodes g)) as [n|]; cbn [fmap option_fmap option_map default].
  - rewrite count_dependencies_fold, !deg_get_insert.
    rewrite (decide_True (P := node = node)) by done.
    destruct (decide (c = node)) as [->|Hne];
      [|by rewrite (decide_False (P := node = c))].
    rewrite Z.add_0_l. do 2 f_equal. apply filter_ext_in. intros d _.
    split; [|tauto]. intros Hd. split; [done|]. by intros ?%elem_of_nil.
  - rewrite deg_get_insert. rewrite elements_empty.
    destruct (decide (c = node)) as [->|Hne]; [by rewrite decide_True|].
    by rewrite decide_False.
Qed.

Lemma initial_degrees (l : list CellRef) :
  forall (deg : gmap CellRef Z) c,
    deg_get (fold_left (count_formula_dependencies (nodes g)) l deg) c
    = if decide (c ∈ l) then waiting g [] c else deg_get deg c.
Proof.
  induction l as [|x l IH]; intros deg c; cbn [fold_left].
  - rewrite decide_False; [done|]. by intros ?%elem_of_nil.
  - rewrite IH, count_formula_dependencies_spec.
    destruct (decide (c ∈ l)).
    + rewrite decide_True; [done|by right].
    + destruct (decide (c = x)) as [->|Hne].
      * rewrite decide_True; [done|by left].
      * rewrite decide_False; [done|]. by intros [?|?]%elem_of_cons.
Qed.

Lemma fold_release (l : list CellRef) :
  NoDup l ->
  forall (deg : gmap CellRef Z) (q : list CellRef),
    let st' := fold_left (release_dependent (nodes g)) l (deg, q) in
    (forall c, deg_get st'.1 c
               = if decide (c ∈ l /\ c ∈ keys) then deg_get deg c - 1
                 else deg_get deg c)
    /\ st'.2 = q ++ filter (fun c => c ∈ keys /\ deg_get deg c = 1) l.
Proof.
  induction l as [|x l IH]; intros Hnd deg q; cbn [fold_left].
  - cbn. split; [|by rewrite app_nil_r]. intros c. rewrite decide_False; [done|].
    by intros [?%elem_of_nil _].
  - apply NoDup_cons in Hnd as [Hx Hnd].
    set (st1 := release_dependent (nodes g) (deg, q) x).
    assert (forall c, c <> x -> deg_get st1.1 c = deg_get deg c) as Hother.
    { intros c Hc. unfold st1, release_dependent.
      destruct (dict_mem x (nodes g)); [|done]. cbn.
      rewrite deg_get_insert. by rewrite decide_False. }
    destruct (IH Hnd st1.1 st1.2) as [Hdeg Hq].
    rewrite <- surjective_pairing in Hdeg, Hq. cbn zeta in Hdeg, Hq.
    split.
    + intros c. rewrite Hdeg. destruct (decide (c = x)) as [->|Hne].
      * rewrite (decide_False (P := x ∈ l /\ x ∈ keys)) by tauto.
        unfold st1, release_dependent.
        destruct (dict_mem x (nodes g)) eqn:Hmem.
        -- apply dict_mem_keys in Hmem. cbn. rewrite deg_get_insert.
           rewrite decide_True by done. rewrite decide_True; [done|].
           split; [by left|done].
        -- apply dict_mem_false in Hmem. cbn. rewrite decide_False; [done|]. tauto.
      * rewrite Hother by done. destruct (decide (c ∈ l /\ c ∈ keys)) as [[? ?]|Hn].
        -- rewrite decide_True; [done|]. split; [by right|done].
        -- rewrite decide_False; [done|]. intros [[?|?]%elem_of_cons ?]; tauto.
    + rewrite Hq. rewrite filter_cons.
      rewrite (filter_ext_in (fun c => c ∈ keys /\ deg_get st1.1 c = 1)
                             (fun c => c ∈ keys /\ deg_get deg c = 1) l).
      2:{ intros c Hc. rewrite Hother; [done|]. by intros ->. }
      unfold st1, release_dependent.
      destruct (dict_mem x (nodes g)) eqn:Hmem.
      * apply dict_mem_keys in Hmem. cbn [fst snd].
        destruct (Z.eqb_spec (deg_get deg x - 1) 0) as [H0|Hn0].
        -- rewrite decide_True by (split; [done|lia]). by rewrite <- app_assoc.
        -- rewrite decide_False; [done|]. intros [_ ?]. lia.
      * apply dict_mem_false in Hmem. cbn [fst snd].
        rewrite decide_False; [done|]. tauto.
Qed.

Lemma waiting_nonneg done c : 0 <= waiting g done c.
Proof. unfold waiting. lia. Qed.

Lemma waiting_zero done c :
  waiting g done c = 0 <->
  forall d, d ∈ default ∅ (deps_of g c) -> d ∈ keys -> d ∈ done.
Proof.
  unfold waiting, pending. split.
  - intros H0 d Hd Hk. destruct (decide (d ∈ done)) as [|Hout]; [done|].
    assert (d ∈ filter (fun d => d ∈ keys /\ d ∉ done)
                       (elements (default ∅ (deps_of g c)))) as Hin.
    { apply list_elem_of_filter. split; [done|]. by apply elem_of_elements. }
    destruct (filter _ _); [by apply elem_of_nil in Hin|]. cbn in H0. lia.
  - intros Hall.
    destruct (filter _ _) as [|d l] eqn:Hf; [done|]. exfalso.
    assert (d ∈ d :: l) as Hin by (by left). rewrite <- Hf in Hin.
    apply list_elem_of_filter in Hin as [[Hk Hout] Hd%elem_of_elements].
    apply Hout. by apply Hall.
Qed.

Lemma waiting_step done current c :
  current ∈ keys -> current ∉ done ->
  waiting g (done ++ [current]) c
  = waiting g done c - (if decide (current ∈ default ∅ (deps_of g c)) then 1 else 0).
Proof.
  intros Hk Hout. unfold waiting, pending.
  set (els := elements (default ∅ (deps_of g c))).
  rewrite (filter_ext_in (fun d => d ∈ keys /\ d ∉ done ++ [current])
             (fun d => (d ∈ keys /\ d ∉ done) /\ d <> current) els).
  2:{ intros d _. rewrite elem_of_app, list_elem_of_singleton. tauto. }
  destruct (decide (current ∈ default ∅ (deps_of g c))) as [Hin|Hnin].
  - rewrite (filter_length_remove (fun d => d ∈ keys /\ d ∉ done) current els).
    + lia.
    + apply NoDup_elements.
    + by apply elem_of_elements.
    + done.
  - rewrite filter_length_keep; [lia|]. left. unfold els. by rewrite elem_of_elements.
Qed.
End Kahn.

Section KahnLoop.
Context (g : Graph).
Hypothesis Hmatch : edges_match_dependencies g.
Notation keys := (dict_keys (nodes g)).
Notation adj := (adjacency_list g).

Lemma edge_reads a b : edge adj a b <-> a ∈ default ∅ (deps_of g b).
Proof.
  rewrite (Hmatch a b). split.
  - by intros (s & -> & Ha).
  - destruct (deps_of g b) as [s|]; [by exists s|]. cbn. set_solver.
Qed.

Lemma edge_target_key a b : edge adj a b -> b ∈ keys.
Proof.
  intros (s & Hs & _)%Hmatch. by apply node_keys_elem, (deps_of_keys g b s).
Qed.

Lemma kahn_step deg current queue result :
  kahn_inv g deg (current :: queue) result ->
  let st' := fold_left (release_dependent (nodes g))
                       (elements (dd_get adj current)) (deg, queue) in
  kahn_inv g st'.1 st'.2 (result ++ [current]).
Proof.
  intros [Hnd Hkeys Hdeg Hzero Htopo].
  destruct (fold_release g (elements (dd_get adj current)) (NoDup_elements _) deg queue)
    as [Hdeg' Hq']. cbn zeta in *.
  set (st' := fold_left _ _ _) in *.
  assert (current ∈ keys) as Hck by (apply Hkeys; set_solver).
  assert (current ∉ result) as Hcr.
  { apply NoDup_app in Hnd as (_ & Hdisj & _). intros Hin.
    apply (Hdisj current Hin). by left. }
  assert (waiting g result current = 0) as Hc0 by (apply Hzero; [done|set_solver]).
  assert (forall c, c ∈ elements (dd_get adj current) <->
                    c ∈ keys /\ current ∈ default ∅ (deps_of g c)) as Hl.
  { intros c. rewrite elem_of_elements.
    change (c ∈ dd_get adj current) with (edge adj current c).
    split; [|by intros [_ ?%edge_reads]].
    intros He. split; [by eapply edge_target_key|by apply edge_reads]. }
  assert (forall c, c ∈ keys ->
            deg_get st'.1 c = waiting g (result ++ [current]) c) as Hdeg''.
  { intros c Hc. rewrite Hdeg', waiting_step, Hdeg by done.
    destruct (decide (current ∈ default ∅ (deps_of g c))) as [Hin|Hout].
    - rewrite decide_True; [done|]. split; [by apply Hl|done].
    - rewrite decide_False; [lia|]. intros [Hin%Hl _]. tauto. }
  assert (forall c, c ∈ st'.2 <->
            c ∈ queue \/ (c ∈ keys /\ current ∈ default ∅ (deps_of g c)
                          /\ waiting g result c = 1)) as Hq''.
  { intros c. rewrite Hq', elem_of_app, list_elem_of_filter, Hl.
    split; (intros [?|H]; [by left|right]).
    - destruct H as [[Hc Hd] [_ Hr]]. rewrite Hdeg in Hd by done. tauto.
    - destruct H as (Hc & Hr & Hw). rewrite Hdeg by done. tauto. }
  split.
  - rewrite Hq', app_assoc. rewrite <- (app_assoc result), <- app_comm_cons. cbn [app].
    apply NoDup_app. split; [done|]. split.
    + intros c Hc [[Hk Hd] _]%list_elem_of_filter.
      rewrite Hdeg in Hd by done. apply Hzero in Hc; [lia|done].
    + apply NoDup_filter, NoDup_elements.
  - intros c. rewrite !elem_of_app, list_elem_of_singleton, Hq''.
    intros [[?| ->]|[?|(? & _)]]; try done; apply Hkeys; set_solver.
  - done.
  - intros c Hc. rewrite waiting_step by done.
    pose proof (waiting_nonneg g result c) as Hnn.
    pose proof (waiting_nonneg g (result ++ [current]) c) as Hnn'.
    rewrite waiting_step in Hnn' by done.
    rewrite !elem_of_app, list_elem_of_singleton, Hq''.
    specialize (Hzero c Hc). rewrite elem_of_app, elem_of_cons in Hzero.
    destruct (decide (current ∈ default ∅ (deps_of g c))) as [Hin|Hout].
    + split.
      * intros [[?|?]|[?|(_ & _ & ?)]]; try lia;
          (assert (waiting g result c = 0) by (apply Hzero; tauto); lia).
      * intros Hw. right. right. split; [done|]. split; [done|]. lia.
    + split.
      * intros [[?|?]|[?|(_ & ? & _)]]; try done;
          (assert (waiting g result c = 0) by (apply Hzero; tauto); lia).
      * intros Hw. assert (waiting g result c = 0) as Hw0 by lia.
        apply Hzero in Hw0. tauto.
  - assert (forall b, b ∈ result -> ~ edge adj current b) as Hnot.
    { intros b Hb He. apply Hcr.
      assert (b ∈ keys) as Hbk by (apply Hkeys; set_solver).
      assert (waiting g result b = 0) as Hb0 by (apply Hzero; [done|set_solver]).
      apply (proj1 (waiting_zero g result b) Hb0); [by apply edge_reads|done]. }
    intros i j a b Hi Hj He.
    apply lookup_app_Some in Hi as [Hi|[Hli Hi]];
      apply lookup_app_Some in Hj as [Hj|[Hlj Hj]].
    + by eapply Htopo.
    + apply lookup_lt_Some in Hi. lia.
    + exfalso. apply list_lookup_singleton_Some in Hi as [_ <-].
      apply (Hnot b); [|done]. by eapply list_elem_of_lookup_2.
    + exfalso. apply list_lookup_singleton_Some in Hi as [_ <-].
      apply list_lookup_singleton_Some in Hj as [_ <-].
      apply Hcr. apply (proj1 (waiting_zero g result current) Hc0); [|done].
      by apply edge_reads.
Qed.

Lemma kahn_loop_inv (fuel : nat) :
  forall deg queue result order,
    kahn_inv g deg queue result ->
    kahn_loop fuel g deg queue result = Some order ->
    exists deg', kahn_inv g deg' [] order.
Proof.
  induction fuel as [|fuel IH]; intros deg [|current queue] result order Hinv Hloop;
    cbn in Hloop; try done.
  - injection Hloop as <-. by exists deg.
  - injection Hloop as <-. by exists deg.
  - pose proof (kahn_step deg current queue result Hinv) as Hstep. cbn zeta in Hstep.
    destruct (fold_left _ _ _) as [deg' queue'] eqn:Hfold.
    by eapply IH.
Qed.

Lemma kahn_complete deg order :
  acyclic g -> kahn_inv g deg [] order -> forall c, c ∈ keys -> c ∈ order.
Proof.
  intros Hacyc [Hnd Hkeys Hdeg Hzero Htopo] c Hc.
  destruct (decide (c ∈ order)) as [|Hout]; [done|]. exfalso.
  set (S := list_to_set keys ∖ list_to_set order : gset CellRef).
  destruct (no_source_cycle (edge adj) S) with (x := c) as [x Hx].
  - intros x [Hxk Hxo]%elem_of_difference.
    rewrite elem_of_list_to_set in Hxk, Hxo.
    assert (waiting g order x <> 0) as Hw.
    { intros Hw. apply Hzero in Hw; [|done]. by rewrite app_nil_r in Hw. }
    unfold waiting in Hw.
    destruct (pending g order x) as [|d l] eqn:Hp; [done|].
    assert (d ∈ pending g order x) as Hd by (rewrite Hp; by left).
    apply list_elem_of_filter in Hd as [[Hdk Hdo] Hdx%elem_of_elements].
    exists d. split; [|by apply edge_reads].
    apply elem_of_difference. by rewrite !elem_of_list_to_set.
  - apply elem_of_difference. by rewrite !elem_of_list_to_set.
  - by apply (Hacyc x).
Qed.
End KahnLoop.

(** On a graph whose keys are distinct, whose forward edges are the
    dependencies of its nodes and which has no cycle, Kahn's loop gives
    every node once, each after the nodes it reads. *)
Lemma kahn_correct (g : Graph) :
  NoDup (dict_keys (nodes g)) -> edges_match_dependencies g -> acyclic g ->
  exists order,
    _update_evaluation_order g = Some (set_order g order) /\
    order ≡ₚ dict_keys (nodes g) /\ topological g order.
Proof.
  intros Hnd Hmatch Hacyc.
  destruct (update_evaluation_order_total g) as [order Ho].
  exists order. split; [done|].
  unfold _update_evaluation_order in Ho.
  destruct (dict_keys (nodes g)) as [|k keys'] eqn:Hkeys.
  { injection Ho as <-.
    split; [done|]. intros i j a b Hi. by rewrite lookup_nil in Hi. }
  rewrite <- Hkeys in *. clear k keys' Hkeys.
  set (deg0 := fold_left (count_formula_dependencies (nodes g)) (dict_keys (nodes g)) ∅) in *.
  set (queue0 := filter (fun node => deg_get deg0 node = 0) (dict_keys (nodes g))) in *.
  destruct (kahn_loop _ g deg0 queue0 []) as [order'|] eqn:Hloop; [|done].
  assert (order' = order) as -> by (by injection Ho).
  assert (forall c, c ∈ dict_keys (nodes g) -> deg_get deg0 c = waiting g [] c) as Hdeg0.
  { intros c Hc. unfold deg0. rewrite initial_degrees. by rewrite decide_True. }
  eapply (kahn_loop_inv g Hmatch) in Hloop as [deg' Hinv].
  2:{ split; cbn [app].
    - by apply NoDup_filter.
    - by intros c [_ ?]%list_elem_of_filter.
    - done.
    - intros c Hc. unfold queue0. rewrite list_elem_of_filter, Hdeg0 by done. tauto.
    - intros i j a b Hi. by rewrite lookup_nil in Hi. }
  split; [|by destruct Hinv].
  apply NoDup_Permutation.
  - destruct Hinv as [Hnd' _ _ _ _]. by rewrite app_nil_r in Hnd'.
  - done.
  - intros c. split.
    + intros Hc. apply (ki_keys _ _ _ _ Hinv). by rewrite app_nil_r.
    + by eapply kahn_complete.
Qed.

(** ** The evaluation order of a set of formulas *)

Section FormulaSets.
Implicit Types (fs done : list (CellRef * string * gset CellRef)) (g : Graph).

Lemma elem_of_cells fs c : c ∈ cells fs <-> exists f d, (c, f, d) ∈ fs.
Proof.
  unfold cells. rewrite list_elem_of_fmap. split.
  - intros ([[c' f] d] & -> & Hin). by exists f, d.
  - intros (f & d & Hin). by exists (c, f, d).
Qed.

Lemma reads_mono fs fs' a b :
  (forall x, x ∈ fs -> x ∈ fs') -> reads fs a b -> reads fs' a b.
Proof.
  intros Hsub [Ha (f & d & Hin & Had)]. split.
  - apply elem_of_cells in Ha as (f' & d' & Hin'). apply elem_of_cells.
    exists f', d'. by apply Hsub.
  - exists f, d. split; [by apply Hsub|done].
Qed.

(** A cycle only goes through cells that are read into, so that its
    edges start from formula cells. *)
Lemma tc_from_targets (R : CellRef -> CellRef -> Prop) (T : CellRef -> Prop) x y :
  (forall a b, R a b -> T b) -> T x -> tc R x y -> tc (fun a b => T a /\ R a b) x y.
Proof.
  intros HT Hx Hxy. induction Hxy as [x y Hxy|x y z Hxy _ IH].
  - by apply tc_once.
  - eapply tc_l; [by split|]. apply IH. by eapply HT.
Qed.

Lemma built_init : built init [].
Proof.
  split; [done| | | |done|].
  - by intros c f d ?%elem_of_nil.
  - intros a b. unfold edge, dd_get, deps_of. cbn. rewrite lookup_empty. cbn.
    split; [set_solver|by intros (s & ? & _)].
  - intros c Hc%tc_source. destruct Hc as [z Hz]. unfold edge, dd_get in Hz.
    cbn in Hz. rewrite lookup_empty in Hz. set_solver.
  - intros i j a b Hi. cbn in Hi. by rewrite lookup_nil in Hi.
Qed.

Lemma built_edge_reads g done c f d a b :
  built g done ->
  edge_with c d (adjacency_list g) a b ->
  exists f' d', (b, f', d') ∈ done ++ [(c, f, d)] /\ a ∈ d'.
Proof.
  intros Hb [Hab|[Had ->]].
  - apply (b_match _ _ Hb) in Hab as (s & Hs & Has).
    assert (b ∈ cells done) as Hbc.
    { rewrite <- (b_keys _ _ Hb). by apply node_keys_elem, (deps_of_keys g b s). }
    apply elem_of_cells in Hbc as (f' & d' & Hin).
    rewrite (b_deps _ _ Hb _ _ _ Hin) in Hs. injection Hs as <-.
    exists f', d'. split; [|done]. apply elem_of_app. by left.
  - exists f, d. split; [|done]. apply elem_of_app. right. by left.
Qed.

Lemma add_fresh g done c f d :
  built g done ->
  NoDup (cells (done ++ [(c, f, d)])) ->
  (forall x, ~ tc (reads (done ++ [(c, f, d)])) x x) ->
  exists g', add_formula c f d g = Some (true, g') /\ built g' (done ++ [(c, f, d)]).
Proof.
  intros Hb Hnd Hacyc.
  assert (c ∉ cells done) as Hfresh.
  { unfold cells in Hnd. rewrite map_app in Hnd. apply NoDup_app in Hnd as (_ & Hd & _).
    intros Hin. apply (Hd c Hin). by left. }
  assert (replaced c g = g) as Hrep.
  { unfold replaced. rewrite (proj2 (dict_mem_false c (nodes g))); [done|].
    by rewrite (b_keys _ _ Hb). }
  assert (edges_into_nodes g) as Hinto.
  { intros a b (s & Hs & _)%(b_match _ _ Hb). by eapply deps_of_keys. }
  assert (forall a, ~ edge (adjacency_list g) a c) as Hnoc.
  { intros a Hac%Hinto. apply node_keys_elem in Hac. by rewrite (b_keys _ _ Hb) in Hac. }
  assert (forall x, ~ tc (edge_with c d (adjacency_list g)) x x) as Hnew.
  { intros x Hx. apply (Hacyc x).
    set (T := fun b => b ∈ cells (done ++ [(c, f, d)])).
    assert (forall a b, edge_with c d (adjacency_list g) a b ->
              exists f' d', (b, f', d') ∈ done ++ [(c, f, d)] /\ a ∈ d') as Hr.
    { intros a b. by apply built_edge_reads. }
    assert (forall a b, edge_with c d (adjacency_list g) a b -> T b) as HT.
    { intros a b (f' & d' & Hin & _)%Hr. apply elem_of_cells. by exists f', d'. }
    eapply tc_sub; [|apply (tc_from_targets _ T x x HT)]; [| |done].
    - intros a b [Ha Hab]. split; [done|]. by apply Hr.
    - destruct (tc_target _ _ _ Hx) as [z Hz]. by eapply HT. }
  destruct (add_formula_total c f d g) as (ok & g' & Hadd & Hres).
  rewrite Hrep in Hres. destruct ok.
  2:{ destruct Hres as [Hw _]. exfalso.
      destruct (would_create_cycle_spec c d g) as (b & Hb' & Hspec).
      rewrite Hw in Hb'. injection Hb' as <-. destruct Hspec as [x Hx].
      by destruct (Hnew x). }
  destruct Hres as (Hw & dd & o & -> & Hupd).
  destruct (inserted_spec c f d g) as (Hedge & Hdeps & Hkeys & _).
  set (g1 := set_dirty (inserted c f d g) dd) in *.
  assert (dict_keys (nodes g1) = cells (done ++ [(c, f, d)])) as Hk1.
  { unfold g1, inserted. cbn [set_dirty nodes].
    destruct (fold_add_dependency_edge c (elements d)
                (set_nodes g (dict_set c (mkNode c f d ∅ None false false None) (nodes g))))
      as (_ & Hk & _).
    rewrite Hk. cbn [set_nodes nodes]. rewrite dict_keys_set_new.
    - rewrite (b_keys _ _ Hb). unfold cells. by rewrite map_app.
    - by rewrite (b_keys _ _ Hb). }
  assert (edges_match_dependencies g1) as Hm1.
  { intros a b. change (adjacency_list g1) with (adjacency_list (inserted c f d g)).
    change (deps_of g1 b) with (deps_of (inserted c f d g) b).
    rewrite Hedge, Hdeps. destruct (decide (b = c)) as [->|Hne].
    - split.
      + intros [Hac|[Had _]]; [by destruct (Hnoc a)|]. by exists d.
      + intros (s & [= <-] & Has). by right.
    - rewrite <- (b_match _ _ Hb a b). split; [|by left].
      by intros [?|[_ ?]]. }
  assert (acyclic g1) as Ha1.
  { intros x Hx. apply (Hnew x). eapply tc_sub; [|exact Hx].
    intros a b. apply Hedge. }
  destruct (kahn_correct g1) as (order & Ho & Hperm & Htopo); [by rewrite Hk1|done|done|].
  exists (set_order g1 o). split; [done|].
  rewrite Ho in Hupd. injection Hupd as <-.
  split.
  - done.
  - intros c' f' d' [Hin|Hin%list_elem_of_singleton]%elem_of_app.
    + change (deps_of (set_order g1 order) c') with (deps_of (inserted c f d g) c').
      rewrite Hdeps. rewrite decide_False; [by eapply (b_deps _ _ Hb)|].
      intros ->. apply Hfresh. apply elem_of_cells. by exists f', d'.
    + injection Hin as -> -> ->.
      change (deps_of (set_order g1 order) c) with (deps_of (inserted c f d g) c).
      rewrite Hdeps. by rewrite decide_True.
  - done.
  - done.
  - done.
  - done.
Qed.

Lemma add_all_fresh fs :
  forall done g,
    built g done ->
    NoDup (cells (done ++ fs)) ->
    (forall x, ~ tc (reads (done ++ fs)) x x) ->
    exists g',
      add_all fs g = Some (replicate (length fs) true, g') /\ built g' (done ++ fs).
Proof.
  induction fs as [|[[c f] d] fs IH]; intros done g Hb Hnd Hacyc.
  - exists g. split; [done|]. by rewrite app_nil_r.
  - destruct (add_fresh g done c f d Hb) as (g1 & Hadd & Hb1).
    + replace (done ++ (c, f, d) :: fs) with ((done ++ [(c, f, d)]) ++ fs) in Hnd
        by (by rewrite <- app_assoc).
      unfold cells in Hnd. rewrite (map_app _ (done ++ [(c, f, d)])) in Hnd.
      by apply NoDup_app in Hnd as (? & _).
    + intros x Hx. apply (Hacyc x). eapply tc_sub; [|exact Hx].
      intros a b. apply reads_mono. intros y. rewrite !elem_of_app, !elem_of_cons.
      intros [?|[?|?%elem_of_nil]]; tauto.
    + destruct (IH (done ++ [(c, f, d)]) g1 Hb1) as (g' & Hall & Hb').
      * by rewrite <- app_assoc.
      * by rewrite <- app_assoc.
      * exists g'. rewrite <- app_assoc in Hb'. split; [|done].
        cbn [add_all]. rewrite Hadd. cbn [mbind option_bind]. rewrite Hall. done.
Qed.

(** C2. For formulas at distinct cells whose formula-to-formula
    dependencies have no cycle, added one after the other to a new
    graph: every [add_formula] succeeds, [get_evaluation_order] holds
    every formula cell exactly once, and every formula cell comes at a
    smaller index than the formulas that read it. *)
Theorem evaluation_order_topological fs :
  NoDup (cells fs) ->
  (forall c, ~ tc (reads fs) c c) ->
  exists g,
    add_all fs init = Some (replicate (length fs) true, g) /\
    dict_keys (nodes g) = cells fs /\
    get_evaluation_order g ≡ₚ cells fs /\
    forall i j a b f d,
      get_evaluation_order g !! i = Some a ->
      get_evaluation_order g !! j = Some b ->
      (b, f, d) ∈ fs -> a ∈ d -> (i < j)%nat.
Proof.
  intros Hnd Hacyc.
  destruct (add_all_fresh fs [] init built_init) as (g & Hall & Hb); [done|done|].
  cbn [app] in Hb. exists g. split; [done|]. split; [by apply (b_keys _ _ Hb)|].
  split.
  - unfold get_evaluation_order. rewrite (b_order _ _ Hb). by rewrite (b_keys _ _ Hb).
  - intros i j a b f d Hi Hj Hin Had.
    apply (b_topological _ _ Hb i j a b Hi Hj).
    apply (b_match _ _ Hb). exists d. split; [|done]. by eapply (b_deps _ _ Hb).
Qed.

Lemma evaluation_order_topological_witness :
  NoDup (cells grid_A1_reads_A2) /\
  (forall c, ~ tc (reads grid_A1_reads_A2) c c) /\
  exists g,
    add_all grid_A1_reads_A2 init = Some ([true; true], g) /\
    get_evaluation_order g ≡ₚ [mkCellRef "A" 1; mkCellRef "A" 2].
Proof.
  assert (NoDup (cells grid_A1_reads_A2)) as Hnd.
  { apply (bool_decide_unpack _). vm_compute. exact I. }
  assert (forall c, ~ tc (reads grid_A1_reads_A2) c c) as Hacyc.
  { assert (forall a b, reads grid_A1_reads_A2 a b ->
              a = mkCellRef "A" 2 /\ b = mkCellRef "A" 1) as Hr.
    { intros a b (_ & f & d & Hin & Had). unfold grid_A1_reads_A2 in Hin.
      apply elem_of_cons in Hin as [[= -> _ ->]|Hin].
      { by apply elem_of_singleton in Had as ->. }
      apply list_elem_of_singleton in Hin as [= _ _ ->]. set_solver. }
    intros c Hc.
    destruct (tc_source _ _ _ Hc) as [z [Hz _]%Hr].
    destruct (tc_target _ _ _ Hc) as [z' [_ Hz']%Hr]. congruence. }
  split; [exact Hnd|]. split; [exact Hacyc|].
  destruct (evaluation_order_topological grid_A1_reads_A2 Hnd Hacyc)
    as (g & Hall & _ & Hperm & _).
  by exists g.
Defined.
End FormulaSets.

(** ** Column numbers back to letters *)

Section ColumnNumbers.

Lemma ord_chr (z : Z) : 0 <= z < 256 -> Py.ord (Py.chr z) = z.
Proof.
  intros Hz. unfold Py.ord, Py.chr. rewrite N_ascii_embedding by lia. lia.
Qed.

Lemma letter_is_upper (m : Z) :
  0 <= m < 26 -> Py.is_upper (Py.chr (Py.ord "A" + m)) = true.
Proof.
  intros Hm. unfold Py.is_upper, Py.between. change (Py.ord "A") with 65.
  rewrite ord_chr by lia. lia.
Qed.

(** The loop puts capital letters before [result], and read as a column
    number they continue the number it started from. *)
Lemma number_to_column_loop_spec (fuel : nat) :
  forall (num : Z) (result : list ascii),
    0 <= num -> (Z.to_nat num <= fuel)%nat ->
    exists l,
      number_to_column_loop fuel num result = l ++ result /\
      Forall (fun c => Py.is_upper c = true) l /\
      (l = [] <-> num = 0) /\
      fold_left column_step l 0 = num.
Proof.
  induction fuel as [|fuel IH]; intros num result Hnum Hfuel.
  - exists []. assert (num = 0) as -> by lia. by cbn.
  - cbn [number_to_column_loop]. destruct (Z.ltb_spec 0 num) as [Hpos|Hle].
    + pose proof (Z.mod_pos_bound (num - 1) 26 ltac:(lia)) as Hm.
      pose proof (Z.div_mod (num - 1) 26 ltac:(lia)) as Hdm.
      assert (0 <= (num - 1) / 26) as Hq by (apply Z.div_pos; lia).
      destruct (IH ((num - 1) / 26)
                  (Py.chr (Py.ord "A" + (num - 1) mod 26) :: result) Hq ltac:(lia))
        as (l & -> & Hl & _ & Hval).
      exists (l ++ [Py.chr (Py.ord "A" + (num - 1) mod 26)]).
      split; [by rewrite <- app_assoc|]. split.
      { apply Forall_app. split; [done|]. apply Forall_singleton.
        by apply letter_is_upper. }
      split.
      { split; [|lia]. intros E. by destruct l. }
      rewrite fold_left_app, Hval. cbn [fold_left]. unfold column_step.
      change (Py.ord "A") with 65. rewrite ord_chr by lia. lia.
    + exists []. assert (num = 0) as -> by lia. by cbn.
Qed.

Lemma number_round_trip_aux (num : Z) :
  0 <= num ->
  is_column_name (_number_to_column num) /\
  (_number_to_column num = EmptyString <-> num = 0) /\
  _column_to_number (_number_to_column num) = num.
Proof.
  intros Hnum. unfold _number_to_column.
  destruct (number_to_column_loop_spec (Z.to_nat num) num [] Hnum ltac:(lia))
    as (l & -> & Hl & Hnil & Hval).
  rewrite app_nil_r.
  assert (is_column_name (Py.str l)) as Hname.
  { unfold is_column_name. by rewrite chars_str. }
  split; [done|]. split.
  - rewrite <- Hnil. split; [|by intros ->].
    intros E. apply (f_equal Py.chars) in E. by rewrite chars_str in E.
  - unfold _column_to_number. rewrite upper_column_name by done.
    by rewrite chars_str.
Qed.

Lemma number_to_column_of_name (col : string) :
  is_column_name col ->
  _number_to_column (_column_to_number col) = col.
Proof.
  intros H. unfold _number_to_column, _column_to_number.
  rewrite upper_column_name by done.
  change (fold_left _ (Py.chars col) 0) with (fold_left column_step (Py.chars col) 0).
  rewrite number_to_column_loop_fold by done.
  by rewrite app_nil_r, str_chars.
Qed.

(** A number read as letters and the letters read as a number give the
    number again, and the letters are capital letters: at least one for a
    positive number, none for zero. *)
Theorem number_round_trip (num : Z) :
  0 <= num ->
  is_column_name (_number_to_column num) /\
  (_number_to_column num = EmptyString <-> num = 0) /\
  _column_to_number (_number_to_column num) = num.
Proof. apply number_round_trip_aux. Qed.

Lemma number_round_trip_witness :
  0 <= 703 /\ _number_to_column 703 = "AAA"%string /\
  _column_to_number (_number_to_column 703) = 703.
Proof.
  split; [lia|]. split; [reflexivity|].
  exact (proj2 (proj2 (number_round_trip 703 ltac:(lia)))).
Defined.

(** Numbers below one have no letters. *)
Lemma number_to_column_nonpositive (num : Z) :
  num <= 0 -> _number_to_column num = EmptyString.
Proof.
  intros Hnum. unfold _number_to_column.
  destruct (Z.to_nat num) eqn:E; [done|lia].
Qed.

End ColumnNumbers.

(** ** The cells of a range *)

Section RangeCells.

Lemma elem_of_range (a b x : Z) : x ∈ Py.range a b <-> a <= x < b.
Proof. unfold Py.range. rewrite elem_of_seqZ. lia. Qed.

Lemma length_range (a b : Z) : length (Py.range a b) = Z.to_nat (b - a).
Proof. unfold Py.range. apply length_seqZ. Qed.

Lemma NoDup_range (a b : Z) : NoDup (Py.range a b).
Proof. unfold Py.range. apply NoDup_seqZ. Qed.

Lemma fold_add_cells {A} (f : A -> CellRef) (l : list A) :
  forall cells : gset CellRef,
    fold_left (fun cells x => {[ f x ]} ∪ cells) l cells = list_to_set (map f l) ∪ cells.
Proof.
  induction l as [|x l IH]; intros cells; cbn [fold_left map list_to_set].
  - set_solver.
  - rewrite IH. set_solver.
Qed.

Lemma fold_add_columns (rows : list Z) (ks : list Z) :
  forall cells : gset CellRef,
    fold_left (fun cells col_num =>
        let col := _number_to_column col_num in
        fold_left (fun cells row => {[ mkCellRef col row ]} ∪ cells) rows cells)
      ks cells
    = list_to_set (ks ≫= fun k => map (mkCellRef (_number_to_column k)) rows) ∪ cells.
Proof.
  induction ks as [|k ks IH]; intros cells; cbn [fold_left].
  - set_solver.
  - rewrite IH. cbn zeta. rewrite fold_add_cells.
    change ((k :: ks) ≫= ?f) with (f k ++ (ks ≫= f)).
    rewrite list_to_set_app_L. set_solver.
Qed.

Lemma length_bind_const {A B} (f : A -> list B) (n : nat) (l : list A) :
  (forall x, length (f x) = n) -> length (l ≫= f) = (length l * n)%nat.
Proof.
  intros Hf. induction l as [|x l IH]; [done|].
  change ((x :: l) ≫= f) with (f x ++ (l ≫= f)).
  rewrite length_app, Hf, IH. cbn. lia.
Qed.

Lemma number_to_column_inj (j k : Z) :
  0 <= j -> 0 <= k -> _number_to_column j = _number_to_column k -> j = k.
Proof.
  intros Hj Hk E.
  destruct (number_round_trip_aux j Hj) as (_ & _ & <-).
  destruct (number_round_trip_aux k Hk) as (_ & _ & <-).
  by rewrite E.
Qed.

Lemma column_number_nonneg (col : string) :
  is_column_name col -> 0 <= _column_to_number col.
Proof.
  intros H. unfold _column_to_number. rewrite upper_column_name by done.
  by apply (column_step_nonneg _ 0).
Qed.

Lemma expand_range_list (start_col : string) (start_row : Z)
    (end_col : string) (end_row : Z) :
  _expand_range start_col start_row end_col end_row
  = list_to_set
      (Py.range (Z.min (_column_to_number start_col) (_column_to_number end_col))
                (Z.max (_column_to_number start_col) (_column_to_number end_col) + 1)
       ≫= fun k =>
         map (mkCellRef (_number_to_column k))
             (Py.range (Z.min start_row end_row) (Z.max start_row end_row + 1))).
Proof.
  unfold _expand_range.
  assert ((if _column_to_number end_col <? _column_to_number start_col
           then (_column_to_number end_col, _column_to_number start_col)
           else (_column_to_number start_col, _column_to_number end_col))
          = (Z.min (_column_to_number start_col) (_column_to_number end_col),
             Z.max (_column_to_number start_col) (_column_to_number end_col))) as ->.
  { destruct (Z.ltb_spec (_column_to_number end_col)
                         (_column_to_number start_col)); f_equal; lia. }
  assert ((if end_row <? start_row then (end_row, start_row) else (start_row, end_row))
          = (Z.min start_row end_row, Z.max start_row end_row)) as ->.
  { destruct (Z.ltb_spec end_row start_row); f_equal; lia. }
  rewrite fold_add_columns. set_solver.
Qed.

Lemma expand_range_elem (start_col : string) (start_row : Z)
    (end_col : string) (end_row : Z) :
  is_column_name start_col -> is_column_name end_col ->
  forall c,
    c ∈ _expand_range start_col start_row end_col end_row <->
    is_column_name (column c) /\
    Z.min (_column_to_number start_col) (_column_to_number end_col)
      <= _column_to_number (column c)
      <= Z.max (_column_to_number start_col) (_column_to_number end_col) /\
    Z.min start_row end_row <= row c <= Z.max start_row end_row.
Proof.
  intros Hs%column_number_nonneg He%column_number_nonneg c.
  rewrite expand_range_list, elem_of_list_to_set, list_elem_of_bind. split.
  - intros (k & Hc & Hk%elem_of_range).
    apply list_elem_of_fmap in Hc as (r & -> & Hr%elem_of_range). cbn [column row].
    destruct (number_round_trip_aux k ltac:(lia)) as (Hname & _ & ->).
    split; [done|]. lia.
  - intros (Hname & Hk & Hr).
    exists (_column_to_number (column c)). split; [|apply elem_of_range; lia].
    apply list_elem_of_fmap. exists (row c). split; [|apply elem_of_range; lia].
    rewrite number_to_column_of_name by done. by destruct c.
Qed.

(** The range between two corners with capital-letter columns holds the
    cells whose column is a capital-letter name numbered between the
    numbers of the two columns and whose row lies between the two rows,
    whichever corner comes first: as many cells as columns times rows. *)
Theorem expand_range_cells (start_col : string) (start_row : Z)
    (end_col : string) (end_row : Z) :
  is_column_name start_col -> is_column_name end_col ->
  let lo := Z.min (_column_to_number start_col) (_column_to_number end_col) in
  let hi := Z.max (_column_to_number start_col) (_column_to_number end_col) in
  (forall c,
      c ∈ _expand_range start_col start_row end_col end_row <->
      is_column_name (column c) /\
      lo <= _column_to_number (column c) <= hi /\
      Z.min start_row end_row <= row c <= Z.max start_row end_row) /\
  Z.of_nat (size (_expand_range start_col start_row end_col end_row))
  = (hi - lo + 1) * (Z.max start_row end_row - Z.min start_row end_row + 1).
Proof.
  intros Hs He lo hi. split; [by apply expand_range_elem|].
  apply column_number_nonneg in Hs, He.
  rewrite expand_range_list, size_list_to_set.
  - rewrite (length_bind_const _ (Z.to_nat (Z.max start_row end_row + 1
                                             - Z.min start_row end_row))).
    + rewrite length_range. unfold lo, hi. lia.
    + intros k. by rewrite length_map, length_range.
  - apply NoDup_bind.
    + intros j k c Hj%elem_of_range Hk%elem_of_range
             (r & -> & _)%list_elem_of_fmap (r' & [= E _] & _)%list_elem_of_fmap.
      apply number_to_column_inj; [lia|lia|done].
    + intros k _. apply NoDup_fmap_2; [|apply NoDup_range].
      by intros r r' [= ->].
    + apply NoDup_range.
Qed.

Lemma expand_range_cells_witness :
  is_column_name "C" /\ is_column_name "A" /\
  (mkCellRef "B" 2 ∈ _expand_range "C" 3 "A" 1) /\
  Z.of_nat (size (_expand_range "C" 3 "A" 1)) = 9.
Proof.
  assert (is_column_name "C") as HC by (repeat constructor).
  assert (is_column_name "A") as HA by (repeat constructor).
  split; [exact HC|]. split; [exact HA|].
  destruct (expand_range_cells "C" 3 "A" 1 HC HA) as [Hmem Hsize].
  split; [|exact Hsize].
  apply Hmem. cbn [column row]. split; [repeat constructor|].
  split; vm_compute; split; discriminate.
Defined.

End RangeCells.

(** ** What the patterns of the parser can match *)

Section PatternSoundness.
Import Re.

Lemma rep_greedy_sound {R : Type} (p : ascii -> bool) (k : pos -> option R) (r : R) :
  forall (suf : list ascii) (least : nat) (pre : list ascii),
    rep_greedy p least pre suf k = Some r ->
    exists run_ rest,
      suf = run_ ++ rest /\ Forall (fun c => p c = true) run_ /\
      (least <= length run_)%nat /\ k (rev run_ ++ pre, rest) = Some r.
Proof.
  induction suf as [|c suf IH]; intros least pre H; cbn [rep_greedy] in H.
  - destruct least; [|done]. by exists [], [].
  - destruct (p c) eqn:Hc.
    + destruct (rep_greedy p (Nat.pred least) (c :: pre) suf k) eqn:E.
      * injection H as ->. apply IH in E as (run_ & rest & -> & Hrun & Hleast & Hk).
        exists (c :: run_), rest. split; [done|]. split; [by constructor|].
        split; [cbn; lia|]. cbn [rev]. by rewrite <- app_assoc.
      * destruct least; [|done]. by exists [], (c :: suf).
    + destruct least; [|done]. by exists [], (c :: suf).
Qed.

Lemma run_group_plus_sound {R : Type} (p : ascii -> bool) (pre suf : list ascii)
    (caps : list string) (k : pos -> list string -> option R) (r : R) :
  run (Grp (plus p)) (pre, suf) caps k = Some r ->
  exists run_ rest,
    suf = run_ ++ rest /\ Forall (fun c => p c = true) run_ /\ run_ <> [] /\
    k (rev run_ ++ pre, rest) (caps ++ [Py.str run_]) = Some r.
Proof.
  cbn [run plus fst snd]. intros (run_ & rest & -> & Hrun & Hleast & Hk)%rep_greedy_sound.
  exists run_, rest. split; [done|]. split; [done|].
  split; [by destruct run_; [cbn in Hleast; lia|]|].
  by rewrite captured_run in Hk.
Qed.

Lemma run_lit_sound {R : Type} (c : ascii) (pre suf : list ascii) (caps : list string)
    (k : pos -> list string -> option R) (r : R) :
  run (lit c) (pre, suf) caps k = Some r ->
  exists suf', suf = c :: suf' /\ k (c :: pre, suf') caps = Some r.
Proof.
  cbn [run lit fst snd]. destruct suf as [|a suf]; [done|].
  case_bool_decide as Ha; [|done]. subst a. intros H. by exists suf.
Qed.

Lemma run_WordB_sound {R : Type} (p : pos) (caps : list string)
    (k : pos -> list string -> option R) (r : R) :
  run WordB p caps k = Some r -> k p caps = Some r.
Proof. rewrite run_WordB. by destruct (xorb _ _). Qed.

(** A match of the range pattern: letters, digits, a colon, letters and
    digits, one group each. *)
Lemma range_pattern_sound (p p' : pos) (caps : list string) :
  match_at range_pattern p = Some (p', caps) ->
  exists c1 r1 c2 r2,
    caps = [c1; r1; c2; r2] /\
    is_column_name c1 /\ c1 <> EmptyString /\ is_digits r1 /\
    is_column_name c2 /\ c2 <> EmptyString /\ is_digits r2.
Proof.
  destruct p as [pre suf]. unfold match_at, range_pattern. cbn [seq].
  rewrite run_Cat. intros H%run_WordB_sound.
  rewrite run_Cat in H.
  apply run_group_plus_sound in H as (c1 & rest1 & -> & Hc1 & Hn1 & H).
  rewrite run_Cat in H.
  apply run_group_plus_sound in H as (r1 & rest2 & -> & Hr1 & _ & H).
  rewrite run_Cat in H. apply run_lit_sound in H as (rest3 & -> & H).
  rewrite run_Cat in H.
  apply run_group_plus_sound in H as (c2 & rest4 & -> & Hc2 & Hn2 & H).
  rewrite run_Cat in H.
  apply run_group_plus_sound in H as (r2 & rest5 & -> & Hr2 & _ & H).
  apply run_WordB_sound in H. injection H as _ <-.
  exists (Py.str c1), (Py.str r1), (Py.str c2), (Py.str r2).
  unfold is_column_name, is_digits. rewrite !chars_str.
  split; [done|]. repeat split; try done.
  - intros E. apply (f_equal Py.chars) in E. by rewrite chars_str in E.
  - intros E. apply (f_equal Py.chars) in E. by rewrite chars_str in E.
Qed.

Lemma cell_pattern_sound (p p' : pos) (caps : list string) :
  match_at cell_pattern p = Some (p', caps) ->
  exists c r,
    caps = [c; r] /\ is_column_name c /\ c <> EmptyString /\ is_digits r.
Proof.
  destruct p as [pre suf]. unfold match_at, cell_pattern. cbn [seq].
  rewrite run_Cat. intros H%run_WordB_sound.
  rewrite run_Cat in H.
  apply run_group_plus_sound in H as (c1 & rest1 & -> & Hc1 & Hn1 & H).
  rewrite run_Cat in H.
  apply run_group_plus_sound in H as (r1 & rest2 & -> & Hr1 & _ & H).
  apply run_WordB_sound in H. injection H as _ <-.
  exists (Py.str c1), (Py.str r1).
  unfold is_column_name, is_digits. rewrite !chars_str.
  split; [done|]. repeat split; try done.
  intros E. apply (f_equal Py.chars) in E. by rewrite chars_str in E.
Qed.

(** Whatever [findall] returns are the groups of a match somewhere in
    the subject. *)
Lemma scan_findall_sound (r : regex) (suf : list ascii) :
  forall (skip : nat) (pre : list ascii) (caps : list string),
    caps ∈ scan r (fun caps => [caps]) (fun _ => []) skip pre suf ->
    exists p p', match_at r p = Some (p', caps).
Proof.
  induction suf as [|c suf IH]; intros skip pre caps; cbn [scan].
  - destruct skip; [|by intros ?%elem_of_nil].
    destruct (match_at r (pre, [])) as [[p' caps']|] eqn:E; [|by intros ?%elem_of_nil].
    intros ->%list_elem_of_singleton. by exists (pre, []), p'.
  - destruct skip as [|n]; [|apply IH].
    destruct (match_at r (pre, c :: suf)) as [[p' caps']|] eqn:E; [|apply IH].
    destruct (length (c :: suf) - length p'.2)%nat.
    + cbn [app]. intros [->|H]%elem_of_cons; [by exists (pre, c :: suf), p'|].
      by eapply IH.
    + cbn [app]. intros [->|H]%elem_of_cons; [by exists (pre, c :: suf), p'|].
      by eapply IH.
Qed.

Lemma findall_sound (r : regex) (s : string) (caps : list string) :
  caps ∈ findall r s -> exists p p', match_at r p = Some (p', caps).
Proof. apply scan_findall_sound. Qed.

Lemma int_digits_nonneg (s : string) : is_digits s -> 0 <= Py.int_digits s.
Proof.
  unfold is_digits, Py.int_digits. intros H.
  assert (forall acc, 0 <= acc ->
            0 <= fold_left (fun acc c => acc * 10 + (Py.ord c - 48)) (Py.chars s) acc) as Hacc.
  { induction H as [|c l Hc _ IH]; intros acc Hacc; [done|].
    cbn [fold_left]. apply IH. unfold Py.is_digit, Py.between in Hc. lia. }
  by apply Hacc.
Qed.

Lemma fold_dependencies_ind {A} (P : CellRef -> Prop)
    (step : gset CellRef -> A -> gset CellRef) (l : list A) :
  (forall deps m, m ∈ l -> (forall c, c ∈ deps -> P c) -> forall c, c ∈ step deps m -> P c) ->
  forall deps : gset CellRef,
    (forall c, c ∈ deps -> P c) -> forall c, c ∈ fold_left step l deps -> P c.
Proof.
  induction l as [|m l IH]; intros Hstep deps Hdeps c; cbn [fold_left]; [by apply Hdeps|].
  apply IH.
  - intros deps' m' Hm'. apply Hstep. by right.
  - apply Hstep; [by left|done].
Qed.

End PatternSoundness.

(** ** The dependencies of a formula *)

Section Dependencies.

Lemma column_number_positive (col : string) :
  is_column_name col -> col <> EmptyString -> 1 <= _column_to_number col.
Proof.
  intros Hcol Hne. unfold _column_to_number. rewrite upper_column_name by done.
  unfold is_column_name in Hcol. destruct col as [|c col]; [done|].
  change (Py.chars (String c col)) with (c :: Py.chars col) in *.
  inversion Hcol as [|? ? Hc Hl]; subst. cbn [fold_left].
  apply is_upper_range in Hc.
  assert (forall l acc, Forall (fun c => Py.is_upper c = true) l -> 1 <= acc ->
            1 <= fold_left (fun result char => result * 26 + (Py.ord char - Py.ord "A" + 1))
                           l acc) as Hfold.
  { clear. intros l. induction l as [|c l IH]; intros acc Hl Hacc; [done|].
    inversion Hl as [|? ? Hc%is_upper_range Hl']; subst. cbn [fold_left]. apply IH; [done|].
    change (Py.ord "A") with 65. lia. }
  apply Hfold; [done|]. change (Py.ord "A") with 65. lia.
Qed.

Lemma startswith_upper (s : string) :
  Py.startswith (Py.upper s) "=" = Py.startswith s "=".
Proof.
  destruct s as [|c s]; [done|]. unfold Py.upper.
  change (Py.chars (String c s)) with (c :: Py.chars s). cbn [map Py.str string_of_list_ascii].
  change (string_of_list_ascii (Py.upper_char c :: ?l))
    with (String (Py.upper_char c) (string_of_list_ascii l)).
  cbn [Py.startswith]. unfold Py.upper_char.
  destruct (Py.is_lower c) eqn:E; [|done].
  rewrite bool_decide_eq_false_2.
  - rewrite bool_decide_eq_false_2; [done|]. intros ->. done.
  - unfold Py.is_lower, Py.between in E. intros Heq.
    apply (f_equal Py.ord) in Heq. rewrite ord_chr in Heq by lia.
    change (Py.ord "=") with 61 in Heq. lia.
Qed.

Lemma tail_upper (s : string) : Py.tail (Py.upper s) = Py.upper (Py.tail s).
Proof. by destruct s. Qed.

Lemma upper_char_idemp (c : ascii) : Py.upper_char (Py.upper_char c) = Py.upper_char c.
Proof.
  unfold Py.upper_char at 2. destruct (Py.is_lower c) eqn:E; [|by unfold Py.upper_char; rewrite E].
  assert (Py.is_lower (Py.chr (Py.ord c - 32)) = false) as E'.
  { unfold Py.is_lower, Py.between in *. rewrite ord_chr by lia. lia. }
  unfold Py.upper_char. by rewrite E', E.
Qed.

Lemma upper_idemp (s : string) : Py.upper (Py.upper s) = Py.upper s.
Proof.
  unfold Py.upper. rewrite chars_str, map_map. f_equal.
  apply map_ext. intros c. apply upper_char_idemp.
Qed.

(** The dependencies of a formula do not depend on the case of its
    letters. *)
Theorem extract_dependencies_ignores_case (formula : string) :
  extract_dependencies (Py.upper formula) = extract_dependencies formula.
Proof.
  unfold extract_dependencies. rewrite startswith_upper.
  destruct (Py.startswith formula "=").
  - by rewrite tail_upper, upper_idemp.
  - by rewrite upper_idemp.
Qed.

Lemma extract_dependencies_sound (formula : string) (c : CellRef) :
  c ∈ extract_dependencies formula ->
  is_column_name (column c) /\ column c <> EmptyString /\ 0 <= row c.
Proof.
  unfold extract_dependencies.
  set (text := Py.upper (if Py.startswith formula "=" then Py.tail formula else formula)).
  assert ((if Py.startswith formula "=" then Py.upper (Py.tail formula)
           else Py.upper formula) = text) as Htext by (unfold text; by destruct (Py.startswith _ _)).
  revert c.
  apply fold_dependencies_ind.
  - intros deps m Hm Hdeps c.
    apply findall_sound in Hm as (p & p' & Hm).
    apply cell_pattern_sound in Hm as (col & r & -> & Hcol & Hne & Hr).
    intros [->%elem_of_singleton|Hc]%elem_of_union; [|by apply Hdeps].
    cbn [column row]. split; [done|]. split; [done|]. by apply int_digits_nonneg.
  - apply fold_dependencies_ind.
    + intros deps m Hm Hdeps c.
      apply findall_sound in Hm as (p & p' & Hm).
      apply range_pattern_sound in Hm
        as (c1 & r1 & c2 & r2 & -> & Hc1 & Hn1 & Hr1 & Hc2 & Hn2 & Hr2).
      intros [Hc|Hc]%elem_of_union; [|by apply Hdeps].
      apply (proj1 (expand_range_elem c1 (Py.int_digits r1) c2 (Py.int_digits r2)
                      Hc1 Hc2 c)) in Hc as (Hcol & Hnum & Hrow).
      pose proof (column_number_positive c1 Hc1 Hn1).
      pose proof (column_number_positive c2 Hc2 Hn2).
      pose proof (int_digits_nonneg r1 Hr1). pose proof (int_digits_nonneg r2 Hr2).
      split; [done|]. split; [|lia].
      intros E. rewrite E in Hnum. change (_column_to_number "") with 0 in Hnum. lia.
    + intros c Hc. by apply elem_of_empty in Hc.
Qed.

(** Every cell among the dependencies of a formula has a column of one
    or more capital letters and a row that is not negative. *)
Theorem extract_dependencies_well_formed (formula : string) (c : CellRef) :
  c ∈ extract_dependencies formula ->
  is_column_name (column c) /\ column c <> EmptyString /\ 0 <= row c.
Proof. apply extract_dependencies_sound. Qed.

Lemma extract_dependencies_well_formed_witness :
  mkCellRef "B" 1 ∈ extract_dependencies "=a1+SUM(b1:c2)" /\
  is_column_name "B" /\ 0 <= 1.
Proof.
  assert (mkCellRef "B" 1 ∈ extract_dependencies "=a1+SUM(b1:c2)") as H.
  { apply (bool_decide_unpack _). vm_compute. exact I. }
  split; [exact H|].
  destruct (extract_dependencies_well_formed _ _ H) as (Hcol & _ & Hrow).
  split; [exact Hcol|exact Hrow].
Defined.

End Dependencies.

(** ** The syntax check *)

Section SyntaxCheck.
Import Validation.

Lemma lstrip_nil (l : list ascii) :
  Py.lstrip l = [] <-> Forall (fun c => Py.is_space c = true) l.
Proof.
  induction l as [|c l IH]; cbn [Py.lstrip]; [done|].
  destruct (Py.is_space c) eqn:E.
  - rewrite IH. split; [by constructor|by inversion 1].
  - split; [done|]. inversion 1; congruence.
Qed.

Lemma lstrip_spaces (l : list ascii) :
  Forall (fun c => Py.is_space c = true) (Py.lstrip l) ->
  Forall (fun c => Py.is_space c = true) l.
Proof.
  induction l as [|c l IH]; cbn [Py.lstrip]; [done|].
  destruct (Py.is_space c) eqn:E; [|done]. intros H. constructor; [done|by apply IH].
Qed.

Lemma strip_empty (s : string) : Py.strip s = EmptyString <-> blank s.
Proof.
  unfold Py.strip, blank. split.
  - intros E. apply (f_equal Py.chars) in E. rewrite chars_str in E.
    change (Py.chars "") with (@nil ascii) in E.
    apply (f_equal (@rev ascii)) in E. rewrite rev_involutive in E. cbn in E.
    apply lstrip_nil in E. apply Forall_rev in E. rewrite rev_involutive in E.
    by apply lstrip_spaces in E.
  - intros H%lstrip_nil. by rewrite H.
Qed.

Lemma paren_scan_nonneg (l : list ascii) :
  forall n m, 0 <= n -> paren_scan l n = Some m -> 0 <= m.
Proof.
  induction l as [|c l IH]; intros n m Hn; cbn [paren_scan].
  - by intros [= <-].
  - repeat case_bool_decide.
    + apply IH. lia.
    + destruct (Z.ltb_spec (n - 1) 0); [done|]. by apply IH.
    + by apply IH.
Qed.

Lemma paren_scan_balanced (l : list ascii) :
  balanced l ->
  forall n rest, 0 <= n -> paren_scan (l ++ rest) n = paren_scan rest n.
Proof.
  induction 1 as [|c l Ho Hc _ IH|l1 l2 _ IH1 _ IH2]; intros n rest Hn.
  - done.
  - cbn [app paren_scan]. rewrite !bool_decide_eq_false_2 by done. by apply IH.
  - cbn [app paren_scan]. rewrite bool_decide_eq_true_2 by done.
    rewrite <- app_assoc. rewrite IH1 by lia. cbn [app paren_scan].
    rewrite bool_decide_eq_false_2 by done. rewrite bool_decide_eq_true_2 by done.
    destruct (Z.ltb_spec (n + 1 - 1) 0); [lia|].
    replace (n + 1 - 1) with n by lia. by apply IH2.
Qed.

Lemma closes_nest (n : nat) (l1 l2 : list ascii) :
  balanced l1 -> closes n l2 -> closes n ("("%char :: l1 ++ ")"%char :: l2).
Proof.
  intros H1 H2. destruct n as [|n]; cbn [closes] in *.
  - by constructor.
  - destruct H2 as (l3 & l4 & -> & H3 & H4).
    exists ("("%char :: l1 ++ ")"%char :: l3), l4.
    split; [cbn [app]; by rewrite <- app_assoc|]. split; [by constructor|done].
Qed.

Lemma closes_other (n : nat) (c : ascii) (l : list ascii) :
  c <> "("%char -> c <> ")"%char -> closes n l -> closes n (c :: l).
Proof.
  intros Ho Hc H. destruct n as [|n]; cbn [closes] in *.
  - by constructor.
  - destruct H as (l1 & l2 & -> & H1 & H2).
    exists (c :: l1), l2. split; [done|]. split; [by constructor|done].
Qed.

Lemma paren_scan_closes (l : list ascii) :
  forall n : nat, paren_scan l (Z.of_nat n) = Some 0 -> closes n l.
Proof.
  induction l as [|c l IH]; intros n; cbn [paren_scan].
  - intros [= Hn]. assert (n = 0%nat) as -> by lia. constructor.
  - repeat case_bool_decide.
    + subst c. intros H. replace (Z.of_nat n + 1) with (Z.of_nat (S n)) in H by lia.
      apply IH in H as (l1 & l2 & -> & H1 & H2). by apply closes_nest.
    + subst c. destruct (Z.ltb_spec (Z.of_nat n - 1) 0); [done|].
      destruct n as [|n]; [lia|].
      replace (Z.of_nat (S n) - 1) with (Z.of_nat n) by lia.
      intros Hl%IH. exists [], l. split; [done|]. split; [constructor|done].
    + intros Hl%IH. by apply closes_other.
Qed.

Lemma paren_scan_zero (l : list ascii) :
  paren_scan l 0 = Some 0 <-> balanced l.
Proof.
  split.
  - apply (paren_scan_closes l 0).
  - intros H. rewrite <- (app_nil_r l). by rewrite paren_scan_balanced.
Qed.

Lemma validate_formula_syntax_spec (formula : string) :
  let body := if Py.startswith formula "=" then Py.tail formula else formula in
  match validate_formula_syntax formula with
  | (true, None) => ~ blank body /\ balanced (Py.chars body)
  | (false, Some _) => blank body \/ ~ balanced (Py.chars body)
  | _ => False
  end.
Proof.
  intros body. unfold validate_formula_syntax. fold body.
  case_bool_decide as Hb.
  { left. by apply strip_empty. }
  rewrite strip_empty in Hb.
  destruct (paren_scan (Py.chars body) 0) as [n|] eqn:E.
  - assert (0 <= n) as Hn by (by apply (paren_scan_nonneg _ 0 n ltac:(done) E)).
    destruct (Z.ltb_spec 0 n).
    + right. intros Hbal%paren_scan_zero. rewrite Hbal in E. injection E as <-. lia.
    + assert (n = 0) as -> by lia. split; [done|]. by apply paren_scan_zero.
  - right. intros Hbal%paren_scan_zero. by rewrite Hbal in E.
Qed.

(** [validate_formula_syntax] accepts a formula exactly when what
    follows its leading [=] (the whole text, if it has none) is not
    white space only and its parentheses match; and it accepts with no
    message. *)
Theorem validate_formula_syntax_balanced (formula : string) :
  let body := if Py.startswith formula "=" then Py.tail formula else formula in
  (fst (validate_formula_syntax formula) = true <->
   ~ blank body /\ balanced (Py.chars body)) /\
  (fst (validate_formula_syntax formula) = true ->
   snd (validate_formula_syntax formula) = None).
Proof.
  intros body. pose proof (validate_formula_syntax_spec formula) as H.
  fold body in H. cbv zeta in H.
  destruct (validate_formula_syntax formula) as [[] [msg|]]; cbn [fst snd]; try done.
  split; [|done]. split; [done|]. intros [Hb Hbal]. by destruct H.
Qed.

Lemma paren_scan_none (l : list ascii) :
  forall n : nat,
    paren_scan l (Z.of_nat n) = None ->
    exists l1 l2, l = l1 ++ ")"%char :: l2 /\ closes n l1.
Proof.
  induction l as [|c l IH]; intros n; cbn [paren_scan]; [done|].
  repeat case_bool_decide.
  - subst c. intros H. replace (Z.of_nat n + 1) with (Z.of_nat (S n)) in H by lia.
    apply IH in H as (l1 & l2 & -> & a & b & -> & Ha & Hb).
    exists ("("%char :: a ++ ")"%char :: b), l2. split; [|by apply closes_nest].
    cbn [app]. by rewrite <- app_assoc.
  - subst c. destruct (Z.ltb_spec (Z.of_nat n - 1) 0).
    + intros _. assert (n = 0%nat) as -> by lia.
      exists [], l. split; [done|]. constructor.
    + destruct n as [|n]; [lia|].
      replace (Z.of_nat (S n) - 1) with (Z.of_nat n) by lia.
      intros (l1 & l2 & -> & Hl1)%IH.
      exists (")"%char :: l1), l2. split; [done|].
      exists [], l1. split; [done|]. split; [constructor|done].
  - intros (l1 & l2 & -> & Hl1)%IH.
    exists (c :: l1), l2. split; [done|]. by apply closes_other.
Qed.

(** The messages of a rejection: "Empty formula" when what follows the
    leading [=] is white space only; otherwise "Unmatched closing
    parenthesis" exactly when some closing parenthesis comes after a
    text whose parentheses match, whatever follows it; and "Unmatched
    opening parenthesis" in every other case of parentheses that do not
    match. *)
Theorem validate_formula_syntax_messages (formula : string) :
  let body := if Py.startswith formula "=" then Py.tail formula else formula in
  let closing := exists l1 l2, Py.chars body = l1 ++ ")"%char :: l2 /\ balanced l1 in
  (blank body ->
   validate_formula_syntax formula = (false, Some "Empty formula"%string)) /\
  (~ blank body -> closing ->
   validate_formula_syntax formula
   = (false, Some "Unmatched closing parenthesis"%string)) /\
  (~ blank body -> ~ closing -> ~ balanced (Py.chars body) ->
   validate_formula_syntax formula
   = (false, Some "Unmatched opening parenthesis"%string)).
Proof.
  intros body closing. unfold validate_formula_syntax. fold body.
  split; [|split].
  - intros Hb%strip_empty. by rewrite bool_decide_eq_true_2.
  - intros Hb (l1 & l2 & Hl & Hl1). rewrite <- strip_empty in Hb.
    rewrite bool_decide_eq_false_2 by done.
    by rewrite Hl, paren_scan_balanced.
  - intros Hb Hc Hbal. rewrite <- strip_empty in Hb.
    rewrite bool_decide_eq_false_2 by done.
    destruct (paren_scan (Py.chars body) 0) as [n|] eqn:E.
    + assert (0 <= n) as Hn by (by apply (paren_scan_nonneg _ 0 n ltac:(done) E)).
      destruct (Z.ltb_spec 0 n); [done|].
      assert (n = 0) as -> by lia. by apply paren_scan_zero in E.
    + apply (paren_scan_none _ 0) in E as (l1 & l2 & Hl & Hl1).
      exfalso. apply Hc. by exists l1, l2.
Qed.

Lemma startswith_not_blank (formula : string) :
  Py.startswith formula "=" = true -> ~ blank formula.
Proof.
  destruct formula as [|c s]; [done|]. cbn [Py.startswith].
  intros ->%bool_decide_eq_true. unfold blank.
  change (Py.chars (String "=" s)) with ("="%char :: Py.chars s).
  by inversion 1.
Qed.

(** The route answers that a formula is valid exactly when it starts
    with [=], what follows is not white space only and its parentheses
    match; the answer then lists the dependencies of the formula, and
    every other answer carries an error message and no dependencies. *)
Theorem validate_formula_valid (formula : string) :
  (isValid (validate_formula (Some formula)) = true <->
   Py.startswith formula "=" = true /\ ~ blank (Py.tail formula) /\
   balanced (Py.chars (Py.tail formula))) /\
  (isValid (validate_formula (Some formula)) = true ->
   error (validate_formula (Some formula)) = None /\
   dependencies (validate_formula (Some formula))
   = Some (map CellRef_str (elements (extract_dependencies formula)))) /\
  (isValid (validate_formula (Some formula)) = false ->
   is_Some (error (validate_formula (Some formula))) /\
   dependencies (validate_formula (Some formula)) = None).
Proof.
  unfold validate_formula.
  case_bool_decide as Hb.
  { cbn. split; [|by split; [|eauto]]. split; [done|]. intros (Hs & _ & _).
    apply startswith_not_blank in Hs. exfalso. apply Hs. by apply strip_empty. }
  destruct (Py.startswith formula "=") eqn:Hs; cbn [negb].
  2:{ cbn. split; [|by split; [|eauto]]. split; [done|]. by intros (? & _). }
  pose proof (validate_formula_syntax_spec formula) as H. rewrite Hs in H. cbv zeta in H.
  destruct (validate_formula_syntax formula) as [[] [msg|]]; cbn in *; try done.
  split; [|by split; [|eauto]]. split; [done|]. intros (_ & Hnb & Hbal). by destruct H.
Qed.

End SyntaxCheck.

(** ** More on [add_formula] *)

Section AddFormulaMore.
Implicit Types (g : Graph) (a b c : CellRef).

Lemma back_reference_cycle c d (deps : gset CellRef) (adj : gmap CellRef (gset CellRef)) :
  d ∈ deps -> rtc (edge adj) c d -> tc (edge_with c deps adj) c c.
Proof.
  intros Hd Hcd. eapply tc_rtc_l.
  - eapply rtc_subrel; [|exact Hcd]. intros x y Hxy. by left.
  - apply tc_once. by right.
Qed.

Lemma back_reference_rejected g c formula (deps : gset CellRef) d :
  d ∈ deps -> rtc (edge (adjacency_list (replaced c g))) c d ->
  add_formula c formula deps g = Some (false, replaced c g).
Proof.
  intros Hd Hcd. rewrite add_formula_eq.
  destruct (would_create_cycle_spec c deps (replaced c g)) as (b & -> & Hb).
  destruct b; [done|]. exfalso.
  apply (Hb c c); [set_solver|done|]. by eapply back_reference_cycle.
Qed.

(** A formula is rejected, in every state of the graph, when a cell it
    reads is reached from its own cell along the forward edges; a
    formula that reads its own cell is the shortest case.  The graph is
    left as the removal of the old node of the cell left it. *)
Theorem add_formula_rejects_back_reference g c formula (deps : gset CellRef) d :
  d ∈ deps -> rtc (edge (adjacency_list (replaced c g))) c d ->
  add_formula c formula deps g = Some (false, replaced c g).
Proof. apply back_reference_rejected. Qed.

Lemma add_formula_rejects_back_reference_witness :
  mkCellRef "A" 1 ∈ ({[mkCellRef "A" 1]} : gset CellRef) /\
  add_formula (mkCellRef "A" 1) "=A1+1" {[mkCellRef "A" 1]} init = Some (false, init).
Proof.
  assert (mkCellRef "A" 1 ∈ ({[mkCellRef "A" 1]} : gset CellRef)) as H by set_solver.
  split; [exact H|].
  exact (add_formula_rejects_back_reference init (mkCellRef "A" 1) "=A1+1"
           {[mkCellRef "A" 1]} (mkCellRef "A" 1) H (rtc_refl _ _)).
Defined.

End AddFormulaMore.

(** ** What [_mark_dirty] marks *)

Section MarkDirty.
Implicit Types (g : Graph) (ns : list (CellRef * FormulaNode)).

Lemma mark_dirty_loop_spec ns (fuel : nat) :
  forall (queue : list CellRef) (dirty dirty' : gset CellRef),
    mark_dirty_loop fuel ns queue dirty = Some dirty' ->
    dirty ⊆ dirty' /\
    (forall q, q ∈ queue -> q ∈ dirty') /\
    (forall x, x ∈ dirty' -> x ∉ dirty ->
               exists q, q ∈ queue /\ rtc (dependent_of ns) q x) /\
    (forall x y, x ∈ dirty' -> x ∉ dirty -> dependent_of ns x y -> y ∈ dirty').
Proof.
  induction fuel as [|fuel IH]; intros queue dirty dirty'.
  { destruct queue; [|done]. intros [= <-].
    split; [done|]. split; [by intros ? ?%elem_of_nil|]. split; by intros. }
  destruct queue as [|current queue]; cbn [mark_dirty_loop].
  { intros [= <-]. split; [done|]. split; [by intros ? ?%elem_of_nil|]. split; by intros. }
  destruct (decide (current ∈ dirty)) as [Hin|Hnot].
  - intros (Hsub & Hq & Hreach & Hclosed)%IH.
    split; [done|]. split.
    { intros q [->|Hq']%elem_of_cons; [set_solver|by apply Hq]. }
    split; [|done].
    intros x Hx Hx'. destruct (Hreach x Hx Hx') as (q & Hq' & Hqx).
    exists q. split; [by right|done].
  - destruct (dict_get current ns) as [node|] eqn:Hnode.
    + intros (Hsub & Hq & Hreach & Hclosed)%IH.
      split; [set_solver|]. split.
      { intros q [->|Hq']%elem_of_cons; [set_solver|].
        apply Hq. apply elem_of_app. by left. }
      split.
      * intros x Hx Hx'. destruct (decide (x = current)) as [->|Hne].
        { exists current. split; [by left|done]. }
        destruct (Hreach x Hx ltac:(set_solver)) as (q & [Hq'|Hq']%elem_of_app & Hqx).
        -- exists q. split; [by right|done].
        -- exists current. split; [by left|].
           eapply rtc_l; [|exact Hqx]. exists node. split; [done|].
           by apply elem_of_elements.
      * intros x y Hx Hx' Hxy. destruct (decide (x = current)) as [->|Hne].
        -- destruct Hxy as (node' & Hnode' & Hy). rewrite Hnode in Hnode'.
           injection Hnode' as <-. apply Hq. apply elem_of_app. right.
           by apply elem_of_elements.
        -- apply (Hclosed x y); [done|set_solver|done].
    + intros (Hsub & Hq & Hreach & Hclosed)%IH.
      split; [set_solver|]. split.
      { intros q [->|Hq']%elem_of_cons; [set_solver|by apply Hq]. }
      split.
      * intros x Hx Hx'. destruct (decide (x = current)) as [->|Hne].
        { exists current. split; [by left|done]. }
        destruct (Hreach x Hx ltac:(set_solver)) as (q & Hq' & Hqx).
        exists q. split; [by right|done].
      * intros x y Hx Hx' Hxy. destruct (decide (x = current)) as [->|Hne].
        -- destruct Hxy as (node' & Hnode' & _). by rewrite Hnode in Hnode'.
        -- apply (Hclosed x y); [done|set_solver|done].
Qed.

Lemma mark_dirty_spec c g :
  exists d,
    _mark_dirty c g = Some (set_dirty g d) /\
    _dirty_cells g ⊆ d /\ c ∈ d /\
    (forall x, x ∈ d -> x ∉ _dirty_cells g -> rtc (dependent_of (nodes g)) c x) /\
    (forall x y, x ∈ d -> x ∉ _dirty_cells g -> dependent_of (nodes g) x y -> y ∈ d).
Proof.
  destruct (mark_dirty_total c g) as [d Hd]. exists d. split; [done|].
  unfold _mark_dirty in Hd.
  destruct (mark_dirty_loop _ _ _ _) as [d'|] eqn:E; [|done].
  assert (d' = d) as -> by (by injection Hd).
  apply mark_dirty_loop_spec in E as (Hsub & Hq & Hreach & Hclosed).
  split; [done|]. split; [apply Hq; by left|]. split; [|done].
  intros x Hx Hx'. destruct (Hreach x Hx Hx') as (q & ->%list_elem_of_singleton & Hqx).
  done.
Qed.

(** [_mark_dirty] returns, changes nothing but the set of dirty cells,
    and leaves in it what was there, the cell itself and, from every
    cell it has newly marked, the dependents of its node; every newly
    marked cell is reached from the cell along dependents. *)
Theorem mark_dirty_marks_dependents c g :
  exists d,
    _mark_dirty c g = Some (set_dirty g d) /\
    _dirty_cells g ⊆ d /\ c ∈ d /\
    (forall x, x ∈ d -> x ∉ _dirty_cells g -> rtc (dependent_of (nodes g)) c x) /\
    (forall x y, x ∈ d -> x ∉ _dirty_cells g -> dependent_of (nodes g) x y -> y ∈ d).
Proof. apply mark_dirty_spec. Qed.

End MarkDirty.

(** ** The graph after an accepted formula *)

Section Inserted.
Implicit Types (g : Graph) (a b c : CellRef).

Lemma with_dependents_add_idemp X (n : FormulaNode) :
  with_dependents (fun s => {[X]} ∪ s) (with_dependents (fun s => {[X]} ∪ s) n)
  = with_dependents (fun s => {[X]} ∪ s) n.
Proof. unfold with_dependents. cbn. f_equal. set_solver. Qed.

Lemma fold_add_dependency_edge_nodes X l g :
  let g' := fold_left (add_dependency_edge X) l g in
  (forall b, dict_get b (nodes g')
             = if decide (b ∈ l)
               then with_dependents (fun s => {[X]} ∪ s) <$> dict_get b (nodes g)
               else dict_get b (nodes g))
  /\ (forall a, dd_get (reverse_adjacency_list g') a
                = if decide (a = X)
                  then list_to_set l ∪ dd_get (reverse_adjacency_list g) a
                  else dd_get (reverse_adjacency_list g) a).
Proof.
  revert g. induction l as [|d l IH]; intros g; cbn [fold_left].
  - split.
    + intros b. rewrite decide_False; [done|]. by intros ?%elem_of_nil.
    + intros a. destruct (decide (a = X)); [|done]. cbn. set_solver.
  - destruct (IH (add_dependency_edge X g d)) as (Hnodes & Hrev). split.
    + intros b. rewrite Hnodes. cbn [add_dependency_edge set_nodes set_reverse
        set_adjacency nodes]. rewrite dict_get_alter.
      destruct (decide (d = b)) as [->|Hne].
      * rewrite (decide_True (P := b ∈ b :: l)) by (by left).
        destruct (decide (b ∈ l)); [|done].
        destruct (dict_get b (nodes g)) as [n|]; [|done].
        cbn. by rewrite with_dependents_add_idemp.
      * destruct (decide (b ∈ l)).
        -- rewrite decide_True; [done|by right].
        -- rewrite decide_False; [done|]. by intros [?|?]%elem_of_cons.
    + intros a. rewrite Hrev. cbn [add_dependency_edge set_nodes set_reverse
        set_adjacency reverse_adjacency_list]. rewrite dd_get_update.
      destruct (decide (a = X)) as [->|Hne].
      * rewrite decide_True by done. cbn [list_to_set]. set_solver.
      * by rewrite decide_False.
Qed.

Lemma replaced_keys c g b :
  b ∈ dict_keys (nodes (replaced c g)) <-> b <> c /\ b ∈ dict_keys (nodes g).
Proof.
  unfold replaced. destruct (dict_mem c (nodes g)) eqn:Hmem.
  - apply dict_mem_keys, dict_get_keys in Hmem as [node Hnode].
    by destruct (remove_node_spec c g node Hnode) as (_ & Hkeys & _).
  - apply dict_mem_false in Hmem. split; [|by intros [_ ?]].
    intros Hb. split; [|done]. by intros ->.
Qed.

Lemma replaced_dirty c g : _dirty_cells (replaced c g) = _dirty_cells g.
Proof.
  unfold replaced. destruct (dict_mem c (nodes g)); [|done].
  unfold _remove_node. destruct (dict_get c (nodes g)) as [node|]; [|done].
  cbn [set_nodes set_reverse set_adjacency _dirty_cells].
  assert (forall (f : Graph -> CellRef -> Graph) l g0,
            (forall g1 x, _dirty_cells (f g1 x) = _dirty_cells g1) ->
            _dirty_cells (fold_left f l g0) = _dirty_cells g0) as Hfold.
  { clear. intros f l. induction l as [|x l IH]; intros g0 Hf; [done|].
    cbn [fold_left]. by rewrite IH, Hf. }
  rewrite Hfold by done. by rewrite Hfold.
Qed.

Lemma accepted_not_self c (deps : gset CellRef) g :
  _would_create_cycle c deps g = Some false -> c ∉ deps.
Proof.
  intros Hw Hc.
  destruct (would_create_cycle_spec c deps g) as (b & Hb & Hspec).
  rewrite Hw in Hb. injection Hb as <-.
  apply (Hspec c c); [set_solver|done|]. by eapply back_reference_cycle.
Qed.

Lemma add_formula_accepted c formula (deps : gset CellRef) g g' :
  add_formula c formula deps g = Some (true, g') ->
  (c ∉ deps) /\
  dict_get c (nodes g') = Some (mkNode c formula deps ∅ None false false None) /\
  (forall b, b ∈ dict_keys (nodes g') <-> b = c \/ b ∈ dict_keys (nodes g)) /\
  (forall a b, edge (adjacency_list g') a b
               <-> edge_with c deps (adjacency_list (replaced c g)) a b) /\
  (forall dep node, dep ∈ deps -> dict_get dep (nodes g') = Some node ->
                    c ∈ dependents node) /\
  deps ⊆ dd_get (reverse_adjacency_list g') c /\
  c ∈ _dirty_cells g' /\ _dirty_cells g ⊆ _dirty_cells g'.
Proof.
  intros Hadd.
  destruct (add_formula_total c formula deps g) as (ok & g2 & Hadd' & Hres).
  rewrite Hadd in Hadd'. injection Hadd' as <- <-.
  destruct Hres as (Hw & d & o & -> & Hupd).
  pose proof (accepted_not_self _ _ _ Hw) as Hself.
  destruct (inserted_spec c formula deps (replaced c g)) as (Hedge & _ & Hkeys & Hdirty).
  cbv zeta in *.
  set (g0 := replaced c g) in *.
  set (g1 := set_nodes g0 (dict_set c (mkNode c formula deps ∅ None false false None)
                                    (nodes g0))).
  destruct (fold_add_dependency_edge_nodes c (elements deps) g1) as (Hnodes & Hrev).
  fold (inserted c formula deps g0) in Hnodes, Hrev.
  cbn [set_order set_dirty nodes adjacency_list reverse_adjacency_list _dirty_cells].
  split; [done|]. split.
  { rewrite Hnodes. rewrite decide_False by (by rewrite elem_of_elements).
    cbn [g1 set_nodes nodes]. rewrite dict_get_set. by rewrite decide_True. }
  split.
  { intros b. rewrite Hkeys. unfold g0. rewrite replaced_keys.
    destruct (decide (b = c)); naive_solver. }
  split; [done|]. split.
  { intros dep node Hdep. rewrite Hnodes.
    rewrite decide_True by (by rewrite elem_of_elements).
    destruct (dict_get dep (nodes g1)) as [n|]; [|done]. cbn.
    intros [= <-]. cbn. set_solver. }
  split.
  { rewrite Hrev. rewrite decide_True by done.
    intros x Hx. apply elem_of_union. left.
    by apply elem_of_list_to_set, elem_of_elements. }
  destruct (mark_dirty_spec c (inserted c formula deps g0)) as (d' & Hd' & Hsub & Hc & _).
  assert (d' = d) as ->.
  { pose proof Hadd as Hadd2. rewrite add_formula_eq in Hadd2. fold g0 in Hadd2.
    rewrite Hw, Hd' in Hadd2.
    destruct (update_evaluation_order_total (set_dirty (inserted c formula deps g0) d'))
      as [o' Ho']. rewrite Ho' in Hadd2.
    unfold set_order, set_dirty in Hadd2. cbn in Hadd2. by injection Hadd2. }
  split; [done|]. rewrite Hdirty in Hsub. unfold g0 in Hsub.
  by rewrite replaced_dirty in Hsub.
Qed.

(** When [add_formula] accepts a formula, the node table holds for the
    cell a new node with the formula and the dependencies given, not
    evaluated and with no dependents; the other cells that had a node
    keep one; the forward edges are those left by the removal of the old
    node of the cell and one from every dependency to the cell; every
    dependency that has a node has the cell among its dependents; and
    the cell is dirty, with every cell that was. *)
Theorem add_formula_inserts c formula (deps : gset CellRef) g g' :
  add_formula c formula deps g = Some (true, g') ->
  (c ∉ deps) /\
  dict_get c (nodes g') = Some (mkNode c formula deps ∅ None false false None) /\
  (forall b, b ∈ dict_keys (nodes g') <-> b = c \/ b ∈ dict_keys (nodes g)) /\
  (forall a b, edge (adjacency_list g') a b
               <-> edge_with c deps (adjacency_list (replaced c g)) a b) /\
  (forall dep node, dep ∈ deps -> dict_get dep (nodes g') = Some node ->
                    c ∈ dependents node) /\
  deps ⊆ dd_get (reverse_adjacency_list g') c /\
  c ∈ _dirty_cells g' /\ _dirty_cells g ⊆ _dirty_cells g'.
Proof. apply add_formula_accepted. Qed.

(** When the formula of a cell that has a node is set again, the cell
    has no forward edge afterwards: the edges to the formulas that read
    it go with its old node and are not put back, whether or not those
    formulas still name it among their dependencies. *)
Theorem add_formula_update_drops_forward_edges c formula (deps : gset CellRef) g g' :
  dict_mem c (nodes g) = true ->
  add_formula c formula deps g = Some (true, g') ->
  dd_get (adjacency_list g') c = ∅.
Proof.
  intros Hmem Hadd.
  destruct (add_formula_accepted _ _ _ _ _ Hadd) as (Hself & _ & _ & Hedge & _).
  apply set_eq. intros b. split; [|set_solver].
  intros Hb. apply (Hedge c b) in Hb as [Hb|[Hc _]]; [|done].
  unfold replaced in Hb. rewrite Hmem in Hb.
  apply dict_mem_keys, dict_get_keys in Hmem as [node Hnode].
  destruct (remove_node_spec c g node Hnode) as (Hadj & _).
  unfold edge in Hb. rewrite Hadj in Hb. by rewrite decide_True in Hb.
Qed.

End Inserted.

(** ** Invariants of the graph *)

Section ReachableStates.
Implicit Types (g : Graph) (a b c : CellRef).

Lemma dict_keys_del {V : Type} (k : CellRef) (m : list (CellRef * V)) :
  dict_keys (dict_del k m) = filter (fun k' => k' <> k) (dict_keys m).
Proof.
  induction m as [|[k' v] m IH]; [done|]. cbn [dict_del].
  change (dict_keys ((k', v) :: m)) with (k' :: dict_keys m).
  rewrite filter_cons. destruct (decide (k = k')) as [->|Hne].
  - by rewrite decide_False by (by intros H; apply H).
  - rewrite decide_True by (by intros ->).
    change (dict_keys ((k', v) :: ?l)) with (k' :: dict_keys l). by rewrite IH.
Qed.

Lemma filter_all {A} (P : A -> Prop) `{forall x, Decision (P x)} (l : list A) :
  Forall P l -> filter P l = l.
Proof.
  induction 1 as [|x l Hx _ IH]; [done|]. rewrite filter_cons.
  by rewrite decide_True, IH.
Qed.

Lemma remove_node_keys c g :
  dict_keys (nodes (_remove_node c g)) = filter (fun k => k <> c) (dict_keys (nodes g)).
Proof.
  unfold _remove_node. destruct (dict_get c (nodes g)) as [node|] eqn:Hnode.
  - set (g1 := fold_left (remove_dependency_edge c) (elements (dependencies node)) g).
    destruct (fold_remove_dependency_edge c (elements (dependencies node)) g)
      as (_ & Hkeys1 & _). fold g1 in Hkeys1.
    set (l2 := elements match dict_get c (nodes g1) with
                        | Some node' => dependents node'
                        | None => ∅
                        end).
    destruct (fold_remove_dependent_edge c l2 g1) as (_ & Hkeys2 & _).
    cbn [set_nodes set_reverse set_adjacency nodes].
    by rewrite dict_keys_del, Hkeys2, Hkeys1.
  - apply dict_get_None in Hnode. symmetry. apply filter_all.
    apply Forall_forall. intros k Hk ->. done.
Qed.

Lemma replaced_NoDup c g :
  NoDup (dict_keys (nodes g)) -> NoDup (dict_keys (nodes (replaced c g))).
Proof.
  intros H. unfold replaced. destruct (dict_mem c (nodes g)); [|done].
  rewrite remove_node_keys. by apply NoDup_filter.
Qed.

Lemma inserted_keys c formula deps g :
  dict_keys (nodes (inserted c formula deps g))
  = dict_keys (dict_set c (mkNode c formula deps ∅ None false false None) (nodes g)).
Proof.
  unfold inserted.
  by destruct (fold_add_dependency_edge c (elements deps)
                 (set_nodes g (dict_set c (mkNode c formula deps ∅ None false false None)
                                        (nodes g)))) as (_ & -> & _).
Qed.

Lemma add_formula_NoDup c formula deps g ok g' :
  NoDup (dict_keys (nodes g)) -> add_formula c formula deps g = Some (ok, g') ->
  NoDup (dict_keys (nodes g')).
Proof.
  intros Hnd Hadd.
  destruct (add_formula_total c formula deps g) as (ok' & g2 & Hadd' & Hres).
  rewrite Hadd in Hadd'. injection Hadd' as <- <-.
  destruct ok.
  - destruct Hres as (_ & d & o & -> & _).
    cbn [set_order set_dirty nodes]. rewrite inserted_keys.
    by apply NoDup_dict_keys_set, replaced_NoDup.
  - destruct Hres as (_ & ->). by apply replaced_NoDup.
Qed.

Lemma mark_cell_evaluated_keys c v e msg g :
  dict_keys (nodes (mark_cell_evaluated c v e msg g)) = dict_keys (nodes g).
Proof.
  unfold mark_cell_evaluated. destruct (dict_mem c (nodes g)); [|done].
  cbn [set_dirty set_nodes nodes]. apply dict_keys_alter.
Qed.

Lemma reachable_NoDup g : reachable g -> NoDup (dict_keys (nodes g)).
Proof.
  induction 1 as [|g c formula deps ok g' _ IH Hadd|g c v e msg _ IH].
  - constructor.
  - by eapply add_formula_NoDup.
  - by rewrite mark_cell_evaluated_keys.
Qed.

(** In every state that [add_formula] and [mark_cell_evaluated] can
    bring about, no cell has two nodes, every forward edge leads to a
    node that has the source of the edge among its dependencies, the
    forward edges have no cycle, and the search for a cycle and the
    statistics of the graph say so. *)
Theorem reachable_graph_invariants g :
  reachable g ->
  NoDup (dict_keys (nodes g)) /\
  (forall a b, edge (adjacency_list g) a b ->
               exists node, dict_get b (nodes g) = Some node /\ a ∈ dependencies node) /\
  (forall c, ~ tc (edge (adjacency_list g)) c c) /\
  has_circular_dependency g = Some (false, None) /\
  has_cycles <$> get_graph_stats g = Some false.
Proof.
  intros Hg. pose proof (reachable_well_formed g Hg) as [Hdeps Hacyc].
  pose proof (reachable_no_cycle g Hg) as Hcheck.
  split; [by apply reachable_NoDup|]. split.
  { intros a b Hab. destruct (Hdeps a b Hab) as (s & Hs & Ha).
    unfold deps_of in Hs. destruct (dict_get b (nodes g)) as [node|]; [|done].
    injection Hs as <-. by exists node. }
  split; [done|]. split; [done|].
  unfold get_graph_stats. by rewrite Hcheck.
Qed.

End ReachableStates.

(** ** The evaluation order in general *)

Section EvaluationOrder.
Implicit Types (g : Graph) (a b c : CellRef).

Lemma kahn_order g order :
  NoDup (dict_keys (nodes g)) -> edges_match_dependencies g ->
  _update_evaluation_order g = Some (set_order g order) ->
  exists deg, kahn_inv g deg [] order.
Proof.
  intros Hnd Hmatch Ho. unfold _update_evaluation_order in Ho.
  destruct (dict_keys (nodes g)) as [|k keys'] eqn:Hkeys.
  { unfold set_order in Ho. injection Ho as <-. exists ∅.
    split; cbn [app].
    - constructor.
    - by intros c ?%elem_of_nil.
    - intros c. rewrite Hkeys. by intros ?%elem_of_nil.
    - intros c. rewrite Hkeys. by intros ?%elem_of_nil.
    - intros i j a b Hi. by rewrite lookup_nil in Hi. }
  rewrite <- Hkeys in *. clear k keys' Hkeys.
  set (deg0 := fold_left (count_formula_dependencies (nodes g)) (dict_keys (nodes g)) ∅) in *.
  set (queue0 := filter (fun node => deg_get deg0 node = 0) (dict_keys (nodes g))) in *.
  destruct (kahn_loop _ g deg0 queue0 []) as [order'|] eqn:Hloop; [|done].
  assert (order' = order) as ->.
  { cbn in Ho. unfold set_order in Ho. by injection Ho. }
  assert (forall c, c ∈ dict_keys (nodes g) -> deg_get deg0 c = waiting g [] c) as Hdeg0.
  { intros c Hc. unfold deg0. rewrite initial_degrees. by rewrite decide_True. }
  eapply (kahn_loop_inv g Hmatch) in Hloop as [deg' Hinv]; [by exists deg'|].
  split; cbn [app].
  - by apply NoDup_filter.
  - by intros c [_ ?]%list_elem_of_filter.
  - done.
  - intros c Hc. unfold queue0. rewrite list_elem_of_filter, Hdeg0 by done. tauto.
  - intros i j a b Hi. by rewrite lookup_nil in Hi.
Qed.

Lemma tc_in_order g order a b :
  edges_match_dependencies g -> topological g order ->
  (forall c, c ∈ dict_keys (nodes g) -> c ∈ order) ->
  tc (edge (adjacency_list g)) a b -> a ∈ order ->
  exists i j, order !! i = Some a /\ order !! j = Some b /\ (i < j)%nat.
Proof.
  intros Hmatch Htopo Hall Hab. induction Hab as [a b Hab|a y b Hay _ IH]; intros Ha.
  - apply list_elem_of_lookup in Ha as [i Hi].
    pose proof (edge_target_key g Hmatch a b Hab) as Hb.
    apply Hall, list_elem_of_lookup in Hb as [j Hj].
    exists i, j. split; [done|]. split; [done|]. by eapply Htopo.
  - pose proof (edge_target_key g Hmatch a y Hay) as Hy.
    apply Hall in Hy. destruct (IH Hy) as (j & k & Hj & Hk & Hjk).
    apply list_elem_of_lookup in Ha as [i Hi].
    exists i, k. split; [done|]. split; [done|].
    pose proof (Htopo i j a y Hi Hj Hay). lia.
Qed.

Lemma evaluation_order_general g :
  NoDup (dict_keys (nodes g)) -> edges_match_dependencies g ->
  exists order,
    _update_evaluation_order g = Some (set_order g order) /\
    NoDup order /\
    (forall c, c ∈ order <->
               c ∈ dict_keys (nodes g) /\
               forall d, d ∈ default ∅ (deps_of g c) -> d ∈ dict_keys (nodes g) -> d ∈ order) /\
    topological g order /\
    (length order = length (nodes g) <-> acyclic g).
Proof.
  intros Hnd Hmatch.
  destruct (update_evaluation_order_total g) as [order Ho].
  destruct (kahn_order g order Hnd Hmatch Ho) as [deg Hinv].
  exists order. split; [done|].
  pose proof Hinv as Hinv0.
  destruct Hinv as [Hnd' Hkeys _ Hzero Htopo]. rewrite app_nil_r in Hnd', Hkeys, Hzero.
  split; [done|]. split.
  { intros c. split.
    - intros Hc. split; [by apply Hkeys|].
      by apply (waiting_zero g order c), Hzero; [apply Hkeys|].
    - intros [Hc Hd]. apply Hzero; [done|]. by apply waiting_zero. }
  split; [done|]. split.
  - intros Hlen c Hcc.
    assert (forall x, x ∈ dict_keys (nodes g) -> x ∈ order) as Hall.
    { assert (order ≡ₚ dict_keys (nodes g)) as Hperm.
      { apply submseteq_length_Permutation.
        - by apply NoDup_submseteq.
        - unfold dict_keys. rewrite length_fmap. lia. }
      intros x Hx. by rewrite Hperm. }
    assert (c ∈ order) as Hc.
    { destruct (tc_target _ _ _ Hcc) as [z Hz].
      by apply Hall, (edge_target_key g Hmatch z c). }
    destruct (tc_in_order g order c c Hmatch Htopo Hall Hcc Hc) as (i & j & Hi & Hj & Hij).
    pose proof (NoDup_lookup _ _ _ _ Hnd' Hi Hj). lia.
  - intros Hacyc.
    assert (order ≡ₚ dict_keys (nodes g)) as Hperm.
    { apply NoDup_Permutation; [done|done|]. intros c. split; [apply Hkeys|].
      by apply (kahn_complete g Hmatch deg order Hacyc). }
    rewrite Hperm. unfold dict_keys. by rewrite length_fmap.
Qed.

(** On a graph in which no cell has two nodes and the forward edges are
    the dependencies of the nodes read backwards,
    [_update_evaluation_order] stores an order without repetition that
    holds exactly the nodes all of whose node dependencies it holds,
    each after the nodes it reads; it holds every node exactly when the
    graph has no cycle, so that an order shorter than the node table
    tells of a cycle. *)
Theorem evaluation_order_complete_iff_acyclic g :
  NoDup (dict_keys (nodes g)) -> edges_match_dependencies g ->
  exists order,
    _update_evaluation_order g = Some (set_order g order) /\
    NoDup order /\
    (forall c, c ∈ order <->
               c ∈ dict_keys (nodes g) /\
               forall d, d ∈ default ∅ (deps_of g c) -> d ∈ dict_keys (nodes g) -> d ∈ order) /\
    topological g order /\
    (length order = length (nodes g) <-> acyclic g).
Proof. apply evaluation_order_general. Qed.

End EvaluationOrder.

(** ** The properties above on small graphs *)

Section GraphExamples.

Lemma add_formula_inserts_witness :
  exists g',
    add_formula (mkCellRef "A" 1) "=A2" {[mkCellRef "A" 2]} init = Some (true, g') /\
    dict_get (mkCellRef "A" 1) (nodes g')
    = Some (mkNode (mkCellRef "A" 1) "=A2" {[mkCellRef "A" 2]} ∅ None false false None) /\
    mkCellRef "A" 1 ∈ _dirty_cells g'.
Proof.
  destruct (add_formula (mkCellRef "A" 1) "=A2" {[mkCellRef "A" 2]} init)
    as [[[] g']|] eqn:H; try (vm_compute in H; discriminate H).
  exists g'. split; [reflexivity|].
  destruct (add_formula_inserts _ _ _ _ _ H) as (_ & Hnode & _ & _ & _ & _ & Hdirty & _).
  split; [exact Hnode|exact Hdirty].
Defined.

Lemma add_formula_update_drops_forward_edges_witness :
  exists g g',
    add_all grid_A1_reads_A2 init = Some ([true; true], g) /\
    dict_mem (mkCellRef "A" 2) (nodes g) = true /\
    add_formula (mkCellRef "A" 2) "=6" ∅ g = Some (true, g') /\
    dd_get (adjacency_list g') (mkCellRef "A" 2) = ∅.
Proof.
  destruct (add_all grid_A1_reads_A2 init) as [[oks g]|] eqn:Hg;
    [|vm_compute in Hg; discriminate Hg].
  assert (oks = [true; true]) as -> by (vm_compute in Hg; by injection Hg).
  assert (dict_mem (mkCellRef "A" 2) (nodes g) = true) as Hmem.
  { vm_compute in Hg. injection Hg as <-. reflexivity. }
  destruct (add_formula (mkCellRef "A" 2) "=6" ∅ g) as [[[] g']|] eqn:H.
  - exists g, g'. split; [reflexivity|]. split; [exact Hmem|]. split; [exact H|].
    exact (add_formula_update_drops_forward_edges _ _ _ _ _ Hmem H).
  - exfalso. vm_compute in Hg. injection Hg as <-. vm_compute in H. discriminate H.
  - exfalso. vm_compute in Hg. injection Hg as <-. vm_compute in H. discriminate H.
Defined.

Lemma reachable_graph_invariants_witness :
  exists g,
    add_all grid_A1_reads_A2 init = Some ([true; true], g) /\
    reachable g /\ has_circular_dependency g = Some (false, None).
Proof.
  destruct (add_formula (mkCellRef "A" 1) "=A2" {[mkCellRef "A" 2]} init)
    as [[ok1 g1]|] eqn:H1; [|vm_compute in H1; discriminate H1].
  destruct (add_formula (mkCellRef "A" 2) "=5" ∅ g1)
    as [[ok2 g2]|] eqn:H2;
    [|vm_compute in H1; injection H1 as <- <-; vm_compute in H2; discriminate H2].
  assert (reachable g2) as Hr.
  { eapply reachable_add; [|exact H2]. eapply reachable_add; [|exact H1].
    apply reachable_init. }
  exists g2. split.
  { unfold grid_A1_reads_A2. cbn [add_all]. rewrite H1. cbn [mbind option_bind].
    rewrite H2. cbn [mbind option_bind].
    vm_compute in H1. injection H1 as <- <-. vm_compute in H2. by injection H2 as <- _. }
  split; [exact Hr|].
  exact (proj1 (proj2 (proj2 (proj2 (reachable_graph_invariants g2 Hr))))).
Defined.

Lemma graph_mutual_cycle_matches : edges_match_dependencies graph_mutual_cycle.
Proof.
  intros a b. unfold edge, dd_get, deps_of, graph_mutual_cycle.
  cbn [adjacency_list nodes dict_get].
  destruct (decide (a = mkCellRef "A" 1)) as [->|Ha1];
    [rewrite lookup_insert_eq
    |rewrite lookup_insert_ne by done;
     destruct (decide (a = mkCellRef "A" 2)) as [->|Ha2];
       [rewrite lookup_insert_eq|rewrite lookup_insert_ne, lookup_empty by done]];
    cbn [default];
    (destruct (decide (b = mkCellRef "A" 1)) as [->|Hb1];
       [|destruct (decide (b = mkCellRef "A" 2)) as [->|Hb2]]);
    cbn [fmap option_fmap option_map dependencies];
    split; try (intros H; set_solver); try (intros (s & [= <-] & H); set_solver);
    try (by intros (s & ? & ?)).
  all: try (intros _; eexists; split; [reflexivity|set_solver]).
Qed.

Lemma evaluation_order_complete_iff_acyclic_witness :
  NoDup (dict_keys (nodes graph_mutual_cycle)) /\
  edges_match_dependencies graph_mutual_cycle /\
  _update_evaluation_order graph_mutual_cycle = Some (set_order graph_mutual_cycle []) /\
  ~ acyclic graph_mutual_cycle.
Proof.
  assert (NoDup (dict_keys (nodes graph_mutual_cycle))) as Hnd.
  { apply (bool_decide_unpack _). vm_compute. exact I. }
  split; [exact Hnd|]. split; [exact graph_mutual_cycle_matches|].
  destruct (evaluation_order_complete_iff_acyclic graph_mutual_cycle Hnd
              graph_mutual_cycle_matches) as (order & Ho & _ & _ & _ & Hiff).
  assert (_update_evaluation_order graph_mutual_cycle
          = Some (set_order graph_mutual_cycle [])) as Hv by (vm_compute; reflexivity).
  split; [exact Hv|].
  rewrite Hv in Ho. unfold set_order in Ho. injection Ho as <-.
  intros Hacyc%Hiff. discriminate Hacyc.
Defined.

End GraphExamples.

(** ** The patterns of the evaluator *)

Section EvaluatorPatterns.
Import Re.

Lemma run_Bol {R : Type} (suf : list ascii) (caps : list string)
    (k : pos -> list string -> option R) :
  run Bol ([], suf) caps k = k ([], suf) caps.
Proof. reflexivity. Qed.

Lemma run_Eol {R : Type} (pre : list ascii) (caps : list string)
    (k : pos -> list string -> option R) :
  run Eol (pre, []) caps k = k (pre, []) caps.
Proof. reflexivity. Qed.

Lemma run_Eol_sound {R : Type} (p : pos) (caps : list string)
    (k : pos -> list string -> option R) (r : R) :
  run Eol p caps k = Some r ->
  (p.2 = [] \/ p.2 = [newline]) /\ k p caps = Some r.
Proof.
  cbn [run]. unfold at_eol. destruct p as [pre [|c [|c' suf]]]; cbn [snd]; try done.
  - intros H. split; [by left|done].
  - case_bool_decide as Hc; [|done]. subst c. intros H. split; [by right|done].
Qed.

Lemma str_inj (l1 l2 : list ascii) : Py.str l1 = Py.str l2 -> l1 = l2.
Proof. intros E. apply (f_equal Py.chars) in E. by rewrite !chars_str in E. Qed.

Lemma chars_nil (s : string) : Py.chars s = [] -> s = EmptyString.
Proof. by destruct s. Qed.

(** [^([A-Z]+)(\d+)$] matches the text of a cell reference, and its
    groups are the column and the row. *)
Lemma match_cell_ref_re (c r : list ascii) :
  Forall (fun a => Py.is_upper a = true) c -> c <> [] ->
  Forall (fun a => Py.is_digit a = true) r -> r <> [] ->
  match_ cell_ref_re (Py.str (c ++ r)) = Some [Py.str c; Py.str r].
Proof.
  intros Hc Hcn Hr Hrn. unfold match_. rewrite chars_str.
  assert (match_at cell_ref_re ([], c ++ r)
          = Some ((rev r ++ rev c ++ [], []), [Py.str c; Py.str r])) as ->; [|done].
  unfold match_at, cell_ref_re.
  cbn [seq]. rewrite run_Cat, run_Bol, run_Cat.
  apply run_group_plus; [done|done| |].
  { destruct r as [|a r]; [done|]. apply digit_not_upper. by inversion Hr. }
  rewrite run_Cat. rewrite <- (app_nil_r r) at 1.
  apply run_group_plus; [done|done|done|].
  by rewrite run_Eol.
Qed.

(** What [^([A-Z]+)(\d+)$] matches is letters and then digits, with at
    most a newline behind. *)
Lemma match_cell_ref_re_sound (s : string) (caps : list string) :
  match_ cell_ref_re s = Some caps ->
  exists c r,
    caps = [Py.str c; Py.str r] /\
    Forall (fun a => Py.is_upper a = true) c /\ c <> [] /\
    Forall (fun a => Py.is_digit a = true) r /\ r <> [] /\
    (Py.chars s = c ++ r \/ Py.chars s = c ++ r ++ [newline]).
Proof.
  unfold match_, match_at, cell_ref_re. cbn [seq].
  destruct (run _ _ _ _) as [[p' caps']|] eqn:H; [|done]. cbn. intros [= <-].
  rewrite run_Cat, run_Bol, run_Cat in H.
  apply run_group_plus_sound in H as (c & rest1 & E1 & Hc & Hcn & H).
  rewrite run_Cat in H.
  apply run_group_plus_sound in H as (r & rest2 & -> & Hr & Hrn & H).
  apply run_Eol_sound in H as [Hend H]. cbn [snd] in Hend. injection H as _ <-.
  exists c, r. split; [done|]. repeat (split; [done|]).
  rewrite E1. destruct Hend as [->| ->]; [left; by rewrite app_nil_r|by right].
Qed.

(** [^([A-Z]+)(\d+):([A-Z]+)(\d+)$] matches the text of a range. *)
Lemma match_range_re (c1 r1 c2 r2 : string) :
  is_column_name c1 -> c1 <> EmptyString -> is_digits r1 -> r1 <> EmptyString ->
  is_column_name c2 -> c2 <> EmptyString -> is_digits r2 -> r2 <> EmptyString ->
  match_ range_re (Py.str (range_text c1 r1 c2 r2)) = Some [c1; r1; c2; r2].
Proof.
  intros Hc1 Hn1 Hr1 Hm1 Hc2 Hn2 Hr2 Hm2.
  pose proof (chars_nonempty c1 Hn1). pose proof (chars_nonempty r1 Hm1).
  pose proof (chars_nonempty c2 Hn2). pose proof (chars_nonempty r2 Hm2).
  unfold is_column_name, is_digits in *.
  unfold match_, range_text. rewrite chars_str.
  assert (match_at range_re
            ([], Py.chars c1 ++ Py.chars r1 ++ ":"%char :: Py.chars c2 ++ Py.chars r2)
          = Some ((rev (Py.chars r2) ++ rev (Py.chars c2) ++ ":"%char
                     :: rev (Py.chars r1) ++ rev (Py.chars c1) ++ [], []),
                  [c1; r1; c2; r2])) as ->; [|done].
  unfold match_at, range_re.
  cbn [seq]. rewrite run_Cat, run_Bol, run_Cat.
  apply run_group_plus; [done|done| |].
  { destruct (Py.chars r1) as [|a r]; [done|]. apply digit_not_upper. by inversion Hr1. }
  rewrite run_Cat.
  apply run_group_plus; [done|done|done|].
  rewrite run_Cat, run_lit, run_Cat.
  apply run_group_plus; [done|done| |].
  { destruct (Py.chars r2) as [|a r]; [done|]. apply digit_not_upper. by inversion Hr2. }
  rewrite run_Cat. rewrite <- (app_nil_r (Py.chars r2)) at 1.
  apply run_group_plus; [done|done|done|].
  rewrite run_Eol. cbn. by rewrite !str_chars.
Qed.

(** [([A-Z]+)\(([^)]+)\)] matches a call at the start of a text,
    whatever follows the closing parenthesis. *)
Lemma match_func_re (name args rest : list ascii) :
  Forall (fun a => Py.is_upper a = true) name -> name <> [] ->
  Forall (fun a => a <> ")"%char) args -> args <> [] ->
  match_ func_re (Py.str (name ++ "("%char :: args ++ ")"%char :: rest))
  = Some [Py.str name; Py.str args].
Proof.
  intros Hname Hnn Hargs Han. unfold match_. rewrite chars_str.
  assert (match_at func_re ([], name ++ "("%char :: args ++ ")"%char :: rest)
          = Some ((")"%char :: rev args ++ "("%char :: rev name ++ [], rest),
                  [Py.str name; Py.str args])) as ->; [|done].
  unfold match_at, func_re.
  cbn [seq]. rewrite run_Cat.
  apply run_group_plus; [done|done|done|].
  rewrite run_Cat, run_lit, run_Cat.
  apply run_group_plus; [|done| |].
  - eapply Forall_impl; [exact Hargs|]. intros a Ha. cbn.
    by rewrite bool_decide_eq_false_2.
  - cbn. by rewrite bool_decide_eq_true_2.
  - by rewrite run_lit.
Qed.

(** A text without an opening parenthesis is no call. *)
Lemma match_func_re_none (s : string) :
  "("%char ∉ Py.chars s -> match_ func_re s = None.
Proof.
  intros Hs. unfold match_, match_at, func_re. cbn [seq].
  destruct (run _ _ _ _) as [[p' caps]|] eqn:H; [|done]. exfalso.
  rewrite run_Cat in H.
  apply run_group_plus_sound in H as (name & rest1 & E1 & _ & _ & H).
  rewrite run_Cat in H. apply run_lit_sound in H as (rest2 & -> & _).
  apply Hs. rewrite E1. apply elem_of_app. right. by left.
Qed.

End EvaluatorPatterns.

(** ** Formulas the evaluator recognises *)

Section Recognised.
Import Re.
Context (float_str : Q -> string).

Lemma lstrip_id (l : list ascii) :
  match l with c :: _ => Py.is_space c = false | [] => True end -> Py.lstrip l = l.
Proof. destruct l as [|c l]; [done|]. cbn. by intros ->. Qed.

Lemma lstrip_app (a b : list ascii) :
  match b with c :: _ => Py.is_space c = false | [] => False end ->
  Py.lstrip (a ++ b) = Py.lstrip a ++ b.
Proof.
  intros Hb. induction a as [|c a IH]; cbn [app Py.lstrip].
  - destruct b as [|c b]; [done|]. cbn. by rewrite Hb.
  - by destruct (Py.is_space c).
Qed.

(** [strip] keeps a text from its first character to the last one that
    is no white space, when the first one is none. *)
Lemma strip_trailing (x y : ascii) (m rest : list ascii) :
  Py.is_space x = false -> Py.is_space y = false ->
  exists rest', Py.strip (Py.str (x :: m ++ y :: rest)) = Py.str (x :: m ++ y :: rest').
Proof.
  intros Hx Hy. unfold Py.strip. rewrite chars_str.
  rewrite (lstrip_id (x :: _)) by done.
  exists (rev (Py.lstrip (rev rest))). f_equal.
  change (x :: m ++ y :: rest) with ((x :: m) ++ [y] ++ rest).
  rewrite !rev_app_distr. rewrite <- app_assoc.
  rewrite lstrip_app by (cbn; done).
  rewrite rev_app_distr. rewrite rev_app_distr. cbn [rev app].
  rewrite rev_app_distr, rev_involutive. cbn [rev app].
  by rewrite <- app_assoc.
Qed.

Lemma strip_id (l : list ascii) :
  Forall (fun c => Py.is_space c = false) l -> Py.strip (Py.str l) = Py.str l.
Proof.
  intros Hl. unfold Py.strip. rewrite chars_str.
  rewrite (lstrip_id l) by (by destruct Hl).
  rewrite lstrip_id, rev_involutive; [done|].
  apply Forall_rev in Hl. by destruct Hl.
Qed.

Lemma upper_not_space (c : ascii) : Py.is_upper c = true -> Py.is_space c = false.
Proof. unfold Py.is_upper, Py.is_space, Py.between. lia. Qed.

Lemma digit_not_space (c : ascii) : Py.is_digit c = true -> Py.is_space c = false.
Proof. unfold Py.is_digit, Py.is_space, Py.between. lia. Qed.

Lemma chars_upper (s : string) : Py.chars (Py.upper s) = map Py.upper_char (Py.chars s).
Proof. unfold Py.upper. by rewrite chars_str. Qed.

Lemma upper_char_paren (c : ascii) : c <> ")"%char -> Py.upper_char c <> ")"%char.
Proof.
  intros Hc. unfold Py.upper_char. destruct (Py.is_lower c) eqn:E; [|done].
  unfold Py.is_lower, Py.between in E. intros Heq.
  apply (f_equal Py.ord) in Heq. rewrite ord_chr in Heq by lia.
  change (Py.ord ")") with 41 in Heq. lia.
Qed.

Lemma evaluate_call (name args rest : string) (current_row : Z) (current_col : string)
    (data_context : list (gmap string cell_value)) (columns_context : list Column) :
  is_column_name name -> name <> EmptyString ->
  args <> EmptyString -> ")"%char ∉ Py.chars args ->
  _evaluate_formula float_str ("=" +:+ name +:+ "(" +:+ args +:+ ")" +:+ rest)
                    current_row current_col data_context columns_context
  = match functions float_str name with
    | Some f => f (Py.upper args) current_row data_context columns_context
    | None => RErr "#NAME?"
    end.
Proof.
  intros Hname Hnn Han Hargs. unfold _evaluate_formula. cbv zeta.
  change (Py.tail ("=" +:+ ?s)) with s.
  pose proof (chars_nonempty name Hnn) as Hn. unfold is_column_name in Hname.
  assert (Py.upper (name +:+ "(" +:+ args +:+ ")" +:+ rest)
          = Py.str (Py.chars name ++ "("%char :: Py.chars (Py.upper args)
                      ++ ")"%char :: Py.chars (Py.upper rest))) as ->.
  { unfold Py.upper. rewrite !chars_str. f_equal. rewrite !chars_app, !map_app.
    rewrite (map_upper_char_id Py.is_upper (Py.chars name) upper_char_upper Hname).
    done. }
  destruct (Py.chars name) as [|x nm] eqn:Hx; [done|].
  destruct (strip_trailing x ")" (nm ++ "("%char :: Py.chars (Py.upper args))
              (Py.chars (Py.upper rest))) as [rest' Hstrip].
  { apply upper_not_space. by inversion Hname. }
  { reflexivity. }
  rewrite <- !app_assoc in Hstrip. cbn [app] in Hstrip |- *. rewrite Hstrip.
  change (x :: nm ++ "("%char :: Py.chars (Py.upper args) ++ ")"%char :: rest')
    with ((x :: nm) ++ "("%char :: Py.chars (Py.upper args) ++ ")"%char :: rest').
  rewrite match_func_re.
  - destruct (Py.str ((x :: nm) ++ _)) eqn:E.
    { apply (f_equal Py.chars) in E. by rewrite chars_str in E. }
    by rewrite <- Hx, !str_chars.
  - done.
  - done.
  - rewrite chars_upper. apply Forall_forall. intros c (c' & -> & Hc')%list_elem_of_fmap.
    apply upper_char_paren. by intros ->.
  - rewrite chars_upper. intros E. apply fmap_nil_inv in E. by apply chars_nil in E.
Qed.

(** A formula that starts with a name in capital letters and an argument
    list in parentheses is a call, whatever follows the closing
    parenthesis: the function of that name is applied to the argument
    text in capital letters, and a name that is none of SUM, AVERAGE,
    MIN, MAX and COUNT gives [#NAME?]. *)
Theorem evaluate_formula_call (name args rest : string) (current_row : Z)
    (current_col : string) (data_context : list (gmap string cell_value))
    (columns_context : list Column) :
  is_column_name name -> name <> EmptyString ->
  args <> EmptyString -> ")"%char ∉ Py.chars args ->
  _evaluate_formula float_str ("=" +:+ name +:+ "(" +:+ args +:+ ")" +:+ rest)
                    current_row current_col data_context columns_context
  = match functions float_str name with
    | Some f => f (Py.upper args) current_row data_context columns_context
    | None => RErr "#NAME?"
    end.
Proof. apply evaluate_call. Qed.

End Recognised.

Section Recognised2.
Import Re.
Context (float_str : Q -> string).

Lemma range_text_no_space (c1 r1 c2 r2 : string) :
  is_column_name c1 -> is_digits r1 -> is_column_name c2 -> is_digits r2 ->
  Forall (fun c => Py.is_space c = false) (range_text c1 r1 c2 r2).
Proof.
  intros Hc1 Hr1 Hc2 Hr2. unfold range_text.
  apply Forall_app. split.
  { eapply Forall_impl; [exact Hc1|]. apply upper_not_space. }
  apply Forall_app. split.
  { eapply Forall_impl; [exact Hr1|]. apply digit_not_space. }
  apply Forall_cons. split; [done|]. apply Forall_app. split.
  - eapply Forall_impl; [exact Hc2|]. apply upper_not_space.
  - eapply Forall_impl; [exact Hr2|]. apply digit_not_space.
Qed.

Lemma match_range_argument (c1 r1 c2 r2 : string) :
  is_column_name c1 -> c1 <> EmptyString -> is_digits r1 -> r1 <> EmptyString ->
  is_column_name c2 -> c2 <> EmptyString -> is_digits r2 -> r2 <> EmptyString ->
  match_ range_re (Py.strip (Py.str (range_text c1 r1 c2 r2))) = Some [c1; r1; c2; r2].
Proof.
  intros. rewrite strip_id by (by apply range_text_no_space).
  by apply match_range_re.
Qed.

(** MIN, MAX and COUNT read the rows of a range in its first column
    only: the column of the second corner makes no difference to the
    result. *)
Theorem range_end_column_ignored (c1 r1 c2 c2' r2 : string) (current_row : Z)
    (data_context : list (gmap string cell_value)) (columns_context : list Column) :
  is_column_name c1 -> c1 <> EmptyString -> is_digits r1 -> r1 <> EmptyString ->
  is_column_name c2 -> c2 <> EmptyString -> is_column_name c2' -> c2' <> EmptyString ->
  is_digits r2 -> r2 <> EmptyString ->
  _calculate_min (Py.str (range_text c1 r1 c2 r2)) current_row data_context columns_context
  = _calculate_min (Py.str (range_text c1 r1 c2' r2)) current_row data_context
                   columns_context /\
  _calculate_max (Py.str (range_text c1 r1 c2 r2)) current_row data_context columns_context
  = _calculate_max (Py.str (range_text c1 r1 c2' r2)) current_row data_context
                   columns_context /\
  _calculate_count float_str (Py.str (range_text c1 r1 c2 r2)) current_row data_context
                   columns_context
  = _calculate_count float_str (Py.str (range_text c1 r1 c2' r2)) current_row data_context
                     columns_context.
Proof.
  intros Hc1 Hn1 Hr1 Hm1 Hc2 Hn2 Hc2' Hn2' Hr2 Hm2.
  unfold _calculate_min, _calculate_max, _calculate_count, column_values.
  by rewrite !match_range_argument.
Qed.

Lemma range_end_column_ignored_witness :
  Py.str (range_text "A" "1" "A" "2") = "A1:A2"%string /\
  Py.str (range_text "A" "1" "C" "2") = "A1:C2"%string /\
  _calculate_min "A1:A2" 0 [row_1_2_3] columns_ABCD
  = _calculate_min "A1:C2" 0 [row_1_2_3] columns_ABCD.
Proof.
  split; [reflexivity|]. split; [reflexivity|].
  refine (proj1 (range_end_column_ignored "A" "1" "A" "C" "2" 0 [row_1_2_3] columns_ABCD
                   _ _ _ _ _ _ _ _ _ _));
    first [by repeat constructor | discriminate].
Defined.

Lemma cell_text_no_space (c r : string) :
  is_column_name c -> is_digits r ->
  Forall (fun a => Py.is_space a = false) (Py.chars c ++ Py.chars r).
Proof.
  intros Hc Hr. apply Forall_app. split.
  - eapply Forall_impl; [exact Hc|]. apply upper_not_space.
  - eapply Forall_impl; [exact Hr|]. apply digit_not_space.
Qed.

Lemma cell_text_upper (c r : string) :
  is_column_name c -> is_digits r ->
  map Py.upper_char (Py.chars c ++ Py.chars r) = Py.chars c ++ Py.chars r.
Proof.
  intros Hc Hr. rewrite map_app.
  by rewrite (map_upper_char_id Py.is_upper _ upper_char_upper Hc),
             (map_upper_char_id Py.is_digit _ upper_char_digit Hr).
Qed.

Lemma nonempty_str (l : list ascii) :
  l <> [] -> exists x s, Py.str l = String x s.
Proof. destruct l as [|x l]; [done|]. intros _. by exists x, (Py.str l). Qed.

Lemma evaluate_cell_reference (c r : string) (current_row : Z) (current_col : string)
    (data_context : list (gmap string cell_value)) (columns_context : list Column) :
  is_column_name c -> c <> EmptyString -> is_digits r -> r <> EmptyString ->
  _evaluate_formula float_str ("=" +:+ c +:+ r) current_row current_col
                    data_context columns_context
  = RNum (_get_cell_value c (Py.int_digits r - 1) data_context columns_context).
Proof.
  intros Hc Hcn Hr Hrn. unfold _evaluate_formula. cbv zeta.
  change (Py.tail ("=" +:+ ?s)) with s.
  pose proof (chars_nonempty c Hcn) as Hc'. pose proof (chars_nonempty r Hrn) as Hr'.
  assert (Py.strip (Py.upper (c +:+ r)) = Py.str (Py.chars c ++ Py.chars r)) as ->.
  { unfold Py.upper. rewrite chars_app, cell_text_upper by done.
    by apply strip_id, cell_text_no_space. }
  destruct (nonempty_str (Py.chars c ++ Py.chars r)) as (x & s & Hs).
  { by destruct (Py.chars c). }
  rewrite Hs at 1. rewrite match_func_re_none.
  2:{ rewrite chars_str. intros [H|H]%elem_of_app.
      - unfold is_column_name in Hc. rewrite Forall_forall in Hc. by apply Hc in H.
      - unfold is_digits in Hr. rewrite Forall_forall in Hr. by apply Hr in H. }
  rewrite match_cell_ref_re by done. by rewrite !str_chars.
Qed.

(** A formula that is one cell reference, a column in capital letters
    and a row number, evaluates to the numeric value of that cell. *)
Theorem evaluate_formula_cell_reference (c r : string) (current_row : Z)
    (current_col : string) (data_context : list (gmap string cell_value))
    (columns_context : list Column) :
  is_column_name c -> c <> EmptyString -> is_digits r -> r <> EmptyString ->
  _evaluate_formula float_str ("=" +:+ c +:+ r) current_row current_col
                    data_context columns_context
  = RNum (_get_cell_value c (Py.int_digits r - 1) data_context columns_context).
Proof. apply evaluate_cell_reference. Qed.

End Recognised2.

Section Arithmetic.
Import Re.
Context (float_str : Q -> string).

(** A lazy repetition stops at the first length, from [least] on, at
    which what follows the pattern matches. *)
Lemma rep_lazy_first {R : Type} (p : ascii -> bool) (k : pos -> option R) (r : R) :
  forall (run_ rest : list ascii) (least : nat) (pre : list ascii),
    Forall (fun c => p c = true) run_ -> (least <= length run_)%nat ->
    k (rev run_ ++ pre, rest) = Some r ->
    (forall run1 run2, run_ = run1 ++ run2 -> run2 <> [] -> (least <= length run1)%nat ->
                       k (rev run1 ++ pre, run2 ++ rest) = None) ->
    rep_lazy p least pre (run_ ++ rest) k = Some r.
Proof.
  induction run_ as [|c run_ IH]; intros rest least pre Hrun Hleast Hk Hnone.
  - cbn in Hleast. assert (least = 0%nat) as -> by lia. cbn [app rev] in *.
    destruct rest; cbn [rep_lazy]; by rewrite Hk.
  - inversion Hrun as [|? ? Hc Hrun']; subst. cbn [app rep_lazy]. rewrite Hc.
    assert (rep_lazy p (Nat.pred least) (c :: pre) (run_ ++ rest) k = Some r) as Hmore.
    { apply IH; [done|cbn in Hleast; lia| |].
      - cbn [rev] in Hk. by rewrite <- app_assoc in Hk.
      - intros run1 run2 -> Hne Hl.
        specialize (Hnone (c :: run1) run2 eq_refl Hne). cbn [rev length] in Hnone.
        rewrite <- app_assoc in Hnone. apply Hnone. lia. }
    destruct least as [|least]; [|done].
    pose proof (Hnone [] (c :: run_) eq_refl ltac:(done) ltac:(cbn; lia)) as Hk0.
    cbn [rev app] in Hk0. by rewrite Hk0.
Qed.

Lemma rep_lazy_all {R : Type} (p : ascii -> bool) (k : pos -> option R) (r : R)
    (run_ : list ascii) (least : nat) (pre : list ascii) :
  Forall (fun c => p c = true) run_ -> (least <= length run_)%nat ->
  k (rev run_ ++ pre, []) = Some r ->
  (forall run1 run2, run_ = run1 ++ run2 -> run2 <> [] -> (least <= length run1)%nat ->
                     k (rev run1 ++ pre, run2) = None) ->
  rep_lazy p least pre run_ k = Some r.
Proof.
  intros Hrun Hleast Hk Hnone. rewrite <- (app_nil_r run_).
  apply rep_lazy_first; [done|done|done|].
  intros run1 run2 E Hne Hl. rewrite app_nil_r. by apply Hnone.
Qed.

Lemma captured_all (pre run_ pre' : list ascii) :
  captured (pre, run_) (pre', []) = Py.str run_.
Proof.
  unfold captured. cbn [fst snd length]. f_equal.
  rewrite Nat.sub_0_r. apply firstn_all.
Qed.

Lemma not_operator (c : ascii) :
  Py.is_upper c = true \/ Py.is_digit c = true -> is_operator c = false.
Proof.
  intros H. unfold is_operator.
  repeat (rewrite bool_decide_eq_false_2; [|intros ->; by destruct H]). done.
Qed.

Lemma is_dot (c : ascii) :
  Py.is_upper c = true \/ Py.is_digit c = true \/ is_operator c = true -> dot c = true.
Proof.
  intros H. unfold dot. rewrite bool_decide_eq_false_2; [done|].
  intros ->. by destruct H as [H|[H|H]].
Qed.

(** [^(.+?)([\+\-\*\/])(.+?)$] on two cell references with an operator
    between them: the groups are the references and the operator. *)
Lemma match_arithmetic_re (a b : list ascii) (op : ascii) :
  Forall (fun c => Py.is_upper c = true \/ Py.is_digit c = true) a -> a <> [] ->
  Forall (fun c => Py.is_upper c = true \/ Py.is_digit c = true) b -> b <> [] ->
  is_operator op = true ->
  match_ arithmetic_re (Py.str (a ++ op :: b))
  = Some [Py.str a; String op EmptyString; Py.str b].
Proof.
  intros Ha Han Hb Hbn Hop. unfold match_. rewrite chars_str.
  assert (match_at arithmetic_re ([], a ++ op :: b)
          = Some ((rev b ++ op :: rev a ++ [], []),
                  [Py.str a; String op EmptyString; Py.str b])) as ->; [|done].
  unfold match_at, arithmetic_re. cbn [seq].
  rewrite run_Cat, run_Bol, run_Cat.
  change (run (Grp (plus_lazy dot)) ?p ?caps ?k)
    with (rep_lazy dot 1 p.1 p.2 (fun p' => k p' (caps ++ [captured p p']))).
  cbn [fst snd].
  apply rep_lazy_first.
  - eapply Forall_impl; [exact Ha|]. intros c [Hc|Hc]; apply is_dot; [by left|right; by left].
  - destruct a; [done|cbn; lia].
  - rewrite captured_run. cbn [app]. rewrite run_Cat.
    cbn [run fst snd]. rewrite Hop.
    rewrite (captured_run _ [op] b).
    apply rep_lazy_all.
    + eapply Forall_impl; [exact Hb|]. intros c [Hc|Hc]; apply is_dot; [by left|right; by left].
    + destruct b; [done|cbn; lia].
    + unfold at_eol. cbn [fst snd]. by rewrite captured_all.
    + cbn [fst snd]. intros b1 b2 -> Hne _. unfold at_eol. cbn [snd].
      destruct b2 as [|c [|c' b2]]; [done| |done].
      rewrite bool_decide_eq_false_2; [done|]. intros ->.
      apply Forall_app in Hb as [_ Hb]. rewrite Forall_singleton in Hb.
      destruct Hb as [H|H]; vm_compute in H; discriminate H.
  - intros a1 a2 -> Hne _. destruct a2 as [|c a2]; [done|].
    rewrite run_Cat. cbn [run app fst snd].
    rewrite not_operator; [done|].
    apply Forall_app in Ha as [_ Ha]. by inversion Ha.
Qed.

Lemma cell_text_chars (c r : string) :
  is_column_name c -> is_digits r ->
  Forall (fun a => Py.is_upper a = true \/ Py.is_digit a = true) (Py.chars c ++ Py.chars r).
Proof.
  intros Hc Hr. apply Forall_app. split.
  - eapply Forall_impl; [exact Hc|]. by left.
  - eapply Forall_impl; [exact Hr|]. by right.
Qed.

Lemma parse_value_cell (c r : string) (current_row : Z)
    (data_context : list (gmap string cell_value)) (columns_context : list Column) :
  is_column_name c -> c <> EmptyString -> is_digits r -> r <> EmptyString ->
  _parse_value (Py.strip (Py.str (Py.chars c ++ Py.chars r))) current_row
               data_context columns_context
  = _get_cell_value c (Py.int_digits r - 1) data_context columns_context.
Proof.
  intros Hc Hcn Hr Hrn. rewrite strip_id by (by apply cell_text_no_space).
  unfold _parse_value.
  rewrite match_cell_ref_re; [by rewrite !str_chars|done| |done|];
    by apply chars_nonempty.
Qed.

Lemma operator_not_space (op : ascii) : is_operator op = true -> Py.is_space op = false.
Proof.
  unfold is_operator. intros H.
  repeat (apply orb_true_iff in H as [H|H]);
    apply bool_decide_eq_true in H; by subst op.
Qed.

Lemma operator_upper (op : ascii) : is_operator op = true -> Py.upper_char op = op.
Proof.
  unfold is_operator. intros H.
  repeat (apply orb_true_iff in H as [H|H]);
    apply bool_decide_eq_true in H; by subst op.
Qed.

Lemma evaluate_binary (c1 r1 c2 r2 : string) (op : ascii) (current_row : Z)
    (current_col : string) (data_context : list (gmap string cell_value))
    (columns_context : list Column) :
  is_column_name c1 -> c1 <> EmptyString -> is_digits r1 -> r1 <> EmptyString ->
  is_column_name c2 -> c2 <> EmptyString -> is_digits r2 -> r2 <> EmptyString ->
  is_operator op = true ->
  _evaluate_formula float_str ("=" +:+ c1 +:+ r1 +:+ String op EmptyString +:+ c2 +:+ r2)
                    current_row current_col data_context columns_context
  = _perform_arithmetic
      (_get_cell_value c1 (Py.int_digits r1 - 1) data_context columns_context)
      (String op EmptyString)
      (_get_cell_value c2 (Py.int_digits r2 - 1) data_context columns_context).
Proof.
  intros Hc1 Hn1 Hr1 Hm1 Hc2 Hn2 Hr2 Hm2 Hop. unfold _evaluate_formula. cbv zeta.
  change (Py.tail ("=" +:+ ?s)) with s.
  set (a := Py.chars c1 ++ Py.chars r1). set (b := Py.chars c2 ++ Py.chars r2).
  assert (Forall (fun c => Py.is_upper c = true \/ Py.is_digit c = true) a) as Ha
    by (by apply cell_text_chars).
  assert (Forall (fun c => Py.is_upper c = true \/ Py.is_digit c = true) b) as Hb
    by (by apply cell_text_chars).
  assert (a <> []) as Han.
  { unfold a. pose proof (chars_nonempty c1 Hn1). by destruct (Py.chars c1). }
  assert (b <> []) as Hbn.
  { unfold b. pose proof (chars_nonempty c2 Hn2). by destruct (Py.chars c2). }
  assert (Py.strip (Py.upper (c1 +:+ r1 +:+ String op EmptyString +:+ c2 +:+ r2))
          = Py.str (a ++ op :: b)) as ->.
  { unfold Py.upper. rewrite !chars_app. change (Py.chars (String op "")) with [op].
    rewrite app_assoc. fold a. cbn [app]. fold b.
    rewrite map_app. cbn [map]. unfold a, b. rewrite !cell_text_upper by done.
    rewrite operator_upper by done. fold a b.
    apply strip_id. apply Forall_app. split.
    - by apply cell_text_no_space.
    - apply Forall_cons. split; [by apply operator_not_space|].
      by apply cell_text_no_space. }
  destruct (nonempty_str (a ++ op :: b)) as (x & s & Hs); [by destruct a|].
  rewrite Hs at 1. rewrite match_func_re_none.
  2:{ rewrite chars_str. intros [H|[H|H]%elem_of_cons]%elem_of_app.
      - rewrite Forall_forall in Ha. by destruct (Ha _ H).
      - subst op. done.
      - rewrite Forall_forall in Hb. by destruct (Hb _ H). }
  destruct (match_ cell_ref_re (Py.str (a ++ op :: b))) as [caps|] eqn:Hcell.
  { exfalso. apply match_cell_ref_re_sound in Hcell
      as (c & r & _ & Hc & _ & Hr & _ & Hchars).
    rewrite chars_str in Hchars.
    assert (op ∈ a ++ op :: b) as Hin by (apply elem_of_app; right; by left).
    assert (Py.is_upper op = true \/ Py.is_digit op = true \/ op = newline) as Hcase.
    { rewrite Forall_forall in Hc, Hr.
      destruct Hchars as [E|E]; rewrite E in Hin.
      - apply elem_of_app in Hin as [H|H]; [left; by apply Hc|right; left; by apply Hr].
      - apply elem_of_app in Hin as [H|[H|H]%elem_of_app];
          [left; by apply Hc|right; left; by apply Hr|].
        right. right. by apply list_elem_of_singleton in H. }
    destruct Hcase as [H|[H|H]].
    - rewrite not_operator in Hop; [done|by left].
    - rewrite not_operator in Hop; [done|by right].
    - by subst op. }
  rewrite match_arithmetic_re by done.
  unfold a, b. by rewrite !parse_value_cell.
Qed.

(** A formula of two cell references with one of [+ - * /] between them
    evaluates to the result of the operation on the numeric values of
    the two cells, and to [#DIV/0!] for a division by a cell whose value
    is zero. *)
Theorem evaluate_formula_binary (c1 r1 c2 r2 : string) (op : ascii) (current_row : Z)
    (current_col : string) (data_context : list (gmap string cell_value))
    (columns_context : list Column) :
  is_column_name c1 -> c1 <> EmptyString -> is_digits r1 -> r1 <> EmptyString ->
  is_column_name c2 -> c2 <> EmptyString -> is_digits r2 -> r2 <> EmptyString ->
  is_operator op = true ->
  _evaluate_formula float_str ("=" +:+ c1 +:+ r1 +:+ String op EmptyString +:+ c2 +:+ r2)
                    current_row current_col data_context columns_context
  = _perform_arithmetic
      (_get_cell_value c1 (Py.int_digits r1 - 1) data_context columns_context)
      (String op EmptyString)
      (_get_cell_value c2 (Py.int_digits r2 - 1) data_context columns_context) /\
  (op = "/"%char ->
   Num.is_zero (_get_cell_value c2 (Py.int_digits r2 - 1) data_context columns_context)
   = true ->
   _evaluate_formula float_str ("=" +:+ c1 +:+ r1 +:+ String op EmptyString +:+ c2 +:+ r2)
                     current_row current_col data_context columns_context
   = RErr "#DIV/0!").
Proof.
  intros Hc1 Hn1 Hr1 Hm1 Hc2 Hn2 Hr2 Hm2 Hop.
  pose proof (evaluate_binary c1 r1 c2 r2 op current_row current_col data_context
                columns_context Hc1 Hn1 Hr1 Hm1 Hc2 Hn2 Hr2 Hm2 Hop) as H.
  split; [exact H|]. intros -> Hz. rewrite H. unfold _perform_arithmetic.
  cbn. by rewrite Hz.
Qed.

End Arithmetic.

(** ** What a pass leaves alone *)

Section Frame.
Context (float_str : Q -> string).
Implicit Types (g : Graph) (c : CellRef) (grid : list (gmap string cell_value)).

Lemma fold_release_queue ns (l : list CellRef) :
  forall (st : gmap CellRef Z * list CellRef) c,
    c ∈ (fold_left (release_dependent ns) l st).2 -> c ∈ st.2 \/ c ∈ dict_keys ns.
Proof.
  induction l as [|d l IH]; intros st c; cbn [fold_left]; [by left|].
  intros [Hc|Hc]%IH; [|by right].
  unfold release_dependent in Hc. destruct (dict_mem d ns) eqn:Hd; [|by left].
  cbn [snd] in Hc. destruct (_ =? 0); [|by left].
  apply elem_of_app in Hc as [Hc| ->%list_elem_of_singleton]; [by left|].
  right. by apply dict_mem_keys.
Qed.

Lemma kahn_loop_subset (fuel : nat) g :
  forall deg queue result order,
    (forall c, c ∈ queue ++ result -> c ∈ dict_keys (nodes g)) ->
    kahn_loop fuel g deg queue result = Some order ->
    forall c, c ∈ order -> c ∈ dict_keys (nodes g).
Proof.
  induction fuel as [|fuel IH]; intros deg queue result order Hin.
  { destruct queue; [|done]. intros [= <-] c Hc. apply Hin. by rewrite app_nil_l. }
  destruct queue as [|current queue]; cbn [kahn_loop].
  { intros [= <-] c Hc. apply Hin. by rewrite app_nil_l. }
  destruct (fold_left _ _ _) as [deg' queue'] eqn:E. apply IH.
  intros c [Hc|Hc]%elem_of_app.
  - assert (c ∈ (fold_left (release_dependent (nodes g))
                  (elements (dd_get (adjacency_list g) current)) (deg, queue)).2) as Hc'
      by (by rewrite E).
    apply fold_release_queue in Hc' as [Hc'|Hc']; [|done].
    apply Hin. apply elem_of_app. left. by right.
  - apply elem_of_app in Hc as [Hc| ->%list_elem_of_singleton].
    + apply Hin. apply elem_of_app. by right.
    + apply Hin. apply elem_of_app. left. by left.
Qed.

Lemma update_evaluation_order_subset g order :
  _update_evaluation_order g = Some (set_order g order) ->
  forall c, c ∈ order -> c ∈ dict_keys (nodes g).
Proof.
  unfold _update_evaluation_order.
  destruct (dict_keys (nodes g)) as [|k keys'] eqn:Hkeys.
  { unfold set_order. intros [= <-] c Hc. by apply elem_of_nil in Hc. }
  rewrite <- Hkeys. clear k keys' Hkeys.
  destruct (kahn_loop _ _ _ _ _) as [order'|] eqn:Hloop; [|done].
  cbn. unfold set_order. intros [= <-].
  eapply kahn_loop_subset; [|exact Hloop].
  intros c. rewrite app_nil_r. by intros [_ ?]%list_elem_of_filter.
Qed.

Lemma replaced_order c g : _evaluation_order (replaced c g) = _evaluation_order g.
Proof.
  unfold replaced. destruct (dict_mem c (nodes g)); [|done].
  unfold _remove_node. destruct (dict_get c (nodes g)) as [node|]; [|done].
  cbn [set_nodes set_reverse set_adjacency _evaluation_order].
  assert (forall (f : Graph -> CellRef -> Graph) l g0,
            (forall g1 x, _evaluation_order (f g1 x) = _evaluation_order g1) ->
            _evaluation_order (fold_left f l g0) = _evaluation_order g0) as Hfold.
  { clear. intros f l. induction l as [|x l IH]; intros g0 Hf; [done|].
    cbn [fold_left]. by rewrite IH, Hf. }
  rewrite Hfold by done. by rewrite Hfold.
Qed.

Lemma add_formula_names_formula_cells grid c formula deps g ok g' :
  formula_cell grid c -> names_formula_cells grid g ->
  add_formula c formula deps g = Some (ok, g') ->
  names_formula_cells grid g'.
Proof.
  intros Hc [Hkeys Horder] Hadd.
  destruct (add_formula_total c formula deps g) as (ok' & g2 & Hadd' & Hres).
  rewrite Hadd in Hadd'. injection Hadd' as <- <-.
  destruct ok.
  - destruct Hres as (_ & d & o & -> & Hupd).
    destruct (inserted_spec c formula deps (replaced c g)) as (_ & _ & Hk & _).
    assert (forall b, b ∈ dict_keys (nodes (inserted c formula deps (replaced c g))) ->
                      formula_cell grid b) as Hall.
    { intros b [->|Hb]%Hk; [done|]. apply Hkeys. by apply replaced_keys in Hb as [_ ?]. }
    split; [done|]. cbn [set_order _evaluation_order]. intros b Hb.
    apply Hall. by apply (update_evaluation_order_subset _ o Hupd).
  - destruct Hres as (_ & ->). split.
    + intros b [_ Hb]%replaced_keys. by apply Hkeys.
    + rewrite replaced_order. apply Horder.
Qed.

Lemma add_cell_names_formula_cells grid (columns : list Column) (i : nat)
    (row_ : gmap string cell_value) (st : option build_state) (column_ : Column) :
  grid !! i = Some row_ ->
  (forall g errs, st = Some (g, errs) -> names_formula_cells grid g) ->
  forall g errs,
    add_cell grid columns (Z.of_nat i) row_ st column_ = Some (g, errs) ->
    names_formula_cells grid g.
Proof.
  intros Hrow Hst g errs. unfold add_cell.
  destruct st as [[g0 errs0]|]; [|done]. cbn [mbind option_bind].
  specialize (Hst g0 errs0 eq_refl).
  destruct (row_ !! key column_) as [v|] eqn:Hv; cbn [default from_option id].
  2:{ cbn. by intros [= <- _]. }
  destruct v as [| | | |cell_text]; try by intros [= <- _].
  destruct (Py.startswith cell_text "=") eqn:Hs; [|by intros [= <- _]].
  cbn [fst snd].
  destruct (add_formula _ _ _ g0) as [[ok g1]|] eqn:Hadd; [|done].
  cbn [mbind option_bind].
  assert (names_formula_cells grid g1) as Hg1.
  { eapply add_formula_names_formula_cells; [|exact Hst|exact Hadd].
    split; cbn [row column]; [lia|]. exists row_. split.
    - by replace (Z.to_nat (Z.of_nat i + 1 - 1)) with i by lia.
    - by exists cell_text. }
  destruct ok; by intros [= <- _].
Qed.

Lemma build_names_formula_cells grid (columns : list Column) g errs :
  _build_dependency_graph grid columns = Some (g, errs) ->
  names_formula_cells grid g.
Proof.
  unfold _build_dependency_graph.
  assert (forall rows : list (nat * gmap string cell_value),
            (forall i r, (i, r) ∈ rows -> grid !! i = Some r) ->
            forall st,
              (forall g errs, st = Some (g, errs) -> names_formula_cells grid g) ->
              forall g errs,
                fold_left (fun st '(row_index, row_) =>
                    fold_left (add_cell grid columns (Z.of_nat row_index) row_) columns st)
                  rows st = Some (g, errs) ->
                names_formula_cells grid g) as Hrows.
  { induction rows as [|[i r] rows IH]; intros Hin st Hst g' errs'; cbn [fold_left].
    { apply Hst. }
    apply IH.
    - intros j r' Hj. apply Hin. by right.
    - assert (grid !! i = Some r) as Hr by (apply Hin; by left).
      clear IH Hin. revert st Hst. generalize columns at 2. intros l.
      induction l as [|col cols IHc]; intros st Hst; cbn [fold_left]; [done|].
      apply IHc. by apply add_cell_names_formula_cells. }
  apply Hrows.
  - intros i r Hin. apply list_elem_of_lookup in Hin as [j Hj].
    rewrite list_lookup_imap in Hj. destruct (grid !! j) as [r'|] eqn:E; [|done].
    cbn in Hj. by injection Hj as <- <-.
  - intros g' errs' [= <- _]. split; intros c Hc; by apply elem_of_nil in Hc.
Qed.

Lemma find_column_key (letter : string) (columns : list Column) (k : string) :
  _letter_to_column_key letter columns = Some k -> k = letter.
Proof.
  unfold _letter_to_column_key, _find_column_by_letter.
  destruct (List.find _ columns) as [col|] eqn:E; [|done]. cbn. intros [= <-].
  apply find_some in E as [_ E]. by apply bool_decide_eq_true in E.
Qed.

Lemma truthy_key_column (letter : string) (columns : list Column) :
  truthy_key (_letter_to_column_key letter columns) = true ->
  default EmptyString (_letter_to_column_key letter columns) = letter.
Proof.
  destruct (_letter_to_column_key letter columns) as [k|] eqn:E; [|done].
  intros _. cbn. by apply find_column_key in E.
Qed.

Lemma write_cell_same_outside grid d c (v : cell_value) :
  formula_cell grid c -> same_outside_formulas grid d ->
  same_outside_formulas grid (write_cell (row c - 1) (column c) v d).
Proof.
  intros (Hrow & row_ & Hr & Hf) [Hlen Hsame]. unfold write_cell. split.
  { by rewrite length_alter. }
  intros i r Hi. destruct (Hsame i r Hi) as (r' & Hr' & Hk).
  destruct (decide (i = Z.to_nat (row c - 1))) as [->|Hne].
  - rewrite Hr in Hi. injection Hi as <-.
    exists (<[column c := v]> r'). split.
    + by rewrite list_lookup_alter_eq, Hr'.
    + intros k Hnf. destruct (decide (k = column c)) as [->|Hk']; [done|].
      rewrite lookup_insert_ne by done. by apply Hk.
  - exists r'. split; [|done]. by rewrite list_lookup_alter_ne.
Qed.

Lemma evaluate_cell_same_outside grid (columns : list Column) (st : pass_state) c :
  formula_cell grid c -> same_outside_formulas grid (new_data st) ->
  same_outside_formulas grid (new_data (evaluate_cell float_str columns st c)).
Proof.
  intros Hc Hst. unfold evaluate_cell.
  destruct (dict_get c (nodes (pass_graph st))) as [node|].
  - destruct (is_evaluated node); [done|].
    destruct (_ || _) eqn:Hcheck; [done|].
    apply orb_false_iff in Hcheck as [_ Ht]. apply negb_false_iff in Ht.
    rewrite (truthy_key_column _ _ Ht).
    destruct (_evaluate_formula _ _ _ _ _ _); cbn [new_data];
      by apply write_cell_same_outside.
  - cbn [new_data].
    destruct (_ && _) eqn:Hcheck; [|done].
    apply andb_true_iff in Hcheck as [_ Ht].
    rewrite (truthy_key_column _ _ Ht). cbn [new_data].
    by apply write_cell_same_outside.
Qed.

Lemma evaluate_order_same_outside grid (columns : list Column) (order : list CellRef) :
  forall st,
    (forall c, c ∈ order -> formula_cell grid c) ->
    same_outside_formulas grid (new_data st) ->
    same_outside_formulas grid
      (new_data (fold_left (evaluate_cell float_str columns) order st)).
Proof.
  induction order as [|c order IH]; intros st Hall Hst; [done|].
  cbn [fold_left]. apply IH.
  - intros c' Hc'. apply Hall. by right.
  - apply evaluate_cell_same_outside; [|done]. apply Hall. by left.
Qed.

Lemma evaluate_formulas_frame grid (columns : list Column) :
  exists r,
    evaluate_formulas float_str grid columns = Some r /\
    success r = true /\
    same_outside_formulas grid (data r).
Proof.
  destruct (build_reachable grid columns) as (graph & rejected & Hbuild & Hreach).
  pose proof (reachable_no_cycle graph Hreach) as Hcheck.
  pose proof (build_names_formula_cells _ _ _ _ Hbuild) as [_ Horder].
  unfold evaluate_formulas. rewrite Hbuild.
  cbn [mbind option_bind]. rewrite Hcheck. cbn [mbind option_bind].
  match goal with
  | |- context [get_graph_stats ?g] =>
      destruct (has_circular_dependency_spec g) as (c & Hc & _);
      unfold get_graph_stats; rewrite Hc; cbn [mbind option_bind]
  end.
  eexists. split; [done|]. cbn [success data]. split; [done|].
  apply evaluate_order_same_outside; [done|].
  cbn [new_data]. split; [done|]. intros i r Hi. by exists r.
Qed.

(** [evaluate_formulas] returns a grid with as many rows as the grid of
    the request, and in every row every cell that held no formula, a
    missing one included, is what it was: the pass writes to formula
    cells only. *)
Theorem evaluate_formulas_keeps_other_cells grid (columns : list Column) :
  exists r,
    evaluate_formulas float_str grid columns = Some r /\
    success r = true /\
    length (data r) = length grid /\
    forall i row_, grid !! i = Some row_ ->
      exists row', data r !! i = Some row' /\
        forall k, ~ is_formula_value (row_ !! k) -> row' !! k = row_ !! k.
Proof.
  destruct (evaluate_formulas_frame grid columns) as (r & Hr & Hs & Hlen & Hsame).
  by exists r.
Qed.

Lemma add_cell_no_formula grid (columns : list Column) (row_index : Z)
    (row_ : gmap string cell_value) (st : build_state) (column_ : Column) :
  ~ is_formula_value (row_ !! key column_) ->
  add_cell grid columns row_index row_ (Some st) column_ = Some st.
Proof.
  intros Hnf. unfold add_cell. cbn [mbind option_bind].
  destruct (row_ !! key column_) as [v|] eqn:Hv; cbn [default from_option id]; [|done].
  destruct v as [| | | |cell_text]; try done.
  destruct (Py.startswith cell_text "=") eqn:Hs; [|done].
  exfalso. apply Hnf. by exists cell_text.
Qed.

Lemma build_no_formula grid (columns : list Column) :
  (forall row_ column_, row_ ∈ grid -> column_ ∈ columns ->
                        ~ is_formula_value (row_ !! key column_)) ->
  _build_dependency_graph grid columns = Some (init, ∅).
Proof.
  intros Hnf. unfold _build_dependency_graph.
  assert (forall rows : list (nat * gmap string cell_value),
            (forall i r, (i, r) ∈ rows -> r ∈ grid) ->
            forall st : build_state,
              fold_left (fun st '(row_index, row_) =>
                  fold_left (add_cell grid columns (Z.of_nat row_index) row_) columns st)
                rows (Some st) = Some st) as Hrows.
  { induction rows as [|[i r] rows IH]; intros Hin st; cbn [fold_left]; [done|].
    assert (fold_left (add_cell grid columns (Z.of_nat i) r) columns (Some st) = Some st)
      as ->.
    { assert (forall cols, (forall col, col ∈ cols -> col ∈ columns) ->
                fold_left (add_cell grid columns (Z.of_nat i) r) cols (Some st) = Some st)
        as Hcols.
      { induction cols as [|col cols IHc]; intros Hsub; cbn [fold_left]; [done|].
        rewrite add_cell_no_formula.
        - apply IHc. intros col' Hcol'. apply Hsub. by right.
        - apply Hnf; [apply (Hin i); by left|apply Hsub; by left]. }
      by apply Hcols. }
    apply IH. intros j r' Hj. apply (Hin j). by right. }
  apply Hrows. intros i r Hin. apply list_elem_of_lookup in Hin as [j Hj].
  rewrite list_lookup_imap in Hj. destruct (grid !! j) as [r'|] eqn:E; [|done].
  cbn in Hj. injection Hj as <- <-. by eapply list_elem_of_lookup_2.
Qed.

(** For a grid in which no cell of the given columns holds a formula,
    [evaluate_formulas] returns the grid as it is, with no cell errors
    and the statistics of an empty graph. *)
Theorem evaluate_formulas_without_formulas grid (columns : list Column) :
  (forall row_ column_, row_ ∈ grid -> column_ ∈ columns ->
                        ~ is_formula_value (row_ !! key column_)) ->
  evaluate_formulas float_str grid columns
  = Some (mkResponse true None "Evaluated 0 formulas successfully" ∅ grid
            (Some (mkEvalStats 0 0 0, mkStats 0 0 0 false 0 0, []))).
Proof.
  intros Hnf. unfold evaluate_formulas. rewrite (build_no_formula _ _ Hnf).
  cbn [mbind option_bind].
  change (has_circular_dependency init) with (Some (false, @None (list CellRef))).
  cbn [mbind option_bind get_evaluation_order init _evaluation_order fold_left
       pass_graph new_data pass_stats pass_errors evaluated].
  change (get_graph_stats init) with (Some (mkStats 0 0 0 false 0 0)).
  cbn [mbind option_bind map]. do 2 f_equal; apply (left_id_L ∅ (∪)).
Qed.

End Frame.

(** ** The properties above on a small grid *)

Section EvaluatorExamples.

Lemma evaluate_formula_call_witness :
  is_column_name "SUM" /\ (")"%char ∉ Py.chars "A1,B1") /\
  _evaluate_formula fraction_str "=SUM(A1,B1) and more" 0 "D" [row_1_2_3] columns_ABCD
  = _calculate_sum "A1,B1" 0 [row_1_2_3] columns_ABCD.
Proof.
  assert (is_column_name "SUM") as Hname by (repeat constructor).
  assert (")"%char ∉ Py.chars "A1,B1") as Hargs.
  { apply (bool_decide_unpack _). vm_compute. exact I. }
  split; [exact Hname|]. split; [exact Hargs|].
  exact (evaluate_formula_call fraction_str "SUM" "A1,B1" " and more" 0 "D"
           [row_1_2_3] columns_ABCD Hname ltac:(discriminate) ltac:(discriminate) Hargs).
Defined.

Lemma evaluate_formula_cell_reference_witness :
  is_column_name "B" /\ is_digits "1" /\
  _evaluate_formula fraction_str "=B1" 0 "D" [row_1_2_3] columns_ABCD
  = RNum (_get_cell_value "B" 0 [row_1_2_3] columns_ABCD).
Proof.
  assert (is_column_name "B") as Hc by (repeat constructor).
  assert (is_digits "1") as Hr by (repeat constructor).
  split; [exact Hc|]. split; [exact Hr|].
  exact (evaluate_formula_cell_reference fraction_str "B" "1" 0 "D" [row_1_2_3]
           columns_ABCD Hc ltac:(discriminate) Hr ltac:(discriminate)).
Defined.

Lemma evaluate_formula_binary_witness :
  is_column_name "C" /\ is_digits "1" /\ is_column_name "Z" /\ is_digits "9" /\
  is_operator "/" = true /\
  _evaluate_formula fraction_str "=C1/Z9" 0 "D" [row_1_2_3] columns_ABCD
  = RErr "#DIV/0!".
Proof.
  assert (is_column_name "C") as Hc1 by (repeat constructor).
  assert (is_digits "1") as Hr1 by (repeat constructor).
  assert (is_column_name "Z") as Hc2 by (repeat constructor).
  assert (is_digits "9") as Hr2 by (repeat constructor).
  assert (is_operator "/" = true) as Hop by reflexivity.
  repeat (split; [assumption|]).
  exact (proj2 (evaluate_formula_binary fraction_str "C" "1" "Z" "9" "/" 0 "D"
                  [row_1_2_3] columns_ABCD Hc1 ltac:(discriminate) Hr1
                  ltac:(discriminate) Hc2 ltac:(discriminate) Hr2 ltac:(discriminate)
                  Hop) eq_refl eq_refl).
Defined.

Lemma evaluate_formulas_without_formulas_witness :
  (forall row_ column_, row_ ∈ [row_zero] -> column_ ∈ columns_ABCD ->
                        ~ is_formula_value (row_ !! key column_)) /\
  data <$> evaluate_formulas fraction_str [row_zero] columns_ABCD = Some [row_zero].
Proof.
  assert (forall row_ column_, row_ ∈ [row_zero] -> column_ ∈ columns_ABCD ->
                               ~ is_formula_value (row_ !! key column_)) as Hnf.
  { intros row_ column_ ->%list_elem_of_singleton Hcol (text & Htext & Hs).
    unfold columns_ABCD in Hcol.
    repeat (apply elem_of_cons in Hcol as [->|Hcol]);
      [| | | |by apply elem_of_nil in Hcol];
      vm_compute in Htext; try discriminate Htext. }
  split; [exact Hnf|].
  by rewrite (evaluate_formulas_without_formulas fraction_str [row_zero] columns_ABCD Hnf).
Defined.

End EvaluatorExamples.

(** ** SUM and AVERAGE over a range *)

Section SumAverage.
Context (float_str : Q -> string).

Lemma ord_str_None (s : string) : String.length s <> 1%nat -> ord_str s = None.
Proof. destruct s as [|c [|c' s]]; cbn; done. Qed.

Lemma range_empty (a b : Z) : b <= a -> Py.range a b = [].
Proof.
  intros H. unfold Py.range, seqZ. by replace (Z.to_nat (b - a)) with 0%nat by lia.
Qed.

(** SUM and AVERAGE take the number of a column from its one letter:
    over a range with a column of two or more letters both give
    [#ERROR!], although such cells can be read one by one. *)
Theorem sum_needs_single_letter_columns (c1 r1 c2 r2 : string) (current_row : Z)
    (data_context : list (gmap string cell_value)) (columns_context : list Column) :
  is_column_name c1 -> c1 <> EmptyString -> is_digits r1 -> r1 <> EmptyString ->
  is_column_name c2 -> c2 <> EmptyString -> is_digits r2 -> r2 <> EmptyString ->
  (1 < String.length c1 \/ 1 < String.length c2)%nat ->
  _calculate_sum (Py.str (range_text c1 r1 c2 r2)) current_row data_context
                 columns_context = RErr "#ERROR!" /\
  _calculate_average (Py.str (range_text c1 r1 c2 r2)) current_row data_context
                     columns_context = RErr "#ERROR!".
Proof.
  intros Hc1 Hn1 Hr1 Hm1 Hc2 Hn2 Hr2 Hm2 Hlen.
  assert (_calculate_sum (Py.str (range_text c1 r1 c2 r2)) current_row data_context
                         columns_context = RErr "#ERROR!") as Hsum.
  { unfold _calculate_sum. cbv zeta. rewrite match_range_argument by done.
    destruct Hlen as [Hlen|Hlen].
    - rewrite (ord_str_None c1) by lia. done.
    - rewrite (ord_str_None c2) by lia. by destruct (ord_str c1). }
  split; [done|].
  unfold _calculate_average. cbv zeta. rewrite match_range_argument by done.
  assert (Py.strip (Py.str (range_text c1 r1 c2 r2)) = Py.str (range_text c1 r1 c2 r2))
    as -> by (by apply strip_id, range_text_no_space).
  by rewrite Hsum.
Qed.

Lemma sum_needs_single_letter_columns_witness :
  Py.str (range_text "AA" "1" "AB" "2") = "AA1:AB2"%string /\
  _calculate_sum "AA1:AB2" 0 [row_1_2_3] columns_ABCD = RErr "#ERROR!".
Proof.
  split; [reflexivity|].
  refine (proj1 (sum_needs_single_letter_columns "AA" "1" "AB" "2" 0 [row_1_2_3]
                   columns_ABCD _ _ _ _ _ _ _ _ _));
    first [by repeat constructor | discriminate | (left; cbn; lia)].
Defined.

(** Over a range between two one-letter columns, SUM gives a number and
    AVERAGE divides it by the number of cells the text of the range
    stands for, columns times rows, however many of those rows the grid
    has; the corners are not put in order: when the second row is above
    the first, SUM is 0, and when that count is not positive, AVERAGE is
    [#DIV/0!]. *)
Theorem average_divides_by_nominal_count (x1 x2 : ascii) (r1 r2 : string)
    (current_row : Z) (data_context : list (gmap string cell_value))
    (columns_context : list Column) :
  Py.is_upper x1 = true -> Py.is_upper x2 = true ->
  is_digits r1 -> r1 <> EmptyString -> is_digits r2 -> r2 <> EmptyString ->
  let range_str :=
    Py.str (range_text (String x1 EmptyString) r1 (String x2 EmptyString) r2) in
  let count :=
    (Py.ord x2 - Py.ord x1 + 1) * (Py.int_digits r2 - Py.int_digits r1 + 1) in
  exists total,
    _calculate_sum range_str current_row data_context columns_context = RNum total /\
    (Py.int_digits r2 < Py.int_digits r1 -> total = Num.zero) /\
    _calculate_average range_str current_row data_context columns_context
    = if 0 <? count then RNum (Num.div total (Num.of_int count)) else RErr "#DIV/0!".
Proof.
  intros Hx1 Hx2 Hr1 Hm1 Hr2 Hm2 range_str count.
  assert (is_column_name (String x1 EmptyString)) as Hc1 by (by repeat constructor).
  assert (is_column_name (String x2 EmptyString)) as Hc2 by (by repeat constructor).
  assert (Re.match_ range_re (Py.strip range_str)
          = Some [String x1 EmptyString; r1; String x2 EmptyString; r2]) as Hmatch
    by (by apply match_range_argument).
  assert (Py.strip range_str = range_str) as Hstrip
    by (by apply strip_id, range_text_no_space).
  unfold _calculate_sum, _calculate_average. cbv zeta.
  rewrite !Hstrip. rewrite Hstrip in Hmatch. rewrite Hmatch.
  cbn [ord_str]. eexists. split; [reflexivity|]. split.
  - intros Hrev. unfold rows_in_range. rewrite (range_empty (Py.int_digits r1 - 1)); [reflexivity|lia].
  - unfold _calculate_sum. cbv zeta. rewrite Hstrip, Hmatch. cbn [ord_str].
    replace (Py.ord x2 - Py.ord "A" - (Py.ord x1 - Py.ord "A") + 1)
      with (Py.ord x2 - Py.ord x1 + 1) by lia.
    done.
Qed.

Lemma average_divides_by_nominal_count_witness :
  Py.str (range_text "A" "2" "B" "1") = "A2:B1"%string /\
  _calculate_sum "A2:B1" 0 [row_1_2_3] columns_ABCD = RNum 0 /\
  _calculate_average "A2:B1" 0 [row_1_2_3] columns_ABCD = RErr "#DIV/0!".
Proof.
  split; [reflexivity|].
  destruct (average_divides_by_nominal_count "A" "B" "2" "1" 0 [row_1_2_3] columns_ABCD
              eq_refl eq_refl ltac:(by repeat constructor) ltac:(discriminate)
              ltac:(by repeat constructor) ltac:(discriminate))
    as (total & Hsum & Hzero & Havg).
  rewrite (Hzero ltac:(vm_compute; reflexivity)) in Hsum, Havg.
  split; [exact Hsum|exact Havg].
Defined.

End SumAverage.

(** ** Marking a cell evaluated *)

Section MarkEvaluated.
Implicit Types (g : Graph) (c : CellRef).

(** [mark_cell_evaluated] changes nothing for a cell without node; for
    a cell with one it stores the value and the error flag and message
    in the node, marks it evaluated and takes the cell out of the dirty
    set.  The formulas, the dependencies and dependents, the other nodes,
    the edges and the evaluation order stay as they are. *)
Theorem mark_cell_evaluated_stores c (v : result) (has_err : bool) (msg : option string) g :
  let g' := mark_cell_evaluated c v has_err msg g in
  dict_keys (nodes g') = dict_keys (nodes g) /\
  adjacency_list g' = adjacency_list g /\
  reverse_adjacency_list g' = reverse_adjacency_list g /\
  _evaluation_order g' = _evaluation_order g /\
  (forall b, b <> c -> dict_get b (nodes g') = dict_get b (nodes g)) /\
  match dict_get c (nodes g) with
  | Some n =>
      dict_get c (nodes g')
      = Some (mkNode (cell_ref n) (formula n) (dependencies n) (dependents n)
                     (Some v) true has_err msg) /\
      _dirty_cells g' = _dirty_cells g ∖ {[c]}
  | None => g' = g
  end.
Proof.
  cbv zeta. unfold mark_cell_evaluated.
  destruct (dict_get c (nodes g)) as [n|] eqn:Hn.
  - assert (dict_mem c (nodes g) = true) as ->.
    { apply dict_mem_keys, dict_get_keys. by exists n. }
    cbn [set_dirty set_nodes nodes adjacency_list reverse_adjacency_list
         _evaluation_order _dirty_cells].
    split; [apply dict_keys_alter|]. repeat (split; [done|]). split.
    + intros b Hb. rewrite dict_get_alter. by rewrite decide_False.
    + split; [|done]. rewrite dict_get_alter, decide_True by done. by rewrite Hn.
  - assert (dict_mem c (nodes g) = false) as ->.
    { apply dict_mem_false. by apply dict_get_None. }
    done.
Qed.

End MarkEvaluated.

(** ** The dependencies that reach the graph *)

Section MappedDependencies.

Lemma letter_to_column_key_spec (letter : string) (columns : list Column) :
  truthy_key (_letter_to_column_key letter columns) = true <->
  letter <> EmptyString /\ exists column_, column_ ∈ columns /\ key column_ = letter.
Proof.
  unfold _letter_to_column_key, _find_column_by_letter.
  destruct (List.find _ columns) as [col|] eqn:E; cbn.
  - apply find_some in E as [Hin E]. apply bool_decide_eq_true in E.
    rewrite E. destruct letter; cbn.
    + split; [done|]. by intros [? _].
    + split; [|done]. intros _. split; [done|]. exists col.
      split; [by apply list_elem_of_In|done].
  - split; [done|]. intros (_ & col & Hin%list_elem_of_In & Hkey).
    apply (find_none _ _ E) in Hin. by rewrite bool_decide_eq_true_2 in Hin.
Qed.

Lemma map_dependencies_elem (deps : gset CellRef) (columns : list Column) (dep : CellRef) :
  dep ∈ map_dependencies deps columns <->
  dep ∈ deps /\ truthy_key (_letter_to_column_key (column dep) columns) = true.
Proof.
  unfold map_dependencies.
  assert (forall (l : list CellRef) (acc : gset CellRef),
    dep ∈ fold_left (fun mapped d =>
              let mapped_key := _letter_to_column_key (column d) columns in
              if truthy_key mapped_key then
                {[ mkCellRef (default EmptyString mapped_key) (row d) ]} ∪ mapped
              else mapped) l acc
    <-> dep ∈ acc \/
        (dep ∈ l /\ truthy_key (_letter_to_column_key (column dep) columns) = true))
    as Hfold.
  { induction l as [|d l IH]; intros acc; cbn [fold_left].
    - split; [by left|]. intros [?|[?%elem_of_nil _]]; done.
    - rewrite IH. cbv zeta.
      destruct (truthy_key (_letter_to_column_key (column d) columns)) eqn:Ht.
      + rewrite (truthy_key_column _ _ Ht).
        assert (mkCellRef (column d) (row d) = d) as -> by (by destruct d).
        rewrite elem_of_union, elem_of_singleton, elem_of_cons. split.
        * intros [[->|?]|[? ?]]; [right; split; [by left|done]|by left|].
          right. split; [by right|done].
        * intros [?|[[->|?] ?]]; [left; by right|left; by left|]. by right.
      + rewrite elem_of_cons. split.
        * intros [?|[? ?]]; [by left|]. right. split; [by right|done].
        * intros [?|[[->|?] Hd]]; [by left|congruence|]. by right. }
  rewrite Hfold. rewrite elem_of_elements. set_solver.
Qed.

(** Of the references of a formula, those reach the graph as
    dependencies whose column is the key of a column of the grid, and
    not the empty one, and whose row is a row of the grid; the others
    are dropped without notice. *)
Theorem dependencies_within_grid (deps : gset CellRef)
    (grid : list (gmap string cell_value)) (columns : list Column) (dep : CellRef) :
  dep ∈ _validate_dependencies (map_dependencies deps columns) grid columns <->
  dep ∈ deps /\
  column dep <> EmptyString /\
  (exists column_, column_ ∈ columns /\ key column_ = column dep) /\
  1 <= row dep <= len grid.
Proof.
  unfold _validate_dependencies. rewrite elem_of_filter, map_dependencies_elem.
  rewrite letter_to_column_key_spec. tauto.
Qed.

End MappedDependencies.

(** ** The dependencies of a formula without ranges *)

Section Words.
Import Re.

Notation found := (fun caps : list string => [caps]).
Notation dropped := (fun _ : ascii => @nil (list string)).

Lemma range_pattern_needs_colon (pre suf : list ascii) :
  ":"%char ∉ suf -> match_at range_pattern (pre, suf) = None.
Proof.
  intros Hsuf. unfold match_at, range_pattern. cbn [seq].
  destruct (run _ _ _ _) as [[p' caps]|] eqn:H; [|done]. exfalso.
  rewrite run_Cat in H. apply run_WordB_sound in H. rewrite run_Cat in H.
  apply run_group_plus_sound in H as (c1 & rest1 & -> & _ & _ & H).
  rewrite run_Cat in H.
  apply run_group_plus_sound in H as (r1 & rest2 & -> & _ & _ & H).
  rewrite run_Cat in H. apply run_lit_sound in H as (rest3 & -> & _).
  apply Hsuf. rewrite !elem_of_app. right. right. by left.
Qed.

(** A scan that finds no match keeps every character. *)
Lemma scan_nothing {A : Type} (r : regex) (emit : list string -> list A)
    (keep : ascii -> list A) (suf : list ascii) :
  forall pre,
    (forall pre' l suf', suf = l ++ suf' -> match_at r (pre', suf') = None) ->
    scan r emit keep 0 pre suf = flat_map keep suf.
Proof.
  induction suf as [|c suf IH]; intros pre Hnone.
  - cbn. by rewrite (Hnone pre [] []).
  - cbn [scan flat_map]. rewrite (Hnone pre [] (c :: suf)) by done. f_equal.
    apply IH. intros pre' l suf' ->. by apply (Hnone pre' (c :: l)).
Qed.

Lemma flat_map_none {A B : Type} (l : list A) : flat_map (fun _ => @nil B) l = [].
Proof. induction l as [|a l IH]; [done|]. cbn. by rewrite IH. Qed.

Lemma flat_map_each {A : Type} (l : list A) : flat_map (fun a => [a]) l = l.
Proof. induction l as [|a l IH]; [done|]. cbn. by rewrite IH. Qed.

Lemma upper_not_digit (c : ascii) : Py.is_upper c = true -> Py.is_digit c = false.
Proof. unfold Py.is_digit, Py.is_upper, Py.between. lia. Qed.

Lemma no_colon_no_range (s : string) :
  ":"%char ∉ Py.chars s ->
  findall range_pattern s = [] /\ sub_empty range_pattern s = s.
Proof.
  intros Hs.
  assert (forall pre' l suf', Py.chars s = l ++ suf' ->
                              match_at range_pattern (pre', suf') = None) as Hnone.
  { intros pre' l suf' E. apply range_pattern_needs_colon. intros Hin. apply Hs.
    rewrite E. apply elem_of_app. by right. }
  unfold findall, sub_empty. rewrite !scan_nothing by done. split.
  - apply flat_map_none.
  - rewrite flat_map_each. apply str_chars.
Qed.

Lemma cell_pattern_not_upper (pre suf : list ascii) :
  match suf with c :: _ => Py.is_upper c = false | [] => True end ->
  match_at cell_pattern (pre, suf) = None.
Proof.
  intros Hsuf. unfold match_at, cell_pattern. cbn [seq]. rewrite run_Cat, run_WordB.
  destruct (xorb _ _); [|done]. rewrite run_Cat. cbn [run plus fst snd].
  destruct suf as [|c suf]; [done|]. cbn [rep_greedy]. by rewrite Hsuf.
Qed.

Lemma cell_pattern_inside_word (pre suf : list ascii) :
  word_before (pre, suf) = true -> word_after (pre, suf) = true ->
  match_at cell_pattern (pre, suf) = None.
Proof.
  intros Hb Ha. unfold match_at, cell_pattern. cbn [seq]. rewrite run_Cat, run_WordB.
  by rewrite Hb, Ha.
Qed.

Lemma not_word_not_upper (c : ascii) : Py.is_word c = false -> Py.is_upper c = false.
Proof.
  intros Hw. destruct (Py.is_upper c) eqn:E; [|done]. by rewrite upper_is_word in Hw.
Qed.

Lemma rep_greedy_upper_none {R : Type} (k : pos -> option R) (rest : list ascii) :
  (forall pre' suf', match suf' with c :: _ => Py.is_digit c = false | [] => True end ->
                     k (pre', suf') = None) ->
  match rest with c :: _ => Py.is_word c = false | [] => True end ->
  forall (w : list ascii) (least : nat) (pre : list ascii),
    Forall (fun c => Py.is_upper c = true) w ->
    rep_greedy Py.is_upper least pre (w ++ rest) k = None.
Proof.
  intros Hk Hrest. induction w as [|a w IH]; intros least pre Hw.
  - cbn [app]. destruct rest as [|c rest]; cbn [rep_greedy].
    + destruct least; [by apply Hk|done].
    + rewrite (not_word_not_upper c Hrest).
      destruct least; [|done]. apply Hk. by apply not_word_not_digit.
  - inversion Hw as [|? ? Ha Hw']; subst. cbn [app rep_greedy]. rewrite Ha.
    rewrite IH by done. destruct least; [|done].
    apply Hk. by apply upper_not_digit.
Qed.

Lemma cell_pattern_name (pre w rest : list ascii) :
  Forall (fun c => Py.is_upper c = true) w ->
  match rest with c :: _ => Py.is_word c = false | [] => True end ->
  match_at cell_pattern (pre, w ++ rest) = None.
Proof.
  intros Hw Hrest. unfold match_at, cell_pattern. cbn [seq]. rewrite run_Cat, run_WordB.
  destruct (xorb _ _); [|done]. rewrite run_Cat. cbn [run plus fst snd].
  apply rep_greedy_upper_none; [|done|done].
  intros pre' suf' Hsuf'. cbn [fst snd].
  destruct suf' as [|c suf']; [done|]. cbn [rep_greedy]. by rewrite Hsuf'.
Qed.

Lemma cell_pattern_ref (col row_ : string) (pre rest : list ascii) :
  is_column_name col -> col <> EmptyString -> is_digits row_ -> row_ <> EmptyString ->
  word_before (pre, rest) = false ->
  match rest with c :: _ => Py.is_word c = false | [] => True end ->
  match_at cell_pattern (pre, Py.chars col ++ Py.chars row_ ++ rest)
  = Some ((rev (Py.chars row_) ++ rev (Py.chars col) ++ pre, rest), [col; row_]).
Proof.
  intros Hc Hcn Hr Hrn Hpre Hrest.
  pose proof (chars_nonempty col Hcn) as Hc'. pose proof (chars_nonempty row_ Hrn) as Hr'.
  unfold is_column_name, is_digits in *.
  unfold match_at, cell_pattern. cbn [seq]. rewrite run_Cat, run_WordB.
  assert (word_before (pre, Py.chars col ++ Py.chars row_ ++ rest) = false) as ->
    by exact Hpre.
  assert (word_after (pre, Py.chars col ++ Py.chars row_ ++ rest) = true) as ->.
  { unfold word_after. cbn [snd]. destruct (Py.chars col) as [|a l]; [done|].
    cbn. apply upper_is_word. by inversion Hc. }
  cbn [xorb]. rewrite run_Cat. apply run_group_plus; [done|done| |].
  { destruct (Py.chars row_) as [|a l]; [done|]. cbn. apply digit_not_upper.
    by inversion Hr. }
  apply run_group_plus; [done|done| |].
  { destruct rest as [|c rest]; [done|]. by apply not_word_not_digit. }
  assert (word_before (rev (Py.chars row_) ++ rev (Py.chars col) ++ pre, rest) = true)
    as ->.
  { unfold word_before. cbn [fst].
    destruct (Py.chars row_) as [|a l _] using rev_ind; [done|].
    rewrite rev_app_distr. cbn. apply digit_is_word.
    apply Forall_app in Hr as [_ Hr]. by inversion Hr. }
  assert (word_after (rev (Py.chars row_) ++ rev (Py.chars col) ++ pre, rest) = false)
    as ->.
  { unfold word_after. cbn [snd]. by destruct rest. }
  cbn [xorb app]. by rewrite !str_chars.
Qed.

(** The scan steps over a run of characters at none of which the
    pattern matches. *)
Lemma scan_over {A : Type} (r : regex) (emit : list string -> list A) (l : list ascii) :
  forall pre rest,
    (forall l1 l2, l = l1 ++ l2 -> l2 <> [] ->
                   match_at r (rev l1 ++ pre, l2 ++ rest) = None) ->
    scan r emit (fun _ => []) 0 pre (l ++ rest)
    = scan r emit (fun _ => []) 0 (rev l ++ pre) rest.
Proof.
  induction l as [|c l IH]; intros pre rest Hnone; [done|].
  cbn [app]. rewrite scan_no_match by (by apply (Hnone [] (c :: l))).
  cbn [app rev]. rewrite <- app_assoc. apply IH.
  intros l1 l2 -> Hne. specialize (Hnone (c :: l1) l2 eq_refl Hne).
  cbn [rev] in Hnone. by rewrite <- app_assoc in Hnone.
Qed.

Lemma scan_separators (sep pre rest : list ascii) :
  Forall sep_char sep ->
  scan cell_pattern found dropped 0 pre (sep ++ rest)
  = scan cell_pattern found dropped 0 (rev sep ++ pre) rest.
Proof.
  intros Hsep. apply scan_over. intros l1 l2 -> Hne.
  apply cell_pattern_not_upper. destruct l2 as [|c l2]; [done|]. cbn [app].
  apply Forall_app in Hsep as [_ Hsep]. inversion Hsep as [|? ? [Hc _] _]; subst.
  by apply not_word_not_upper.
Qed.

Lemma scan_number (w pre rest : list ascii) :
  Forall (fun c => Py.is_digit c = true) w ->
  scan cell_pattern found dropped 0 pre (w ++ rest)
  = scan cell_pattern found dropped 0 (rev w ++ pre) rest.
Proof.
  intros Hw. apply scan_over. intros l1 l2 -> Hne.
  apply cell_pattern_not_upper. destruct l2 as [|c l2]; [done|]. cbn [app].
  apply Forall_app in Hw as [_ Hw]. inversion Hw as [|? ? Hc _]; subst.
  by apply digit_not_upper.
Qed.

Lemma scan_name (w pre rest : list ascii) :
  Forall (fun c => Py.is_upper c = true) w ->
  match rest with c :: _ => Py.is_word c = false | [] => True end ->
  scan cell_pattern found dropped 0 pre (w ++ rest)
  = scan cell_pattern found dropped 0 (rev w ++ pre) rest.
Proof.
  intros Hw Hrest. apply scan_over. intros l1 l2 -> Hne.
  apply Forall_app in Hw as [_ Hw]. by apply cell_pattern_name.
Qed.

Lemma scan_ref (col row_ : string) (pre rest : list ascii) :
  is_column_name col -> col <> EmptyString -> is_digits row_ -> row_ <> EmptyString ->
  word_before (pre, rest) = false ->
  match rest with c :: _ => Py.is_word c = false | [] => True end ->
  scan cell_pattern found dropped 0 pre (Py.chars col ++ Py.chars row_ ++ rest)
  = [col; row_]
    :: scan cell_pattern found dropped 0
         (rev (Py.chars col ++ Py.chars row_) ++ pre) rest.
Proof.
  intros Hc Hcn Hr Hrn Hpre Hrest.
  pose proof (cell_pattern_ref col row_ pre rest Hc Hcn Hr Hrn Hpre Hrest) as Hmatch.
  pose proof (chars_nonempty col Hcn) as Hc'.
  rewrite app_assoc in *.
  destruct (Py.chars col ++ Py.chars row_) as [|x l] eqn:E.
  { by destruct (Py.chars col). }
  cbn [app] in *.
  rewrite (scan_match _ _ _ _ _ _ _ _ (length l) Hmatch).
  2:{ cbn [snd length]. rewrite length_app. lia. }
  cbn [app]. f_equal. rewrite scan_skip. cbn [rev]. by rewrite <- app_assoc.
Qed.

Lemma word_before_separator (sep pre rest rest' : list ascii) :
  Forall sep_char sep -> sep <> [] -> word_before (rev sep ++ pre, rest) = false.
Proof.
  intros Hsep Hne. unfold word_before. cbn [fst].
  destruct sep as [|c sep _] using rev_ind; [done|].
  rewrite rev_app_distr. cbn. apply Forall_app in Hsep as [_ Hsep].
  by inversion Hsep as [|? ? [Hc _] _].
Qed.

Lemma separator_head (sep rest : list ascii) :
  Forall sep_char sep -> (sep = [] -> rest = []) ->
  match sep ++ rest with c :: _ => Py.is_word c = false | [] => True end.
Proof.
  intros Hsep Hrest. destruct sep as [|c sep].
  - by rewrite Hrest.
  - cbn. by inversion Hsep as [|? ? [Hc _] _].
Qed.

Lemma scan_words (ts : list (token * list ascii)) :
  forall pre,
    word_before (pre, text_of ts) = false -> words_ok ts ->
    scan cell_pattern found dropped 0 pre (text_of ts)
    = flat_map (fun ts => token_groups ts.1) ts.
Proof.
  induction ts as [|[t sep] ts IH]; intros pre Hpre Hok.
  - cbn [text_of flat_map scan]. by rewrite cell_pattern_not_upper.
  - destruct Hok as (Ht & Hsep & Hlast & Hok). cbn [text_of flat_map fst].
    pose proof (separator_head sep (text_of ts) Hsep) as Hhead.
    assert (match sep ++ text_of ts with c :: _ => Py.is_word c = false | [] => True end)
      as Hnext.
    { apply Hhead. intros ->. by rewrite (Hlast eq_refl). }
    assert (forall pre',
              scan cell_pattern found dropped 0 pre' (sep ++ text_of ts)
              = flat_map (fun ts => token_groups ts.1) ts) as Hrest.
    { intros pre'. destruct (decide (sep = [])) as [->|Hne].
      - rewrite (Hlast eq_refl). cbn [app text_of flat_map scan].
        by rewrite cell_pattern_not_upper.
      - rewrite scan_separators by done. apply IH; [|done].
        by apply (word_before_separator sep pre' _ []). }
    destruct t as [col row_|name|digits]; cbn [token_chars token_groups token_ok] in *.
    + destruct Ht as (Hc & Hcn & Hr & Hrn). rewrite <- app_assoc.
      rewrite scan_ref by done. cbn [app]. f_equal. apply Hrest.
    + destruct Ht as (Hw & _). rewrite scan_name by done. cbn [app]. apply Hrest.
    + destruct Ht as (Hw & _). rewrite scan_number by done. cbn [app]. apply Hrest.
Qed.

Lemma sep_char_not_lower (c : ascii) : sep_char c -> Py.upper_char c = c.
Proof.
  intros [Hw _]. unfold Py.upper_char. destruct (Py.is_lower c) eqn:E; [|done].
  unfold Py.is_word in Hw. rewrite E in Hw. by destruct (Py.is_upper c).
Qed.

Lemma token_chars_upper (t : token) :
  token_ok t -> map Py.upper_char (token_chars t) = token_chars t.
Proof.
  destruct t as [col row_|name|digits]; cbn [token_ok token_chars].
  - intros (Hc & _ & Hr & _). by apply cell_text_upper.
  - intros (Hw & _). by apply (map_upper_char_id Py.is_upper _ upper_char_upper).
  - intros (Hw & _). by apply (map_upper_char_id Py.is_digit _ upper_char_digit).
Qed.

Lemma separators_upper (sep : list ascii) :
  Forall sep_char sep -> map Py.upper_char sep = sep.
Proof.
  induction 1 as [|c sep Hc _ IH]; [done|]. cbn. by rewrite sep_char_not_lower, IH.
Qed.

Lemma text_of_upper (ts : list (token * list ascii)) :
  words_ok ts -> map Py.upper_char (text_of ts) = text_of ts.
Proof.
  induction ts as [|[t sep] ts IH]; [done|]. intros (Ht & Hsep & _ & Hok).
  cbn [text_of]. rewrite !map_app.
  by rewrite token_chars_upper, separators_upper, IH.
Qed.

Lemma token_chars_no_colon (t : token) : token_ok t -> ":"%char ∉ token_chars t.
Proof.
  destruct t as [col row_|name|digits]; cbn [token_ok token_chars].
  - intros (Hc & _ & Hr & _) [H|H]%elem_of_app.
    + unfold is_column_name in Hc. rewrite Forall_forall in Hc. by apply Hc in H.
    + unfold is_digits in Hr. rewrite Forall_forall in Hr. by apply Hr in H.
  - intros (Hw & _) H.
    unfold is_column_name in Hw. rewrite Forall_forall in Hw. by apply Hw in H.
  - intros (Hw & _) H.
    unfold is_digits in Hw. rewrite Forall_forall in Hw. by apply Hw in H.
Qed.

Lemma separators_no_colon (sep : list ascii) : Forall sep_char sep -> ":"%char ∉ sep.
Proof.
  intros Hsep H. rewrite Forall_forall in Hsep. by destruct (Hsep _ H) as [_ ?].
Qed.

Lemma text_of_no_colon (ts : list (token * list ascii)) :
  words_ok ts -> ":"%char ∉ text_of ts.
Proof.
  induction ts as [|[t sep] ts IH]; [by intros _ ?%elem_of_nil|].
  intros (Ht & Hsep & _ & Hok). cbn [text_of].
  intros [H|[H|H]%elem_of_app]%elem_of_app.
  - by apply (token_chars_no_colon t).
  - by apply (separators_no_colon sep).
  - by apply IH.
Qed.

Lemma fold_token_groups (ts : list (token * list ascii)) :
  forall deps : gset CellRef,
    fold_left (fun deps m =>
        match m with
        | [col; row_] => {[ mkCellRef col (Py.int_digits row_) ]} ∪ deps
        | _ => deps
        end) (flat_map (fun ts => token_groups ts.1) ts) deps
    = list_to_set (flat_map (fun ts => token_cells ts.1) ts) ∪ deps.
Proof.
  induction ts as [|[t sep] ts IH]; intros deps; cbn [flat_map fst].
  - cbn. set_solver.
  - rewrite fold_left_app, IH, list_to_set_app_L.
    destruct t; cbn; set_solver.
Qed.

(** The dependencies of a formula without ranges, in capital letters,
    whose words (cell references, names, numbers) are kept apart by
    characters that are neither word characters nor colons, are exactly
    the cell references among its words: names and numbers give none. *)
Theorem extract_dependencies_words (sep0 : list ascii) (ts : list (token * list ascii)) :
  Forall sep_char sep0 -> words_ok ts ->
  extract_dependencies (String "=" (Py.str (sep0 ++ text_of ts)))
  = list_to_set (flat_map (fun ts => token_cells ts.1) ts).
Proof.
  intros Hsep0 Hok. unfold extract_dependencies.
  cbn [Py.startswith Py.tail]. rewrite bool_decide_eq_true_2 by done.
  assert (Py.upper (Py.str (sep0 ++ text_of ts)) = Py.str (sep0 ++ text_of ts)) as ->.
  { unfold Py.upper. rewrite chars_str, map_app.
    by rewrite separators_upper, text_of_upper. }
  destruct (no_colon_no_range (Py.str (sep0 ++ text_of ts))) as [-> ->].
  { rewrite chars_str. intros [H|H]%elem_of_app.
    - by apply (separators_no_colon sep0).
    - by apply (text_of_no_colon ts). }
  cbn [fold_left]. unfold findall. rewrite chars_str.
  assert (scan cell_pattern found dropped 0 [] (sep0 ++ text_of ts)
          = flat_map (fun ts => token_groups ts.1) ts) as ->.
  { destruct (decide (sep0 = [])) as [->|Hne].
    - by apply scan_words.
    - rewrite scan_separators by done. apply scan_words; [|done].
      by apply (word_before_separator sep0 [] _ []). }
  rewrite fold_token_groups. set_solver.
Qed.

Lemma extract_dependencies_words_witness :
  extract_dependencies "=SUM(A1,B2)+3"
  = {[ mkCellRef "A" 1; mkCellRef "B" 2 ]}.
Proof.
  pose proof (extract_dependencies_words []
    [(TName "SUM", ["("%char]); (TRef "A" "1", [","%char]);
     (TRef "B" "2", [")"%char; "+"%char]); (TNumber "3", [])]) as H.
  cbn [text_of token_chars Py.chars app Py.str flat_map token_cells fst
       list_ascii_of_string string_of_list_ascii] in H.
  rewrite H.
  - apply set_eq. intros x. cbn. set_solver.
  - constructor.
  - cbn [words_ok token_ok]. unfold is_column_name, is_digits, sep_char. cbn [Py.chars list_ascii_of_string].
    repeat split; try done; repeat constructor; try done.
Defined.

End Words.
